(** * ResComp: echo state networks (ESN, AHESN, IPESN)

    A shallow embedding of [ResCom.py] and a verification of its
    documented behaviour.

    Numbers.  NumPy's float64 scalars are idealised as the real numbers
    [R] of the Standard Library: rounding, infinities and NaN are outside
    the model.  Arrays are lists; a matrix is the list of its rows.

    External libraries.  The ODE integrator, the spline fitter, the sparse
    eigensolver, the dense inverse and the seeded random source are not
    part of the repository.  They are gathered in the record [Env]; every
    operation of the model takes the environment as its first argument,
    and a theorem that needs a contract of one of them states it as a
    hypothesis. *)

From Stdlib Require Import Reals List Arith Bool ZArith Lia Lra Psatz.
Import ListNotations.

Open Scope R_scope.

(* ================================================================== *)
(** * Exceptions *)

Module Exn.

Inductive exn : Type :=
| ValueError            (* shape mismatch, negative dimension *)
| IndexError            (* index outside an array *)
| TypeError             (* an attribute that is still None is used *)
| LinAlgError           (* numpy.linalg.inv on a singular matrix *)
| ArpackNoConvergence.  (* scipy.sparse.linalg.eigs gave up *)

Definition result (A : Type) : Type := (exn + A)%type.

Definition ret {A : Type} (a : A) : result A := inr a.
Definition raise {A : Type} (e : exn) : result A := inl e.

Definition bind {A B : Type} (c : result A) (k : A -> result B) : result B :=
  match c with
  | inl e => inl e
  | inr a => k a
  end.

End Exn.
Export Exn.

Notation "x <- c ;; k" := (bind c (fun x => k))
  (at level 61, c at next level, right associativity).

(* ================================================================== *)
(** * Arrays *)

Module Np.

Definition vec : Type := list R.
Definition mat : Type := list vec.

(** [np.zeros(n)] and [np.zeros((n, m))]. *)
Definition zeros (n : nat) : vec := repeat 0 n.
Definition zeros2 (n m : nat) : mat := repeat (zeros m) n.

(** [A.shape[1]] of a matrix with at least one row. *)
Definition ncols (A : mat) : nat :=
  match A with
  | [] => 0%nat
  | r :: _ => length r
  end.

(** [v[i]], [A[i]] and [A[:, j]]. *)
Definition vget (v : vec) (i : nat) : R := nth i v 0.
Definition row (A : list vec) (i : nat) : vec := nth i A [].
Definition col (j : nat) (A : mat) : vec := map (fun r => vget r j) A.

(** [v[j] = x] for [j] inside [v]. *)
Fixpoint set_nth (j : nat) (x : R) (v : vec) : vec :=
  match v, j with
  | [], _ => []
  | _ :: v', O => x :: v'
  | y :: v', S j' => y :: set_nth j' x v'
  end.

(** [A[:, j] = v] for [j] a column of [A] and [v] as long as [A] has
    rows (NumPy raises otherwise; every call site below is inside these
    bounds). *)
Fixpoint set_col (j : nat) (v : vec) (A : mat) : mat :=
  match A, v with
  | r :: A', x :: v' => set_nth j x r :: set_col j v' A'
  | _, _ => A
  end.

(** [np.transpose(A)] for [A] with [m] columns. *)
Definition transpose (m : nat) (A : mat) : mat :=
  map (fun j => col j A) (seq 0 m).

(** Elementwise operations. *)
Definition vscale (c : R) (v : vec) : vec := map (Rmult c) v.
Definition scale (c : R) (A : mat) : mat := map (vscale c) A.

Fixpoint vzip (f : R -> R -> R) (x y : vec) : vec :=
  match x, y with
  | a :: x', b :: y' => f a b :: vzip f x' y'
  | _, _ => []
  end.

Fixpoint mzip (f : R -> R -> R) (A B : mat) : mat :=
  match A, B with
  | r :: A', s :: B' => vzip f r s :: mzip f A' B'
  | _, _ => []
  end.

Definition vadd : vec -> vec -> vec := vzip Rplus.
Definition vsub : vec -> vec -> vec := vzip Rminus.
Definition vmul : vec -> vec -> vec := vzip Rmult.
Definition madd : mat -> mat -> mat := mzip Rplus.
Definition msub : mat -> mat -> mat := mzip Rminus.

(** Inner product, [A.dot(v)], [A @ B] for [B] with [m] columns. *)
Fixpoint dot (x y : vec) : R :=
  match x, y with
  | a :: x', b :: y' => a * b + dot x' y'
  | _, _ => 0
  end.

Definition mat_vec (A : mat) (v : vec) : vec := map (fun r => dot r v) A.

Definition matmul (m : nat) (A B : mat) : mat :=
  map (fun r => map (fun j => dot r (col j B)) (seq 0 m)) A.

(** [np.identity(n)] and [np.diag(v)]. *)
Definition unit_vec (n i : nat) (x : R) : vec := set_nth i x (zeros n).
Definition identity (n : nat) : mat := map (fun i => unit_vec n i 1) (seq 0 n).
Definition diag (v : vec) : mat :=
  map (fun i => unit_vec (length v) i (vget v i)) (seq 0 (length v)).

(** [np.asarray([x]).T @ np.asarray([y])]: the outer product. *)
Definition outer (x y : vec) : mat := map (fun a => vscale a y) x.

(** [np.linalg.norm(A, axis=0)]: the Euclidean norm of every column of
    a matrix with [m] columns. *)
Definition norm2 (v : vec) : R := sqrt (dot v v).
Definition col_norms (m : nat) (A : mat) : vec :=
  map (fun j => norm2 (col j A)) (seq 0 m).

(** Row [i] of [A] multiplied by [v[i]]. *)
Fixpoint row_scale (v : vec) (A : mat) : mat :=
  match v, A with
  | c :: v', r :: A' => vscale c r :: row_scale v' A'
  | _, _ => []
  end.

(** [range(a, b)]. *)
Definition range (a b : nat) : list nat := seq a (b - a).

(** Every entry of [w] is zero. *)
Definition all_zero (w : vec) : Prop := Forall (fun y => y = 0) w.

(** Some entry of [w] is zero. *)
Definition has_zero (w : vec) : bool :=
  existsb (fun y => if Req_EM_T y 0 then true else false) w.

(** [A.shape == (n, m)]. *)
Definition shaped (n m : nat) (A : mat) : Prop :=
  length A = n /\ Forall (fun r => length r = m) A.

End Np.
Export Np.

(* ================================================================== *)
(** * Eigenvalues

    [scipy.sparse.linalg.eigs] returns complex eigenvalues; the code
    keeps their modulus.  The spectral radius itself is a mathematical
    notion, defined here from eigenpairs over the complex numbers. *)

Module Spectrum.

Definition C : Type := (R * R)%type.

Definition C0 : C := (0, 0).
Definition RtoC (x : R) : C := (x, 0).
Definition Cadd (z w : C) : C := (fst z + fst w, snd z + snd w).
Definition Cmul (z w : C) : C :=
  (fst z * fst w - snd z * snd w, fst z * snd w + snd z * fst w).
Definition Cscale (c : R) (z : C) : C := (c * fst z, c * snd z).

(** [np.abs] of a complex number. *)
Definition Cmod (z : C) : R := sqrt (fst z * fst z + snd z * snd z).

Definition cvec : Type := list C.

Fixpoint cdot (r : vec) (v : cvec) : C :=
  match r, v with
  | a :: r', z :: v' => Cadd (Cscale a z) (cdot r' v')
  | _, _ => C0
  end.

Definition mat_cvec (A : mat) (v : cvec) : cvec := map (fun r => cdot r v) A.

Definition nonzero (v : cvec) : Prop := exists z, In z v /\ z <> C0.

(** [v] is an eigenvector of the square matrix [A] for [lam]. *)
Definition eigenpair (A : mat) (lam : C) (v : cvec) : Prop :=
  length v = length A /\ nonzero v /\ mat_cvec A v = map (Cmul lam) v.

Definition eigenvalue (A : mat) (lam : C) : Prop :=
  exists v, eigenpair A lam v.

(** [r] is the largest modulus of an eigenvalue of [A]. *)
Definition spectral_radius (A : mat) (r : R) : Prop :=
  (exists lam, eigenvalue A lam /\ Cmod lam = r) /\
  (forall lam, eigenvalue A lam -> Cmod lam <= r).

(** What [eigs(A, 1, which='LM')] promises for its answer [lam]. *)
Definition dominant (A : mat) (lam : C) : Prop :=
  eigenvalue A lam /\ forall mu, eigenvalue A mu -> Cmod mu <= Cmod lam.

End Spectrum.
Export Spectrum.

(* ================================================================== *)
(** * Inverses *)

Module Inverse.

(** [B] is the inverse of the [n] by [n] matrix [A]. *)
Definition is_inverse (n : nat) (A B : mat) : Prop :=
  shaped n n B /\ matmul n A B = identity n /\ matmul n B A = identity n.

Definition invertible (n : nat) (A : mat) : Prop :=
  exists B, is_inverse n A B.

(** What [np.linalg.inv] promises for the answer [r] it gives on [A]:
    the inverse, or [LinAlgError] when there is none. *)
Definition inv_answer (n : nat) (A : mat) (r : result mat) : Prop :=
  match r with
  | inr B => is_inverse n A B
  | inl e => e = LinAlgError /\ ~ invertible n A
  end.

End Inverse.
Export Inverse.

(* ================================================================== *)
(** * The external libraries *)

Record Env : Type := mkEnv {
  (** The global NumPy random state, [np.random.seed], and the three
      samplers the constructors use.  A sampler returns its draws and the
      state it leaves behind. *)
  rng : Type;
  random_seed : Z -> rng;
  randint_rvs : nat -> nat -> nat -> rng -> list nat * rng;
  uniform_rvs : R -> R -> nat -> rng -> list R * rng;
  sp_random : nat -> nat -> R -> rng -> mat;
  (** [eigs(A, 1, which='LM', return_eigenvectors=False)[0]]. *)
  eigs : mat -> result C;
  (** [np.linalg.inv]. *)
  linalg_inv : mat -> result mat;
  (** [splprep(coords, u=t, s=0)] and [splev(t, tck)]. *)
  tck : Type;
  splprep : list vec -> list R -> tck;
  splev : R -> tck -> vec;
  (** [integrate.odeint(f, r0, t)]. *)
  odeint : (vec -> R -> vec) -> vec -> list R -> list vec
}.

(* ================================================================== *)
(** * Sparse matrices in coordinate form *)

Module Coo.

(** The value stored at [(i, j)]: [tocsr()] sums the triples that share
    a position. *)
Fixpoint entry (values : list R) (rows cols : list nat) (i j : nat) : R :=
  match values, rows, cols with
  | v :: values', r :: rows', c :: cols' =>
      (if ((r =? i) && (c =? j))%nat then v else 0)
      + entry values' rows' cols' i j
  | _, _, _ => 0
  end.

(** [sp.coo_matrix((values, (rows, cols))).tocsr()].  No [shape] is
    given, so SciPy infers it from the largest row and column index. *)
Definition coo_matrix (values : list R) (rows cols : list nat) : result mat :=
  if negb ((length rows =? length values)
           && (length cols =? length values))%nat
  then raise ValueError
  else match values with
       | [] => raise ValueError
       | _ :: _ =>
           let n := S (list_max rows) in
           let m := S (list_max cols) in
           ret (map (fun i => map (fun j => entry values rows cols i j)
                                  (seq 0 m))
                    (seq 0 n))
       end.

End Coo.

(* ================================================================== *)
(** * class ESN *)

Module ESN.

Record obj : Type := mk {
  N : nat;
  d : nat;
  seed : Z;
  W_in_orig : mat;
  sigma : R;
  W_in : mat;
  p : R;
  M_orig : mat;
  rho : R;
  M : mat;
  W_out : option mat;
  gamma : R;
  beta : R;
  u : option (R -> vec);
  r_T : option vec
}.

(** Attribute assignments. *)
Definition with_M (M' : mat) (s : obj) : obj :=
  mk (N s) (d s) (seed s) (W_in_orig s) (sigma s) (W_in s) (p s) (M_orig s)
     (rho s) M' (W_out s) (gamma s) (beta s) (u s) (r_T s).

Definition with_W_in (W' : mat) (s : obj) : obj :=
  mk (N s) (d s) (seed s) (W_in_orig s) (sigma s) W' (p s) (M_orig s)
     (rho s) (M s) (W_out s) (gamma s) (beta s) (u s) (r_T s).

Definition with_u (u' : R -> vec) (s : obj) : obj :=
  mk (N s) (d s) (seed s) (W_in_orig s) (sigma s) (W_in s) (p s) (M_orig s)
     (rho s) (M s) (W_out s) (gamma s) (beta s) (Some u') (r_T s).

Definition with_W_out (W : mat) (s : obj) : obj :=
  mk (N s) (d s) (seed s) (W_in_orig s) (sigma s) (W_in s) (p s) (M_orig s)
     (rho s) (M s) (Some W) (gamma s) (beta s) (u s) (r_T s).

Definition with_trained (W : mat) (r : vec) (s : obj) : obj :=
  mk (N s) (d s) (seed s) (W_in_orig s) (sigma s) (W_in s) (p s) (M_orig s)
     (rho s) (M s) (Some W) (gamma s) (beta s) (u s) (Some r).

(** The setter of the property [rho]. *)
Definition set_rho (rho' : R) (s : obj) : obj :=
  mk (N s) (d s) (seed s) (W_in_orig s) (sigma s) (W_in s) (p s) (M_orig s)
     rho' (scale rho' (M_orig s)) (W_out s) (gamma s) (beta s) (u s) (r_T s).

(** The setter of the property [sigma]. *)
Definition set_sigma (sigma' : R) (s : obj) : obj :=
  mk (N s) (d s) (seed s) (W_in_orig s) sigma' (scale sigma' (W_in_orig s))
     (p s) (M_orig s) (rho s) (M s) (W_out s) (gamma s) (beta s) (u s)
     (r_T s).

(** [adj_matrix]: the random matrix divided by the modulus of its
    dominant eigenvalue. *)
Definition adj_matrix (E : Env) (N : nat) (p : R) (seed : Z) : result mat :=
  let g := random_seed E seed in
  let M := sp_random E N N p g in
  lam <- eigs E M ;;
  let max_eval := Cmod lam in
  ret (scale (1 / max_eval) M).

(** [input_matrix]. *)
Definition input_matrix (E : Env) (N d : nat) (seed : Z) : result mat :=
  let g := random_seed E seed in
  let rows := seq 0 N in
  let (cols, g') := randint_rvs E 0 d N g in
  let (values, _) := uniform_rvs E (-1) 2 N g' in
  Coo.coo_matrix values rows cols.

(** [__init__]. *)
Definition init (E : Env) (N : nat) (p : R) (d : nat)
    (rho sigma gamma beta : R) (seed : Z) : result obj :=
  W <- input_matrix E N d seed ;;
  A <- adj_matrix E N p seed ;;
  ret (mk N d seed W sigma (scale sigma W) p A rho (scale rho A)
          None gamma beta None None).

(** [q]: the state followed by its elementwise square.  The source
    fills [np.zeros(2N)], which needs a state of [N] entries; the
    integrator returns such states. *)
Definition q (s : obj) (r : vec) : vec := r ++ map (fun x => x ^ 2) r.

(** [spline]. *)
Definition spline (E : Env) (s : obj) (data : mat) (t : list R) : R -> vec :=
  let coords := map (fun i => col i data) (seq 0 (d s)) in
  let k := splprep E coords t in
  fun t' => splev E t' k.

(** [self.u(t)]; every method stores an interpolant before it
    integrates the listening field. *)
Definition drive (s : obj) (t : R) : vec :=
  match u s with
  | Some f => f t
  | None => []
  end.

(** [self.W_out.dot(x)]; [predict] refuses an untrained model before it
    integrates the predicting field. *)
Definition readout (s : obj) (x : vec) : vec :=
  match W_out s with
  | Some W => mat_vec W x
  | None => []
  end.

(** The body shared by every [f_LR] and [f_PR] of the three classes:
    [gamma * (-r + tanh(M.dot(r) + W_in.dot(v) + b))]. *)
Definition field (s : obj) (b : vec -> vec) (v r : vec) : vec :=
  vscale (gamma s)
    (vadd (map Ropp r)
          (map tanh (b (vadd (mat_vec (M s) r) (mat_vec (W_in s) v))))).

Definition f_PR (s : obj) (r : vec) (_ : R) : vec :=
  field s (fun x => x) (readout s (q s r)) r.

Definition f_LR (s : obj) (r : vec) (t : R) : vec :=
  field s (fun x => x) (drive s t) r.

(** The two vector fields are looked up on the object, so a subclass
    that overrides them changes what [train] and [predict] integrate. *)
Record fields : Type := mk_fields {
  listening : obj -> vec -> R -> vec;
  predicting : obj -> vec -> R -> vec
}.

Definition own_fields : fields := mk_fields f_LR f_PR.

(** The assembly loop of [train]:
    [for i in range(t_listen, t.size - 1):
         X[:, i+1 - t_listen] = q(LR_traj[i+1])]. *)
Definition design_index (t_listen i : nat) : nat := (i + 1 - t_listen)%nat.

Definition design_matrix (s : obj) (LR_traj : list vec) (T t_listen : nat)
    : mat :=
  fold_left
    (fun X i =>
       set_col (design_index t_listen i) (q s (row LR_traj (i + 1))) X)
    (range t_listen (T - 1))
    (zeros2 (2 * N s) (T - t_listen)).

(** [np.transpose(data[t_listen:])]. *)
Definition target_matrix (data : mat) (t_listen : nat) : mat :=
  transpose (ncols data) (skipn t_listen data).

(** [np.matmul(X, X_T) + beta * np.identity(2N)]. *)
Definition ridge_matrix (s : obj) (X : mat) (T t_listen : nat) : mat :=
  madd (matmul (2 * N s) X (transpose (T - t_listen) X))
       (scale (beta s) (identity (2 * N s))).

(** [np.matmul(A, B)] for [A] with [k] columns and [B] of shape
    [(k', m)]. *)
Definition np_matmul (k k' m : nat) (A B : mat) : result mat :=
  if (k =? k')%nat then ret (matmul m A B) else raise ValueError.

(** [train].  The result pairs what the call returns (or raises) with the
    object as the call leaves it.  [LR_traj[-1]] is read after [W_out]
    is stored and raises on an empty trajectory. *)
Definition train (F : fields) (E : Env) (data : mat) (t : list R)
    (t_listen : nat) (self : obj) : result (list vec) * obj :=
  let s1 := match u self with
            | None => with_u (spline E self data t) self
            | Some _ => self
            end in
  let LR_traj := odeint E (listening F s1) (zeros (N s1)) t in
  let T := length t in
  if (T <? t_listen)%nat then (raise ValueError, s1) else
  let X := design_matrix s1 LR_traj T t_listen in
  let Y := target_matrix data t_listen in
  let X_T := transpose (T - t_listen) X in
  match np_matmul (length data - t_listen) (T - t_listen) (2 * N s1) Y X_T
  with
  | inl e => (inl e, s1)
  | inr M_1 =>
      match linalg_inv E (ridge_matrix s1 X T t_listen) with
      | inl e => (inl e, s1)
      | inr M_2 =>
          let W := matmul (2 * N s1) M_1 M_2 in
          match LR_traj with
          | [] => (raise IndexError, with_W_out W s1)
          | _ :: _ => (ret LR_traj, with_trained W (last LR_traj []) s1)
          end
      end
  end.

(** [predict]; [fresh] is [Some (data, t)] when new data is passed.
    With data, [LR_traj[-1]] is read before the predicting field is
    integrated and raises on an empty trajectory. *)
Definition predict (F : fields) (E : Env) (t_predict : list R)
    (fresh : option (mat * list R)) (self : obj) : result (list vec) * obj :=
  match fresh with
  | None =>
      match r_T self, W_out self with
      | Some r, Some _ =>
          let PR_traj := odeint E (predicting F self) r t_predict in
          (ret (map (fun x => readout self (q self x)) PR_traj), self)
      | _, _ => (raise TypeError, self)
      end
  | Some (data, t) =>
      let s1 := with_u (spline E self data t) self in
      let LR_traj := odeint E (listening F s1) (zeros (N s1)) t in
      match LR_traj with
      | [] => (raise IndexError, s1)
      | _ :: _ =>
          match W_out s1 with
          | Some _ =>
              let PR_traj :=
                odeint E (predicting F s1) (last LR_traj []) t_predict in
              (ret (map (fun x => readout s1 (q s1 x)) PR_traj), s1)
          | None => (raise TypeError, s1)
          end
      end
  end.

End ESN.

(* ================================================================== *)
(** * Loops *)

Module Loop.

(** [for i in l: s = body(i, s)], left as soon as a body raises. *)
Fixpoint for_each {S : Type} (body : nat -> S -> result S) (l : list nat)
    (s : S) : result S :=
  match l with
  | [] => ret s
  | i :: l' =>
      match body i s with
      | inl e => inl e
      | inr s' => for_each body l' s'
      end
  end.

(** [for e in range(epochs): for t in steps: s = body(t, s)]. *)
Definition epochs_of {S : Type} (body : nat -> S -> result S)
    (epochs : nat) (steps : list nat) (s : S) : result S :=
  for_each (fun _ s' => for_each body steps s') (seq 0 epochs) s.

(** The same two loops around a body that cannot raise. *)
Definition sweep {S : Type} (body : nat -> S -> S) (epochs : nat)
    (steps : list nat) (s : S) : S :=
  fold_left (fun s' _ => fold_left (fun s'' t => body t s'') steps s')
            (seq 0 epochs) s.

(** The two loops around a body whose arithmetic can leave the real
    numbers ([None]); nothing brings it back. *)
Fixpoint for_each_opt {S : Type} (body : nat -> S -> option S)
    (l : list nat) (s : S) : option S :=
  match l with
  | [] => Some s
  | i :: l' =>
      match body i s with
      | None => None
      | Some s' => for_each_opt body l' s'
      end
  end.

Definition epochs_opt {S : Type} (body : nat -> S -> option S)
    (epochs : nat) (steps : list nat) (s : S) : option S :=
  for_each_opt (fun _ s' => for_each_opt body steps s') (seq 0 epochs) s.

End Loop.

(* ================================================================== *)
(** * class AHESN(ESN) *)

Module AHESN.

Record obj : Type := mk {
  base : ESN.obj;
  eta : R;
  epochs : nat
}.

Definition with_base (b : ESN.obj) (self : obj) : obj :=
  mk b (eta self) (epochs self).

Definition init (E : Env) (N : nat) (p : R) (d : nat)
    (rho sigma gamma beta eta : R) (epochs : nat) (seed : Z) : result obj :=
  b <- ESN.init E N p d rho sigma gamma beta seed ;;
  ret (mk b eta epochs).

(** The overrides only turn the result into a flat array. *)
Definition f_PR (s : ESN.obj) (r : vec) (t : R) : vec :=
  ESN.field s (fun x => x) (ESN.readout s (ESN.q s r)) r.

Definition f_LR (s : ESN.obj) (r : vec) (t : R) : vec :=
  ESN.field s (fun x => x) (ESN.drive s t) r.

Definition own_fields : ESN.fields := ESN.mk_fields f_LR f_PR.

(** The array [X] of [hebb_learn] after
    [for i in range(N): X[i,:] = x[t+1,i] * x[t,:]]. *)
Definition hebb_X (N : nat) (x : list vec) (t : nat) : mat :=
  map (fun i => vscale (vget (row x (t + 1)) i) (row x t)) (seq 0 N).

(** What the three procedures do before their loops: the optional reset
    through the setter of [rho], the new interpolant, the listening
    trajectory. *)
Definition listen (F : ESN.fields) (E : Env) (data : mat) (t : list R)
    (reset : bool) (self : obj) : ESN.obj * list vec :=
  let b0 := base self in
  let b1 := if reset then ESN.set_rho (ESN.rho b0) b0 else b0 in
  let b2 := ESN.with_u (ESN.spline E b1 data t) b1 in
  (b2, odeint E (ESN.listening F b2) (zeros (ESN.N b2)) t).

(** [hebb_learn]. *)
Definition hebb_learn (F : ESN.fields) (E : Env) (data : mat) (t : list R)
    (t_listen : nat) (rescale : bool) (self : obj) : obj :=
  let (b2, x) := listen F E data t rescale self in
  let M :=
    Loop.sweep
      (fun t M => msub M (scale (eta self) (hebb_X (ESN.N b2) x t)))
      (epochs self) (range t_listen (length data - 1))
      (ESN.M_orig b2) in
  with_base (ESN.with_M (scale (ESN.rho b2) M) b2) self.

(** The working matrix of [hebb_learn_vector] together with the
    matrices handed to the eigensolver so far (the second component is
    bookkeeping of the model, not a value of the program). *)
Definition work : Type := (mat * list mat)%type.

(** [(self.rho / max_eval) * M] with [max_eval = np.abs(eigs(M, ...)[0])]. *)
Definition renormalize (E : Env) (rho : R) (w : work) : result work :=
  let (M, calls) := w in
  match eigs E M with
  | inl e => inl e
  | inr lam => ret (scale (rho / Cmod lam) M, calls ++ [M])
  end.

(** [M - self.eta * (np.asarray([x[t+1]]).T) @ np.asarray([x[t]])]. *)
Definition decay (eta : R) (x : list vec) (t : nat) (M : mat) : mat :=
  msub M (scale eta (outer (row x (t + 1)) (row x t))).

(** One pass through the body of the inner loop of [hebb_learn_vector]. *)
Definition vector_step (E : Env) (rho eta : R) (scale_M : nat)
    (x : list vec) (t : nat) (w : work) : result work :=
  let (M, calls) := w in
  let M' := decay eta x t M in
  if (scale_M =? 2)%nat then renormalize E rho (M', calls)
  else ret (M', calls).

(** [hebb_learn_vector].  The method returns [None]; the model returns
    the matrices it handed to the eigensolver, in call order. *)
Definition hebb_learn_vector (F : ESN.fields) (E : Env) (data : mat)
    (t : list R) (t_listen : nat) (reset_M : bool) (scale_M : nat)
    (self : obj) : result (list mat) * obj :=
  let (b2, x) := listen F E data t reset_M self in
  let looped :=
    Loop.epochs_of (vector_step E (ESN.rho b2) (eta self) scale_M x)
      (epochs self) (range t_listen (length data - 1))
      (ESN.M b2, []) in
  match looped with
  | inl e => (inl e, with_base b2 self)
  | inr (M, calls) =>
      if (scale_M =? 1)%nat then
        match renormalize E (ESN.rho b2) (M, calls) with
        | inl e => (inl e, with_base b2 self)
        | inr (M', calls') => (ret calls', with_base (ESN.with_M M' b2) self)
        end
      else (ret calls, with_base (ESN.with_M M b2) self)
  end.

(** One pass through the body of the inner loop of [norm_hebb_learn]. *)
Definition norm_step (N : nat) (eta : R) (x : list vec) (t : nat)
    (M : mat) : mat :=
  let M_hat := decay eta x t M in
  matmul N (diag (map (fun n => 1 / n) (col_norms N M_hat))) M_hat.

(** [norm_hebb_learn]. *)
Definition norm_hebb_learn (F : ESN.fields) (E : Env) (data : mat)
    (t : list R) (t_listen : nat) (reset_M : bool) (self : obj) : obj :=
  let (b2, x) := listen F E data t reset_M self in
  let M :=
    Loop.sweep (norm_step (ESN.N b2) (eta self) x)
      (epochs self) (range t_listen (length data - 1))
      (ESN.M_orig b2) in
  with_base (ESN.with_M (scale (ESN.rho b2) M) b2) self.

(** Inherited methods. *)
Definition train (E : Env) (data : mat) (t : list R) (t_listen : nat)
    (self : obj) : result (list vec) * obj :=
  let (r, b) := ESN.train own_fields E data t t_listen (base self) in
  (r, with_base b self).

Definition predict (E : Env) (t_predict : list R)
    (fresh : option (mat * list R)) (self : obj) : result (list vec) * obj :=
  let (r, b) := ESN.predict own_fields E t_predict fresh (base self) in
  (r, with_base b self).

End AHESN.

(* ================================================================== *)
(** * class IPESN(AHESN) *)

Module IPESN.

Record obj : Type := mk {
  base : AHESN.obj;
  nu : R;
  mu : R;
  sd : R;
  a : vec;
  b : vec
}.

Definition esn (self : obj) : ESN.obj := AHESN.base (base self).

Definition init (E : Env) (N : nat) (p : R) (d : nat)
    (rho sigma gamma beta nu mu sd eta : R) (epochs : nat) (seed : Z)
    : result obj :=
  h <- AHESN.init E N p d rho sigma gamma beta eta epochs seed ;;
  ret (mk h nu mu sd (repeat 1 N) (zeros N)).

(** The overrides add the bias [self.b] inside [tanh]. *)
Definition f_PR (self : obj) (s : ESN.obj) (r : vec) (t : R) : vec :=
  ESN.field s (fun x => vadd x (b self)) (ESN.readout s (ESN.q s r)) r.

Definition f_LR (self : obj) (s : ESN.obj) (r : vec) (t : R) : vec :=
  ESN.field s (fun x => vadd x (b self)) (ESN.drive s t) r.

Definition own_fields (self : obj) : ESN.fields :=
  ESN.mk_fields (f_LR self) (f_PR self).

(** [H], elementwise on a state. *)
Definition H (self : obj) (x : vec) : vec :=
  map (fun xi =>
         - mu self / sd self ^ 2
         + (xi / sd self ^ 2)
           * (2 * sd self ^ 2 + 1 - xi ^ 2 + mu self * xi))
      x.

(** The arithmetic of the body of the inner loop of [IP_train], on the
    pair [(a, b)], for a gain without zero entry. *)
Definition ip_update (self : obj) (x z : list vec) (t : nat)
    (ab : vec * vec) : vec * vec :=
  let (a, b) := ab in
  let delta_b := vscale (- nu self) (H self (row x t)) in
  let delta_a := vadd (map (fun ai => nu self / ai) a)
                      (mat_vec (diag delta_b) (row z t)) in
  (vadd a delta_a, vadd b delta_b).

(** The body of the inner loop of [IP_train].  At a zero entry of the
    gain NumPy's quotient [self.nu / self.a] is [inf], or [nan] when
    [nu] is zero too, and [self.a += delta_a] stores it: the gain is
    no longer an array of real numbers ([None]). *)
Definition ip_step (self : obj) (x z : list vec) (t : nat)
    (ab : vec * vec) : option (vec * vec) :=
  if has_zero (fst ab) then None else Some (ip_update self x z t ab).

(** What [IP_train] does before its loops: the optional reset through
    the two setters, the new interpolant, the listening trajectory. *)
Definition listen (E : Env) (data : mat) (t_points : list R)
    (rescale : bool) (self : obj) : ESN.obj * list vec :=
  let e0 := esn self in
  let e1 := if rescale
            then ESN.set_sigma (ESN.sigma e0) (ESN.set_rho (ESN.rho e0) e0)
            else e0 in
  let e2 := ESN.with_u (ESN.spline E e1 data t_points) e1 in
  (e2, odeint E (f_LR self e2) (zeros (ESN.N e2)) t_points).

(** [IP_train], on an object whose matrices are still sparse (the
    call ends with [todense()], which the dense matrices it leaves do
    not have).  The result is the object the call leaves, or [None]
    when the gain left the real numbers on the way. *)
Definition IP_train (E : Env) (data : mat) (t_points : list R)
    (epochs : nat) (rescale : bool) (self : obj) : option obj :=
  let (e2, x) := listen E data t_points rescale self in
  let z := map (fun t => vadd (mat_vec (ESN.M e2) (row x t))
                              (mat_vec (ESN.W_in e2)
                                       (ESN.drive e2 (nth t t_points 0))))
               (seq 0 (length t_points)) in
  match Loop.epochs_opt (ip_step self x z) epochs (range 0 (length t_points))
          (a self, b self)
  with
  | None => None
  | Some (a', b') =>
      let M' := scale (ESN.rho e2) (matmul (ESN.N e2) (diag a') (ESN.M e2)) in
      let W' := scale (ESN.sigma e2)
                  (matmul (ncols (ESN.W_in e2)) (diag a') (ESN.W_in e2)) in
      Some (mk (AHESN.with_base (ESN.with_W_in W' (ESN.with_M M' e2))
                  (base self))
               (nu self) (mu self) (sd self) a' b')
  end.

(** Inherited methods: the adaptation procedures of [AHESN] run with the
    fields of this class. *)
Definition with_base (h : AHESN.obj) (self : obj) : obj :=
  mk h (nu self) (mu self) (sd self) (a self) (b self).

Definition hebb_learn (E : Env) (data : mat) (t : list R) (t_listen : nat)
    (rescale : bool) (self : obj) : obj :=
  with_base
    (AHESN.hebb_learn (own_fields self) E data t t_listen rescale (base self))
    self.

End IPESN.

(* ================================================================== *)
(** * Vocabulary of the statements

    Readings of the code that the theorems compare it with. *)

Module Reading.

(** The body of [hebb_learn_vector] with [scale_M == 2] when the
    eigensolver answers [ev A] on [A]: the decayed matrix goes to the
    eigensolver and is renormalized. *)
Definition rescaled_step (ev : mat -> C) (rho eta : R) (x : list vec)
    (t : nat) (w : AHESN.work) : AHESN.work :=
  let M' := AHESN.decay eta x t (fst w) in
  (scale (rho / Cmod (ev M')) M', snd w ++ [M']).

(** The normalization the specification describes for
    [norm_hebb_learn]: every column of [A] divided by its own norm. *)
Definition column_normalized (m : nat) (A : mat) : mat :=
  map (fun r => vzip (fun a n => a * (1 / n)) r (col_norms m A)) A.

(** What the integrator promises for a trajectory [x] over a grid of
    [T] points from a state of dimension [N]. *)
Definition trajectory_ok (N T : nat) (x : list vec) : Prop :=
  length x = T /\ Forall (fun r => length r = N) x.

End Reading.

(* ================================================================== *)
(** * A small environment to run the model in

    Simple stand-ins for the external libraries: explicit Euler steps
    for the integrator, the step interpolant through the samples for the
    spline, the trace for the dominant eigenvalue (exact on a matrix of
    rank one), the reciprocal diagonal for the inverse (exact on a
    diagonal matrix), and a random source that replays the draws it is
    given.  The models have three units: [eigs(M, 1)] needs more than
    two. *)

Module Demo.

Fixpoint euler_from (f : vec -> R -> vec) (r : vec) (t : R) (ts : list R)
    : list vec :=
  match ts with
  | [] => []
  | t' :: ts' =>
      let r' := vadd r (vscale (t' - t) (f r t)) in
      r' :: euler_from f r' t' ts'
  end.

Definition euler (f : vec -> R -> vec) (r0 : vec) (ts : list R) : list vec :=
  match ts with
  | [] => []
  | t0 :: ts' => r0 :: euler_from f r0 t0 ts'
  end.

Fixpoint step_interp (ts : list R) (ys : vec) (t : R) : R :=
  match ts, ys with
  | t0 :: ts', y0 :: ys' =>
      match ts' with
      | [] => y0
      | _ :: _ => if Rle_dec t t0 then y0 else step_interp ts' ys' t
      end
  | _, _ => 0
  end.

Definition knots : Type := (list vec * list R)%type.

Definition step_splev (t : R) (k : knots) : vec :=
  map (fun ys => step_interp (snd k) ys t) (fst k).

Definition diagonal (A : mat) : vec :=
  map (fun i => vget (row A i) i) (seq 0 (length A)).

Definition trace (A : mat) : R := fold_right Rplus 0 (diagonal A).

Definition trace_eig (A : mat) : result C := ret (RtoC (trace A)).

Definition is_zero (a : R) : bool := if Req_EM_T a 0 then true else false.

Definition diag_inv (A : mat) : result mat :=
  if existsb is_zero (diagonal A) then raise LinAlgError
  else ret (diag (map (fun a => 1 / a) (diagonal A))).

Definition env (cols : list nat) (values : list R) (raw : mat) : Env :=
  mkEnv unit (fun _ => tt)
        (fun _ _ _ g => (cols, g))
        (fun _ _ _ g => (values, g))
        (fun _ _ _ _ => raw)
        trace_eig diag_inv
        knots (fun coords t => (coords, t)) step_splev
        euler.

(** A raw adjacency with the single entry 1, and one of rank one and
    trace one whose columns have the norms 1/2, 1 and 1. *)
Definition raw3 : mat := [[1; 0; 0]; [0; 0; 0]; [0; 0; 0]].

Definition raw3b : mat :=
  [[4 / 10; 8 / 10; 8 / 10]; [3 / 10; 6 / 10; 6 / 10]; [0; 0; 0]].

(** Every unit draws input channel 0 and the weight 1/2. *)
Definition E3 : Env := env [0; 0; 0]%nat [1 / 2; 1 / 2; 1 / 2] raw3.
Definition E3b : Env := env [0; 0; 0]%nat [1 / 2; 1 / 2; 1 / 2] raw3b.

(** The object a constructor builds, for a configuration it accepts. *)
Definition blank : ESN.obj :=
  ESN.mk 0 0 0 [] 0 [] 0 [] 0 [] None 0 0 None None.

Definition esn_of (E : Env) (N : nat) (p : R) (d : nat)
    (rho sigma gamma beta : R) (seed : Z) : ESN.obj :=
  match ESN.init E N p d rho sigma gamma beta seed with
  | inr s => s
  | inl _ => blank
  end.

Definition ahesn_of (E : Env) (N : nat) (p : R) (d : nat)
    (rho sigma gamma beta eta : R) (epochs : nat) (seed : Z) : AHESN.obj :=
  match AHESN.init E N p d rho sigma gamma beta eta epochs seed with
  | inr s => s
  | inl _ => AHESN.mk blank 0 0
  end.

Definition ipesn_of (E : Env) (N : nat) (p : R) (d : nat)
    (rho sigma gamma beta nu mu sd eta : R) (epochs : nat) (seed : Z)
    : IPESN.obj :=
  match IPESN.init E N p d rho sigma gamma beta nu mu sd eta epochs seed with
  | inr s => s
  | inl _ => IPESN.mk (AHESN.mk blank 0 0) 0 0 0 [] []
  end.

(** [ESN(3, 1/9, 1, 9/10, 1, 1, 1)] in [E3]. *)
Definition s3 : ESN.obj := esn_of E3 3 (1 / 9) 1 (9 / 10) 1 1 1 1.

(** [AHESN(3, 1/9, 1, rho, 1, 1, 1, eta, epochs)] in [E3]. *)
Definition h3 (rho eta : R) (epochs : nat) : AHESN.obj :=
  ahesn_of E3 3 (1 / 9) 1 rho 1 1 1 eta epochs 1.

(** [AHESN(3, 2/3, 1, 1, 1, 1, 1, 0, 1)] in [E3b]: learning rate 0, one
    epoch, [rho = 1]. *)
Definition h3b : AHESN.obj := ahesn_of E3b 3 (2 / 3) 1 1 1 1 1 0 1 1.

(** [IPESN(3, 1/9, 1, 9/10, 1, 1, 1, nu, 0, 1)] in [E3]. *)
Definition ip3 (nu : R) : IPESN.obj :=
  ipesn_of E3 3 (1 / 9) 1 (9 / 10) 1 1 1 nu 0 1 0 0 1.

(** Samples of a scalar signal. *)
Definition data2 : mat := [[1]; [2]].
Definition t2 : list R := [0; 1].
Definition data5 : mat := [[5]; [7]].
Definition data3 : mat := [[1]; [2]; [3]].
Definition t3 : list R := [0; 1; 2].

(** The object and the listening trajectory inside
    [train(data2, t2, t_listen)] on [s3]. *)
Definition s3_listening : ESN.obj :=
  ESN.with_u (ESN.spline E3 s3 data2 t2) s3.

Definition traj2 : list vec :=
  odeint E3 (ESN.f_LR s3_listening) (zeros 3) t2.

(** The object [train(data2, t2, 0)] leaves of [s3]. *)
Definition s3_after : ESN.obj :=
  snd (ESN.train ESN.own_fields E3 data2 t2 0 s3).

(** The listening trajectory inside [norm_hebb_learn(data2, t2, 0)] on
    [h3b], and [h3b] after that call. *)
Definition x2 : list vec :=
  snd (AHESN.listen AHESN.own_fields E3b data2 t2 true h3b).

Definition h3b_adapted : AHESN.obj :=
  AHESN.norm_hebb_learn AHESN.own_fields E3b data2 t2 0 true h3b.

(** The eigensolver of the environment as a function. *)
Definition ev (A : mat) : C := RtoC (trace A).

End Demo.

(* ================================================================== *)
(** * Tactics *)

(** Equality of two explicit arrays, entry by entry. *)
Ltac entrywise :=
  repeat (apply (f_equal2 (@cons _))); try reflexivity.
From Stdlib Require Import FunctionalExtensionality.


(* ================================================================== *)
(** * What a method leaves of an object *)

Module Keep.

(** The configuration and the raw matrices of [s'] are those of [s]. *)
Definition config (s s' : ESN.obj) : Prop :=
  ESN.N s' = ESN.N s /\ ESN.d s' = ESN.d s /\ ESN.seed s' = ESN.seed s /\
  ESN.p s' = ESN.p s /\ ESN.gamma s' = ESN.gamma s /\
  ESN.beta s' = ESN.beta s /\ ESN.rho s' = ESN.rho s /\
  ESN.sigma s' = ESN.sigma s /\
  ESN.W_in_orig s' = ESN.W_in_orig s /\ ESN.M_orig s' = ESN.M_orig s.

(** The scaled matrices of [s'] are those of [s]. *)
Definition matrices (s s' : ESN.obj) : Prop :=
  ESN.M s' = ESN.M s /\ ESN.W_in s' = ESN.W_in s.

(** The readout weights and the stored state of [s'] are those of
    [s]. *)
Definition trained (s s' : ESN.obj) : Prop :=
  ESN.W_out s' = ESN.W_out s /\ ESN.r_T s' = ESN.r_T s.

(** What an adaptation procedure called with [data] and [t] leaves of
    [s]: the configuration, the readout weights and the stored state,
    the interpolant of [data] over [t], and raw matrices from which
    the setter of [rho] rebuilds [rho * M_orig]. *)
Definition adapted (E : Env) (data : mat) (t : list R) (s s' : ESN.obj)
    : Prop :=
  config s s' /\ trained s s' /\
  ESN.u s' = Some (ESN.spline E s data t) /\
  ESN.M (ESN.set_rho (ESN.rho s') s') = scale (ESN.rho s) (ESN.M_orig s).

End Keep.

(* ================================================================== *)
(** * Environments whose eigensolver gives up *)

Module Stall.

(** An eigensolver that never converges. *)
Definition never (A : mat) : result C := raise ArpackNoConvergence.

(** The trace again, but without an answer on a matrix of trace
    zero. *)
Definition trace_or_stall (A : mat) : result C :=
  if Req_EM_T (Demo.trace A) 0 then raise ArpackNoConvergence
  else ret (RtoC (Demo.trace A)).

Definition env (eig : mat -> result C) : Env :=
  mkEnv unit (fun _ => tt)
        (fun _ _ _ g => ([0; 0; 0]%nat, g))
        (fun _ _ _ g => ([1 / 2; 1 / 2; 1 / 2], g))
        (fun _ _ _ _ => Demo.raw3)
        eig Demo.diag_inv
        Demo.knots (fun coords t => (coords, t)) Demo.step_splev
        Demo.euler.

Definition E_never : Env := env never.
Definition E_stall : Env := env trace_or_stall.

(** [AHESN(3, 1/9, 1, 0, 1, 1, 1, 0, 1)] in [E_stall]: [rho = 0], so
    the reservoir matrix is zero. *)
Definition h0 : AHESN.obj :=
  Demo.ahesn_of E_stall 3 (1 / 9) 1 0 1 1 1 0 1 1.

End Stall.

(* ================================================================== *)
(** * Entries and sums over the loop steps *)

Module Sums.

(** [A[i, j]]. *)
Definition entry (A : mat) (i j : nat) : R := vget (row A i) j.

(** The sum of [f t] over the steps [t] of a loop. *)
Definition total (f : nat -> R) (steps : list nat) : R :=
  fold_right Rplus 0 (map f steps).

(** The sum of [x[t+1, i] * x[t, j]] over the steps. *)
Definition lag_sum (x : list vec) (steps : list nat) (i j : nat) : R :=
  total (fun t => vget (row x (t + 1)) i * vget (row x t) j) steps.

End Sums.

(* ================================================================== *)
(** * [ReservoirPlot.py]: the error curve

    [plot_short_pred] and [plot_pred] compute, before they draw,
    [errors = [np.linalg.norm(u[i] - v[i]) for i in range(iters)]]
    from two arrays of rows. *)

Module ReservoirPlot.

(** [u[i]] for an index [i >= 0]. *)
Definition index (u : mat) (i : nat) : result vec :=
  match nth_error u i with
  | Some r => ret r
  | None => raise IndexError
  end.

(** [a - b] for two flat arrays: NumPy stretches an array of one entry
    to the length of the other and refuses other unequal lengths. *)
Definition subtract (a b : vec) : result vec :=
  if (length a =? length b)%nat then ret (vsub a b)
  else if (length a =? 1)%nat then ret (map (fun y => vget a 0 - y) b)
  else if (length b =? 1)%nat then ret (map (fun x => x - vget b 0) a)
  else raise ValueError.

(** [np.linalg.norm(u[i] - v[i])]. *)
Definition error_at (u v : mat) (i : nat) : result R :=
  a <- index u i ;;
  b <- index v i ;;
  dlt <- subtract a b ;;
  ret (norm2 dlt).

(** [[f(i) for i in l]]: the first element that raises ends the
    comprehension. *)
Fixpoint comprehension {A : Type} (f : nat -> result A) (l : list nat)
    : result (list A) :=
  match l with
  | [] => ret []
  | i :: l' =>
      y <- f i ;;
      ys <- comprehension f l' ;;
      ret (y :: ys)
  end.

(** The list [errors]; [range(iters)] is empty for [iters <= 0]. *)
Definition errors (u v : mat) (iters : Z) : result (list R) :=
  comprehension (error_at u v) (range 0 (Z.to_nat iters)).

End ReservoirPlot.

(* ================================================================== *)
(** * Further models and stand-ins *)

Module Ridge.

(** Another stand-in for [np.linalg.inv]: the inverse of the identity
    plus a matrix [D] of rank one, [I - D / (1 + trace D)].  It is exact
    on such matrices. *)
Definition rank_one_inv (A : mat) : result mat :=
  let n := length A in
  let D := msub A (identity n) in
  if Req_EM_T (1 + Demo.trace D) 0 then raise LinAlgError
  else ret (msub (identity n) (scale (1 / (1 + Demo.trace D)) D)).

(** The environment [E3] with that inverse. *)
Definition E3r : Env :=
  mkEnv unit (fun _ => tt)
        (fun _ _ _ g => ([0; 0; 0]%nat, g))
        (fun _ _ _ g => ([1 / 2; 1 / 2; 1 / 2], g))
        (fun _ _ _ _ => Demo.raw3)
        Demo.trace_eig rank_one_inv
        Demo.knots (fun coords t => (coords, t)) Demo.step_splev
        Demo.euler.

(** [ESN(3, 1/9, 1, 9/10, 1, 1, 1)] in [E3r], and the same model with
    [beta = 0] in [E3]. *)
Definition s3r : ESN.obj := Demo.esn_of E3r 3 (1 / 9) 1 (9 / 10) 1 1 1 1.
Definition s3_beta0 : ESN.obj :=
  Demo.esn_of Demo.E3 3 (1 / 9) 1 (9 / 10) 1 1 0 1.

(** The listening trajectory inside [train(data2, t2, t_listen)] on
    [s3r], and its state at the second grid point. *)
Definition traj2r : list vec :=
  odeint E3r
    (ESN.f_LR (ESN.with_u (ESN.spline E3r s3r Demo.data2 Demo.t2) s3r))
    (zeros 3) Demo.t2.

End Ridge.

Module ZeroGain.

(** The three-unit intrinsic-plasticity model with [nu = 0] after the
    assignment [a = np.array([0., 1., 1.])]. *)
Definition ip0 : IPESN.obj :=
  IPESN.mk (IPESN.base (Demo.ip3 0)) 0 0 1 [0; 1; 1] (zeros 3).

End ZeroGain.

(* ================================================================== *)
(** * Facts about complex numbers and eigenvalues *)

Module SpectrumFacts.

Lemma C_eq (z w : C) : fst z = fst w -> snd z = snd w -> z = w.
Proof. destruct z, w; simpl; intros; subst; reflexivity. Qed.

Lemma Cmod_nonneg (z : C) : 0 <= Cmod z.
Proof. apply sqrt_pos. Qed.

Lemma Cmod_RtoC (x : R) : Cmod (RtoC x) = Rabs x.
Proof.
  unfold Cmod, RtoC; simpl.
  replace (x * x + 0 * 0) with (Rsqr x) by (unfold Rsqr; ring).
  apply sqrt_Rsqr_abs.
Qed.

Lemma Cmod_Cscale (c : R) (z : C) : Cmod (Cscale c z) = Rabs c * Cmod z.
Proof.
  unfold Cmod, Cscale; simpl.
  replace (c * fst z * (c * fst z) + c * snd z * (c * snd z))
    with (Rsqr c * (fst z * fst z + snd z * snd z)) by (unfold Rsqr; ring).
  rewrite sqrt_mult_alt by apply Rle_0_sqr.
  now rewrite sqrt_Rsqr_abs.
Qed.

Lemma Cmul_Cscale (c : R) (lam z : C) :
  Cmul (Cscale c lam) z = Cscale c (Cmul lam z).
Proof. apply C_eq; simpl; ring. Qed.

Lemma Cscale_Cscale (c c' : R) (z : C) :
  Cscale c (Cscale c' z) = Cscale (c * c') z.
Proof. apply C_eq; simpl; ring. Qed.

Lemma Cscale_1 (z : C) : Cscale 1 z = z.
Proof. apply C_eq; simpl; ring. Qed.

Lemma Cscale_Cadd (c : R) (z w : C) :
  Cscale c (Cadd z w) = Cadd (Cscale c z) (Cscale c w).
Proof. apply C_eq; simpl; ring. Qed.

(** A complex number that fixes a non-zero one up to a real factor is
    that factor. *)
Lemma Cmul_cancel (lam z : C) (c : R) :
  z <> C0 -> Cmul lam z = Cscale c z -> lam = RtoC c.
Proof.
  destruct lam as [l1 l2], z as [z1 z2]; unfold Cmul, Cscale, RtoC, C0; simpl.
  intros Hz H; injection H as H1 H2.
  assert (Hn : z1 * z1 + z2 * z2 <> 0).
  { intro H0. apply Hz. f_equal; nra. }
  assert (K1 : l1 * z1 - l2 * z2 - c * z1 = 0) by lra.
  assert (K2 : l1 * z2 + l2 * z1 - c * z2 = 0) by lra.
  assert (Ha : (l1 - c) * (z1 * z1 + z2 * z2) = 0).
  { replace ((l1 - c) * (z1 * z1 + z2 * z2))
      with (z1 * (l1 * z1 - l2 * z2 - c * z1)
            + z2 * (l1 * z2 + l2 * z1 - c * z2)) by ring.
    rewrite K1, K2; ring. }
  assert (Hb : l2 * (z1 * z1 + z2 * z2) = 0).
  { replace (l2 * (z1 * z1 + z2 * z2))
      with (z1 * (l1 * z2 + l2 * z1 - c * z2)
            - z2 * (l1 * z1 - l2 * z2 - c * z1)) by ring.
    rewrite K1, K2; ring. }
  apply Rmult_integral in Ha, Hb.
  destruct Ha as [Ha | Ha]; [| contradiction].
  destruct Hb as [Hb | Hb]; [| contradiction].
  f_equal; lra.
Qed.

Lemma cdot_vscale (c : R) (r : vec) (v : cvec) :
  cdot (vscale c r) v = Cscale c (cdot r v).
Proof.
  revert v; induction r as [| x r IH]; intros [| z v]; simpl;
    try (apply C_eq; simpl; ring).
  rewrite IH, Cscale_Cadd, Cscale_Cscale. reflexivity.
Qed.

Lemma mat_cvec_scale (c : R) (A : mat) (v : cvec) :
  mat_cvec (scale c A) v = map (Cscale c) (mat_cvec A v).
Proof.
  unfold mat_cvec, scale. rewrite !map_map.
  apply map_ext; intro r. apply cdot_vscale.
Qed.

Lemma length_scale (c : R) (A : mat) : length (scale c A) = length A.
Proof. apply length_map. Qed.

(** Scaling a matrix scales its eigenvalues. *)
Lemma eigenvalue_scale (c : R) (A : mat) (lam : C) :
  eigenvalue A lam -> eigenvalue (scale c A) (Cscale c lam).
Proof.
  intros [v (Hl & Hn & Hv)]. exists v. repeat split; trivial.
  - now rewrite length_scale.
  - rewrite mat_cvec_scale, Hv, map_map.
    apply map_ext; intro z. symmetry; apply Cmul_Cscale.
Qed.

Lemma scale_scale (c c' : R) (A : mat) :
  scale c (scale c' A) = scale (c * c') A.
Proof.
  unfold scale, vscale. rewrite map_map.
  apply map_ext; intro r. rewrite map_map.
  apply map_ext; intro x. ring.
Qed.

Lemma scale_1 (A : mat) : scale 1 A = A.
Proof.
  unfold scale, vscale. rewrite <- (map_id A) at 2.
  apply map_ext; intro r. rewrite <- (map_id r) at 2.
  apply map_ext; intro x. ring.
Qed.

(** The only eigenvalue of a zero multiple is zero. *)
Lemma eigenvalue_scale_0 (A : mat) (mu : C) :
  eigenvalue (scale 0 A) mu -> mu = C0.
Proof.
  intros [v (Hl & (z & Hin & Hz) & Hv)].
  rewrite mat_cvec_scale in Hv.
  rewrite length_scale in Hl.
  assert (Hlen : length (mat_cvec A v) = length v)
    by (unfold mat_cvec; now rewrite length_map).
  revert Hv Hlen Hin. generalize (mat_cvec A v) as w.
  clear Hl. induction v as [| y v IH]; intros [| x w] Hv Hlen Hin;
    simpl in *; try easy.
  assert (Hy := f_equal (@hd C C0) Hv).
  assert (Ht := f_equal (@tl C) Hv). simpl in Hy, Ht.
  destruct Hin as [-> | Hin].
  - apply (Cmul_cancel mu z 0 Hz).
    rewrite <- Hy. apply C_eq; simpl; ring.
  - apply (IH w); auto.
Qed.

(** The spectral radius is absolutely homogeneous. *)
Lemma spectral_radius_scale (c : R) (A : mat) (r : R) :
  spectral_radius A r -> spectral_radius (scale c A) (Rabs c * r).
Proof.
  intros [(lam & Hlam & Hr) Hmax]. split.
  - exists (Cscale c lam). split.
    + now apply eigenvalue_scale.
    + now rewrite Cmod_Cscale, Hr.
  - intros mu Hmu.
    destruct (Req_dec c 0) as [-> | Hc].
    + rewrite (eigenvalue_scale_0 A mu Hmu), Rabs_R0, Rmult_0_l.
      unfold Cmod, C0; simpl.
      replace (0 * 0 + 0 * 0) with 0 by ring. rewrite sqrt_0. lra.
    + apply (eigenvalue_scale (/ c)) in Hmu.
      rewrite scale_scale, Rinv_l, scale_1 in Hmu by assumption.
      apply Hmax in Hmu. rewrite Cmod_Cscale in Hmu.
      rewrite Rabs_inv in Hmu.
      assert (Hpos : 0 < Rabs c) by now apply Rabs_pos_lt.
      apply (Rmult_le_compat_l (Rabs c)) in Hmu; [| lra].
      rewrite <- Rmult_assoc, Rinv_r, Rmult_1_l in Hmu by lra.
      exact Hmu.
Qed.

Lemma spectral_radius_nonneg (A : mat) (r : R) :
  spectral_radius A r -> 0 <= r.
Proof. intros [(lam & _ & <-) _]. apply Cmod_nonneg. Qed.

Lemma dominant_spectral_radius (A : mat) (lam : C) :
  dominant A lam -> spectral_radius A (Cmod lam).
Proof. intros [H1 H2]. split; [exists lam; auto | exact H2]. Qed.

(** The eigenvalue of a 1x1 matrix is its entry. *)
Lemma eigenvalue_1x1 (c : R) (lam : C) :
  eigenvalue [[c]] lam <-> lam = RtoC c.
Proof.
  split.
  - intros [v (Hl & (z & Hin & Hz) & Hv)].
    destruct v as [| y [| y' v]]; simpl in Hl; try discriminate.
    destruct Hin as [-> | []].
    assert (Hy := f_equal (@hd C C0) Hv). simpl in Hy.
    apply (Cmul_cancel lam z c Hz). rewrite <- Hy.
    apply C_eq; simpl; ring.
  - intros ->. exists [(1, 0)]. repeat split.
    + exists (1, 0). split; [now left |].
      unfold C0; intro H; injection H as H; lra.
    + simpl. f_equal. apply C_eq; simpl; ring.
Qed.

Lemma dominant_1x1 (c : R) : dominant [[c]] (RtoC c).
Proof.
  split.
  - now apply eigenvalue_1x1.
  - intros mu Hmu. apply eigenvalue_1x1 in Hmu. subst. lra.
Qed.

End SpectrumFacts.

(* ================================================================== *)
(** * Facts about arrays *)

Module NpFacts.

Lemma length_set_nth (j : nat) (x : R) (v : vec) :
  length (set_nth j x v) = length v.
Proof.
  revert j; induction v as [| y v IH]; intros [| j]; simpl; auto.
Qed.

Lemma vget_set_nth_eq (j : nat) (x : R) (v : vec) :
  (j < length v)%nat -> vget (set_nth j x v) j = x.
Proof.
  unfold vget. revert j; induction v as [| y v IH]; intros [| j]; simpl;
    intros H; try lia; auto. apply IH; lia.
Qed.

Lemma vget_set_nth_neq (j j' : nat) (x : R) (v : vec) :
  j <> j' -> vget (set_nth j x v) j' = vget v j'.
Proof.
  unfold vget. revert j j'; induction v as [| y v IH];
    intros [| j] [| j']; simpl; intros H; try lia; auto.
Qed.

Lemma shaped_set_col (n m j : nat) (v : vec) (A : mat) :
  shaped n m A -> shaped n m (set_col j v A).
Proof.
  intros [Hn Hm]. subst n. revert v Hm.
  induction A as [| r A IH]; intros [| x v] Hm; simpl;
    try (split; [reflexivity | assumption]).
  inversion Hm as [| ? ? Hr HA]; subst.
  destruct (IH v HA) as [Hl HF]. split.
  - simpl. now rewrite Hl.
  - constructor; [now rewrite length_set_nth | exact HF].
Qed.

Lemma col_set_col_eq (n m j : nat) (v : vec) (A : mat) :
  shaped n m A -> length v = n -> (j < m)%nat ->
  col j (set_col j v A) = v.
Proof.
  intros [Hn Hm] Hv Hj. subst n. revert v Hv Hm.
  induction A as [| r A IH]; intros [| x v] Hv Hm; simpl in *;
    try discriminate; auto.
  inversion Hm as [| ? ? Hr HA]; subst.
  f_equal.
  - apply vget_set_nth_eq. lia.
  - apply IH; auto.
Qed.

Lemma col_set_col_neq (j j' : nat) (v : vec) (A : mat) :
  j <> j' -> col j' (set_col j v A) = col j' A.
Proof.
  intros Hj. revert v.
  induction A as [| r A IH]; intros [| x v]; simpl; auto.
  f_equal; [now apply vget_set_nth_neq | apply IH].
Qed.

Lemma vget_zeros (m j : nat) : vget (zeros m) j = 0.
Proof.
  unfold vget, zeros. apply nth_repeat.
Qed.

Lemma col_zeros2 (n m j : nat) : col j (zeros2 n m) = zeros n.
Proof.
  unfold col, zeros2. rewrite map_repeat, vget_zeros. reflexivity.
Qed.

Lemma shaped_zeros2 (n m : nat) : shaped n m (zeros2 n m).
Proof.
  unfold zeros2, zeros. split.
  - apply repeat_length.
  - apply Forall_forall. intros r Hr.
    apply repeat_spec in Hr. subst. apply repeat_length.
Qed.

(** A loop of column assignments: columns that are not assigned keep
    their content, an assigned column holds what was assigned, provided
    no column is assigned twice. *)
Section ColumnLoop.

Variables (n m : nat) (idx : nat -> nat) (val : nat -> vec).

Local Abbreviation assign :=
  (fun (X : mat) (i : nat) => set_col (idx i) (val i) X).

Lemma shaped_assign_all (l : list nat) (X : mat) :
  shaped n m X -> shaped n m (fold_left assign l X).
Proof.
  revert X; induction l as [| i l IH]; intros X HX; simpl; auto.
  apply IH. now apply shaped_set_col.
Qed.

Lemma col_untouched (l : list nat) (X : mat) (j : nat) :
  ~ In j (map idx l) -> col j (fold_left assign l X) = col j X.
Proof.
  revert X; induction l as [| i l IH]; intros X Hj; simpl in *; auto.
  rewrite IH by tauto. apply col_set_col_neq. tauto.
Qed.

Lemma col_assigned (l : list nat) (X : mat) (i : nat) :
  shaped n m X ->
  (forall k, In k l -> length (val k) = n /\ (idx k < m)%nat) ->
  NoDup (map idx l) -> In i l ->
  col (idx i) (fold_left assign l X) = val i.
Proof.
  revert X; induction l as [| k l IH]; intros X HX Hval Hnd Hi; simpl in *.
  - contradiction.
  - inversion Hnd as [| ? ? Hnotin Hnd']; subst.
    destruct Hi as [-> | Hi].
    + rewrite col_untouched by assumption.
      destruct (Hval i (or_introl eq_refl)) as [Hlen Hlt].
      now apply (col_set_col_eq n m).
    + apply IH; auto. now apply shaped_set_col.
Qed.

End ColumnLoop.

Lemma map_vget_seq (r : vec) :
  map (fun c => vget r c) (seq 0 (length r)) = r.
Proof.
  unfold vget. apply (nth_ext _ _ 0 0).
  - now rewrite length_map, length_seq.
  - intros k Hk. rewrite length_map, length_seq in Hk.
    rewrite (nth_indep _ 0 (nth 0 r 0)) by now rewrite length_map, length_seq.
    rewrite (map_nth (fun c => nth c r 0)).
    now rewrite seq_nth.
Qed.

Lemma vget_col (c j : nat) (A : mat) : vget (col c A) j = vget (row A j) c.
Proof.
  unfold col, vget, row.
  revert j; induction A as [| r A IH]; intros [| j]; simpl; auto;
    now destruct c.
Qed.

(** Column [j] of the transpose is row [j]. *)
Lemma col_transpose (m j : nat) (A : mat) :
  length (row A j) = m -> col j (transpose m A) = row A j.
Proof.
  intros Hm. unfold transpose, col at 1. rewrite map_map.
  transitivity (map (fun c => vget (row A j) c) (seq 0 m)).
  - apply map_ext. intros c. apply vget_col.
  - rewrite <- Hm. apply map_vget_seq.
Qed.

Lemma row_skipn (k j : nat) (A : mat) : row (skipn k A) j = row A (k + j).
Proof. apply nth_skipn. Qed.

End NpFacts.

(* ================================================================== *)
(** * Facts about the assembly loop of [train] *)

Module TrainFacts.

Import NpFacts.

Lemma length_q (s : ESN.obj) (r : vec) :
  length (ESN.q s r) = (2 * length r)%nat.
Proof. unfold ESN.q. rewrite length_app, length_map. lia. Qed.

Lemma design_indices_from (t_listen k c : nat) :
  map (ESN.design_index t_listen) (seq (t_listen + c) k) = seq (S c) k.
Proof.
  revert c; induction k as [| k IH]; intro c; simpl; auto.
  f_equal.
  - unfold ESN.design_index. lia.
  - replace (S (t_listen + c)) with (t_listen + S c)%nat by lia. apply IH.
Qed.

(** The loop assigns columns [1 .. T-1-t_listen], each once. *)
Lemma design_indices (T t_listen : nat) :
  map (ESN.design_index t_listen) (range t_listen (T - 1))
  = seq 1 (T - 1 - t_listen).
Proof.
  unfold range.
  replace t_listen with (t_listen + 0)%nat at 2 by lia.
  apply design_indices_from.
Qed.

Lemma design_shaped (s : ESN.obj) (traj : list vec) (T t_listen : nat) :
  shaped (2 * ESN.N s) (T - t_listen) (ESN.design_matrix s traj T t_listen).
Proof.
  unfold ESN.design_matrix.
  apply (shaped_assign_all _ _ (ESN.design_index t_listen)
           (fun i => ESN.q s (row traj (i + 1)))).
  apply shaped_zeros2.
Qed.

Lemma design_col_0 (s : ESN.obj) (traj : list vec) (T t_listen : nat) :
  col 0 (ESN.design_matrix s traj T t_listen) = zeros (2 * ESN.N s).
Proof.
  unfold ESN.design_matrix.
  rewrite (col_untouched (ESN.design_index t_listen)
             (fun i => ESN.q s (row traj (i + 1)))).
  - apply col_zeros2.
  - rewrite design_indices. intro H. apply in_seq in H. lia.
Qed.

Lemma design_col (s : ESN.obj) (traj : list vec) (T t_listen i : nat) :
  length traj = T -> Forall (fun r => length r = ESN.N s) traj ->
  (t_listen <= i)%nat -> (i + 2 <= T)%nat ->
  col (ESN.design_index t_listen i) (ESN.design_matrix s traj T t_listen)
  = ESN.q s (row traj (i + 1)).
Proof.
  intros HT Hrows Hlo Hhi. unfold ESN.design_matrix.
  apply (col_assigned (2 * ESN.N s) (T - t_listen)
           (ESN.design_index t_listen)
           (fun i => ESN.q s (row traj (i + 1)))).
  - apply shaped_zeros2.
  - intros k Hk. apply in_seq in Hk. split.
    + rewrite length_q. f_equal.
      rewrite Forall_forall in Hrows. apply Hrows.
      apply nth_In. lia.
    + unfold ESN.design_index. lia.
  - rewrite design_indices. apply seq_NoDup.
  - apply in_seq. lia.
Qed.

Lemma target_col (data : mat) (t_listen j : nat) :
  Forall (fun r => length r = ncols data) data ->
  (t_listen + j < length data)%nat ->
  col j (ESN.target_matrix data t_listen) = row data (t_listen + j).
Proof.
  intros Hrect Hj. unfold ESN.target_matrix.
  rewrite col_transpose; rewrite row_skipn; [reflexivity |].
  rewrite Forall_forall in Hrect. apply Hrect. apply nth_In. exact Hj.
Qed.

End TrainFacts.

(* ================================================================== *)
(** * Facts about the small environment *)

Module DemoFacts.

Lemma is_zero_1 : Demo.is_zero 1 = false.
Proof. unfold Demo.is_zero. destruct (Req_EM_T 1 0); [lra | reflexivity]. Qed.

(** The reciprocal diagonal inverts the identity. *)
Lemma diag_inv_identity :
  inv_answer 6 (identity 6) (Demo.diag_inv (identity 6)).
Proof.
  unfold Demo.diag_inv.
  change (Demo.diagonal (identity 6)) with [1; 1; 1; 1; 1; 1].
  cbn [existsb]. rewrite is_zero_1. cbn [orb].
  unfold inv_answer, ret. split; [| split].
  - split; [reflexivity | repeat constructor].
  - unfold matmul, identity, diag, unit_vec, col, vget. simpl.
    entrywise; field.
  - unfold matmul, identity, diag, unit_vec, col, vget. simpl.
    entrywise; field.
Qed.

End DemoFacts.

(* ================================================================== *)
(** * Facts about the input matrix *)

Module InputFacts.

Lemma shaped_table (n m : nat) (f : nat -> nat -> R) :
  shaped n m (map (fun i => map (fun j => f i j) (seq 0 m)) (seq 0 n)).
Proof.
  split.
  - now rewrite length_map, length_seq.
  - apply Forall_forall. intros r Hr. apply in_map_iff in Hr.
    destruct Hr as (i & <- & _). now rewrite length_map, length_seq.
Qed.

(** The shape SciPy infers for a matrix in coordinate form. *)
Lemma coo_matrix_shape (values : list R) (rows cols : list nat) (W : mat) :
  Coo.coo_matrix values rows cols = inr W ->
  shaped (S (list_max rows)) (S (list_max cols)) W.
Proof.
  unfold Coo.coo_matrix.
  destruct (negb _); [discriminate |].
  destruct values as [| v values]; [discriminate |].
  intros H. injection H as <-.
  exact (shaped_table (S (list_max rows)) (S (list_max cols))
           (Coo.entry (v :: values) rows cols)).
Qed.

Lemma list_max_seq (a k : nat) : list_max (seq a (S k)) = (a + k)%nat.
Proof.
  revert a; induction k as [| k IH]; intro a.
  - simpl. lia.
  - change (seq a (S (S k))) with (a :: seq (S a) (S k)).
    change (list_max (a :: seq (S a) (S k)))
      with (Nat.max a (list_max (seq (S a) (S k)))).
    rewrite IH. lia.
Qed.

(** [input_matrix] returns a matrix with [N] rows whose width is one
    more than the largest column index drawn: no [shape=(N, d)] is
    passed to [coo_matrix]. *)
Lemma input_matrix_shape (E : Env) (N d : nat) (seed : Z) (W : mat) :
  (0 < N)%nat ->
  ESN.input_matrix E N d seed = inr W ->
  shaped N
    (S (list_max (fst (randint_rvs E 0 d N (random_seed E seed))))) W.
Proof.
  intros HN. unfold ESN.input_matrix.
  destruct (randint_rvs E 0 d N (random_seed E seed)) as [cols g'].
  destruct (uniform_rvs E (-1) 2 N g') as [values g''].
  intros H. apply coo_matrix_shape in H. simpl.
  destruct N as [| k]; [lia |].
  now rewrite list_max_seq in H.
Qed.

Lemma entry_other_rows (values : list R) (rows cols : list nat) (i j : nat) :
  ~ In i rows -> Coo.entry values rows cols i j = 0.
Proof.
  revert rows cols; induction values as [| v values IH];
    intros [| r rows] [| c cols] Hi; simpl; auto.
  rewrite IH by (intro H; apply Hi; now right).
  destruct (Nat.eqb_spec r i) as [-> | Hr].
  - exfalso. apply Hi. now left.
  - simpl. ring.
Qed.

(** With one triple per row, the entry at [(i, j)] is the value of row
    [i] when [j] is the column of row [i], and zero otherwise. *)
Lemma entry_one_per_row (values : list R) (cols : list nat) (a i j : nat) :
  length cols = length values ->
  (a <= i < a + length values)%nat ->
  Coo.entry values (seq a (length values)) cols i j
  = if (nth (i - a) cols 0%nat =? j)%nat then nth (i - a) values 0 else 0.
Proof.
  revert cols a; induction values as [| v values IH];
    intros [| c cols] a Hl Hi; simpl in *; try lia; try discriminate.
  destruct (Nat.eqb_spec a i) as [-> | Ha].
  - rewrite Nat.sub_diag, entry_other_rows.
    + simpl. destruct (c =? j)%nat; ring.
    + intro H. apply in_seq in H. lia.
  - rewrite IH by lia.
    replace (i - a)%nat with (S (i - S a)) by lia. simpl. ring.
Qed.

Lemma coo_matrix_table (values : list R) (rows cols : list nat) (W : mat) :
  Coo.coo_matrix values rows cols = inr W ->
  length rows = length values /\ length cols = length values /\
  W = map (fun i => map (fun j => Coo.entry values rows cols i j)
                        (seq 0 (S (list_max cols))))
          (seq 0 (S (list_max rows))).
Proof.
  unfold Coo.coo_matrix.
  destruct (Nat.eqb_spec (length rows) (length values)) as [Hr | Hr];
    [| discriminate].
  destruct (Nat.eqb_spec (length cols) (length values)) as [Hc | Hc];
    [| discriminate].
  cbn [andb negb]. destruct values as [| v values]; [discriminate |].
  unfold ret. intro H. repeat split; trivial. congruence.
Qed.

(** Row [i] of the input matrix holds the value drawn for unit [i] in
    the column drawn for unit [i], and zeros elsewhere. *)
Lemma input_matrix_rows (E : Env) (N d : nat) (seed : Z) (W : mat) (i : nat) :
  let g := random_seed E seed in
  let cols := fst (randint_rvs E 0 d N g) in
  let values := fst (uniform_rvs E (-1) 2 N (snd (randint_rvs E 0 d N g))) in
  ESN.input_matrix E N d seed = inr W -> (i < N)%nat ->
  row W i
  = map (fun j => if (nth i cols 0%nat =? j)%nat then nth i values 0 else 0)
        (seq 0 (S (list_max cols))).
Proof.
  intros g cols values. unfold ESN.input_matrix. fold g.
  subst cols values.
  destruct (randint_rvs E 0 d N g) as [cols g']. cbn [fst snd].
  destruct (uniform_rvs E (-1) 2 N g') as [values g'']. cbn [fst snd].
  intros H Hi. apply coo_matrix_table in H. destruct H as (Hr & Hc & ->).
  rewrite length_seq in Hr. subst N.
  destruct (length values) as [| k] eqn:Hk; [lia |].
  rewrite list_max_seq. cbn [plus]. rewrite <- Hk in *.
  unfold row.
  rewrite (nth_indep _ [] (map (fun j => Coo.entry values
                                      (seq 0 (length values)) cols 0 j)
                               (seq 0 (S (list_max cols)))))
    by (rewrite length_map, length_seq; lia).
  rewrite (map_nth (fun i' => map (fun j => Coo.entry values
                                     (seq 0 (length values)) cols i' j)
                                  (seq 0 (S (list_max cols))))).
  rewrite seq_nth by lia. cbn [plus].
  apply map_ext. intro j.
  rewrite (entry_one_per_row values cols 0 i j Hc) by lia.
  now rewrite Nat.sub_0_r.
Qed.

End InputFacts.

(* ================================================================== *)
(** * Facts about the loops *)

Module LoopFacts.

Section Pure.

Context {S : Type} (body : nat -> S -> result S) (g : nat -> S -> S).
Hypothesis body_pure : forall t w, body t w = inr (g t w).

Lemma for_each_pure (l : list nat) (s : S) :
  Loop.for_each body l s = inr (fold_left (fun w t => g t w) l s).
Proof.
  revert s; induction l as [| t l IH]; intro s; simpl.
  - reflexivity.
  - rewrite body_pure. apply IH.
Qed.

Lemma epochs_pure (epochs : nat) (steps : list nat) (s : S) :
  Loop.epochs_of body epochs steps s = inr (Loop.sweep g epochs steps s).
Proof.
  unfold Loop.epochs_of, Loop.sweep.
  generalize (seq 0 epochs) as es. intro es.
  revert s; induction es as [| e es IH]; intro s; simpl.
  - reflexivity.
  - rewrite for_each_pure. apply IH.
Qed.

End Pure.

(** A body that fixes [s] is swept to [s]. *)
Lemma sweep_fixed {S : Type} (g : nat -> S -> S) (epochs : nat)
    (steps : list nat) (s : S) :
  (forall t, In t steps -> g t s = s) -> Loop.sweep g epochs steps s = s.
Proof.
  intros Hfix. unfold Loop.sweep.
  assert (Hin : fold_left (fun w t => g t w) steps s = s).
  { revert Hfix. induction steps as [| t l IH]; intro Hfix; simpl; auto.
    rewrite Hfix by now left. apply IH. intros t' Ht'. apply Hfix. now right. }
  generalize (seq 0 epochs) as es. intro es.
  induction es as [| e es IH]; simpl; auto.
  now rewrite Hin.
Qed.

(** A body that logs one item per pass logs [epochs * len(steps)]. *)
Lemma sweep_log {A B : Type} (g : nat -> A * list B -> A * list B)
    (epochs : nat) (steps : list nat) (w : A * list B) :
  (forall t w', length (snd (g t w')) = Datatypes.S (length (snd w'))) ->
  length (snd (Loop.sweep g epochs steps w))
  = (length (snd w) + epochs * length steps)%nat.
Proof.
  intros Hlog. unfold Loop.sweep.
  assert (Hin : forall w', length (snd (fold_left (fun w t => g t w) steps w'))
                           = (length (snd w') + length steps)%nat).
  { induction steps as [| t l IH]; intro w'; simpl; [lia |].
    rewrite IH, Hlog. lia. }
  rewrite <- (length_seq epochs 0) at 2.
  generalize (seq 0 epochs) as es. intro es.
  revert w; induction es as [| e es IH]; intro w; simpl; [lia |].
  rewrite IH, Hin. lia.
Qed.

(** The loops around a body that is [g] wherever it answers. *)
Lemma for_each_opt_sound {S : Type} (body : nat -> S -> option S)
    (g : nat -> S -> S) (l : list nat) (s s' : S) :
  (forall t s1 s2, body t s1 = Some s2 -> s2 = g t s1) ->
  Loop.for_each_opt body l s = Some s' ->
  s' = fold_left (fun w t => g t w) l s.
Proof.
  intro Hg. revert s. induction l as [| t l IH]; intros s H; simpl in *.
  - now injection H as <-.
  - destruct (body t s) as [s1 |] eqn:Hb; [| discriminate].
    apply Hg in Hb. subst s1. now apply IH.
Qed.

Lemma epochs_opt_sound {S : Type} (body : nat -> S -> option S)
    (g : nat -> S -> S) (epochs : nat) (steps : list nat) (s s' : S) :
  (forall t s1 s2, body t s1 = Some s2 -> s2 = g t s1) ->
  Loop.epochs_opt body epochs steps s = Some s' ->
  s' = Loop.sweep g epochs steps s.
Proof.
  intro Hg. unfold Loop.epochs_opt, Loop.sweep.
  generalize (seq 0 epochs) as es. intro es. revert s.
  induction es as [| e es IH]; intros s H; simpl in *.
  - now injection H as <-.
  - destruct (Loop.for_each_opt body steps s) as [s1 |] eqn:Hb;
      [| discriminate].
    apply (for_each_opt_sound body g) in Hb; [| exact Hg].
    subst s1. now apply IH.
Qed.

(** The loops answer when the body answers on every state that keeps
    a property the body preserves. *)
Lemma epochs_opt_some {S : Type} (P : S -> Prop)
    (body : nat -> S -> option S) (g : nat -> S -> S) (epochs : nat)
    (steps : list nat) (s : S) :
  (forall t s1, In t steps -> P s1 ->
     body t s1 = Some (g t s1) /\ P (g t s1)) ->
  P s ->
  Loop.epochs_opt body epochs steps s = Some (Loop.sweep g epochs steps s).
Proof.
  intros Hb Hs. unfold Loop.epochs_opt, Loop.sweep.
  assert (Hin : forall l, incl l steps -> forall s1, P s1 ->
            Loop.for_each_opt body l s1
            = Some (fold_left (fun w t => g t w) l s1) /\
            P (fold_left (fun w t => g t w) l s1)).
  { induction l as [| t l IH]; intros Hl s1 Hs1; simpl.
    - split; [reflexivity | exact Hs1].
    - destruct (Hb t s1) as [He HP]; [apply Hl; now left | exact Hs1 |].
      rewrite He. apply IH; [| exact HP].
      intros t' Ht'. apply Hl. now right. }
  generalize (seq 0 epochs) as es. intro es. revert s Hs.
  induction es as [| e es IH]; intros s Hs; simpl; [reflexivity |].
  destruct (Hin steps (incl_refl _) s Hs) as [He HP].
  rewrite He. now apply IH.
Qed.

End LoopFacts.

(* ================================================================== *)
(** * Facts about the decay and normalization steps *)

Module StepFacts.

Import NpFacts.

Lemma vsub_vscale_0 (r y : vec) :
  length y = length r -> vsub r (vscale 0 y) = r.
Proof.
  unfold vsub, vscale. revert y; induction r as [| a r IH];
    intros [| b y] H; simpl in *; try discriminate; auto.
  f_equal; [ring | apply IH; lia].
Qed.

(** Subtracting zero times a matrix of the same shape changes nothing. *)
Lemma msub_scale_0 (n m : nat) (A X : mat) :
  shaped n m A -> shaped n m X -> msub A (scale 0 X) = A.
Proof.
  unfold msub, scale. intros [Hn HA] [Hn' HX]. subst n.
  revert X Hn' HX; induction A as [| r A IH]; intros [| y X] Hn' HX;
    simpl in *; try discriminate; auto.
  inversion HA as [| ? ? Hr HA']; subst.
  inversion HX as [| ? ? Hy HX']; subst.
  f_equal.
  - apply vsub_vscale_0. congruence.
  - apply IH; auto.
Qed.

Lemma shaped_outer (a b : vec) : shaped (length a) (length b) (outer a b).
Proof.
  unfold outer, vscale. split.
  - apply length_map.
  - apply Forall_forall. intros r Hr. apply in_map_iff in Hr.
    destruct Hr as (c & <- & _). apply length_map.
Qed.

Lemma shaped_hebb_X (N : nat) (x : list vec) (t : nat) :
  shaped N (length (row x t)) (AHESN.hebb_X N x t).
Proof.
  unfold AHESN.hebb_X, vscale. split.
  - now rewrite length_map, length_seq.
  - apply Forall_forall. intros r Hr. apply in_map_iff in Hr.
    destruct Hr as (c & <- & _). apply length_map.
Qed.

(** With [eta = 0] a decay step changes nothing. *)
Lemma decay_0 (n : nat) (x : list vec) (t : nat) (A : mat) :
  shaped n n A -> length (row x (t + 1)) = n -> length (row x t) = n ->
  AHESN.decay 0 x t A = A.
Proof.
  intros HA H1 H0. unfold AHESN.decay.
  apply (msub_scale_0 n n); trivial.
  pose proof (shaped_outer (row x (t + 1)) (row x t)) as H.
  now rewrite H1, H0 in H.
Qed.

Lemma dot_zeros (n : nat) (w : vec) : dot (zeros n) w = 0.
Proof.
  unfold zeros. revert w; induction n as [| n IH]; intros [| b w]; simpl; auto.
  rewrite IH. ring.
Qed.

Lemma dot_unit_vec (n i : nat) (c : R) (w : vec) :
  (i < n)%nat -> dot (unit_vec n i c) w = c * vget w i.
Proof.
  unfold unit_vec, vget, zeros.
  revert i w; induction n as [| n IH]; intros i w Hi; [lia |].
  destruct i as [| i], w as [| b w]; simpl.
  - ring.
  - fold (zeros n). rewrite dot_zeros. ring.
  - ring.
  - rewrite IH by lia. ring.
Qed.

Lemma row_scale_seq (n : nat) (v : vec) (A : mat) :
  length v = n -> length A = n ->
  row_scale v A = map (fun i => vscale (vget v i) (row A i)) (seq 0 n).
Proof.
  revert v A; induction n as [| n IH]; intros [| c v] [| r A] Hv HA;
    simpl in *; try discriminate; auto.
  f_equal. rewrite <- seq_shift, map_map. apply IH; lia.
Qed.

(** [np.diag(v) @ A] multiplies row [i] of [A] by [v[i]]. *)
Lemma matmul_diag (n : nat) (v : vec) (A : mat) :
  length v = n -> shaped n n A -> matmul n (diag v) A = row_scale v A.
Proof.
  intros Hv [Hn HA]. rewrite (row_scale_seq n) by assumption.
  unfold matmul, diag. rewrite map_map, Hv.
  apply map_ext_in. intros i Hi. apply in_seq in Hi.
  transitivity (map (fun j => vget v i * vget (row A i) j) (seq 0 n)).
  - apply map_ext. intro j. rewrite dot_unit_vec by lia.
    now rewrite vget_col.
  - assert (Hr : length (row A i) = n).
    { rewrite Forall_forall in HA. apply HA. apply nth_In. lia. }
    symmetry. unfold vscale.
    transitivity (map (Rmult (vget v i))
                      (map (fun j => vget (row A i) j) (seq 0 n))).
    + rewrite <- Hr. now rewrite map_vget_seq.
    + apply map_map.
Qed.

(** A normalization step multiplies row [i] of the decayed matrix by the
    inverse of the norm of its column [i]. *)
Lemma norm_step_rows (N : nat) (eta : R) (x : list vec) (t : nat) (M : mat) :
  shaped N N (AHESN.decay eta x t M) ->
  AHESN.norm_step N eta x t M
  = row_scale (map (fun n => 1 / n) (col_norms N (AHESN.decay eta x t M)))
              (AHESN.decay eta x t M).
Proof.
  intro Hs. unfold AHESN.norm_step. apply matmul_diag; trivial.
  unfold col_norms. now rewrite !length_map, length_seq.
Qed.

End StepFacts.

(* ================================================================== *)
(** * Adaptation with learning rate zero *)

Module EtaZero.

Import NpFacts.

Lemma row_length (N T : nat) (x : list vec) (t : nat) :
  Reading.trajectory_ok N T x -> (t < T)%nat -> length (row x t) = N.
Proof.
  intros [HT Hrows] Ht. rewrite Forall_forall in Hrows.
  apply Hrows. apply nth_In. lia.
Qed.

(** What [listen] leaves of the object. *)
Lemma listen_fields (F : ESN.fields) (E : Env) (data : mat) (t : list R)
    (reset : bool) (self : AHESN.obj) :
  let b2 := fst (AHESN.listen F E data t reset self) in
  ESN.N b2 = ESN.N (AHESN.base self) /\
  ESN.rho b2 = ESN.rho (AHESN.base self) /\
  ESN.M_orig b2 = ESN.M_orig (AHESN.base self) /\
  ESN.M b2 = (if reset
              then scale (ESN.rho (AHESN.base self))
                         (ESN.M_orig (AHESN.base self))
              else ESN.M (AHESN.base self)).
Proof. destruct reset; simpl; auto. Qed.

Section Steps.

Variables (N T t_listen : nat) (x : list vec) (data : mat).
Hypothesis x_ok : Reading.trajectory_ok N T x.
Hypothesis data_T : length data = T.

Lemma step_rows (t : nat) :
  In t (range t_listen (length data - 1)) ->
  length (row x (t + 1)) = N /\ length (row x t) = N.
Proof.
  intro Ht. apply in_seq in Ht.
  split; apply (row_length N T); trivial; lia.
Qed.


Lemma decay_0_step (t : nat) (A : mat) :
  shaped N N A -> In t (range t_listen (length data - 1)) ->
  AHESN.decay 0 x t A = A.
Proof.
  intros HA Ht. destruct (step_rows t Ht) as [H1 H0].
  now apply (StepFacts.decay_0 N).
Qed.






End Steps.

Lemma shaped_scale (n m : nat) (c : R) (A : mat) :
  shaped n m A -> shaped n m (scale c A).
Proof.
  intros [Hn Hm]. split.
  - unfold scale. now rewrite length_map.
  - unfold scale, vscale. apply Forall_forall. intros r Hr.
    apply in_map_iff in Hr. destruct Hr as (r' & <- & Hr').
    rewrite length_map. rewrite Forall_forall in Hm. now apply Hm.
Qed.

Section Procedures.

Variables (F : ESN.fields) (E : Env) (data : mat) (t : list R)
          (t_listen : nat) (reset : bool) (self : AHESN.obj).

Local Abbreviation b0 := (AHESN.base self).
Local Abbreviation b2 := (fst (AHESN.listen F E data t reset self)).
Local Abbreviation x := (snd (AHESN.listen F E data t reset self)).

Hypothesis eta_0 : AHESN.eta self = 0.
Hypothesis data_t : length data = length t.
Hypothesis x_ok : Reading.trajectory_ok (ESN.N b0) (length t) x.






End Procedures.

End EtaZero.

(* ================================================================== *)
(** * The model with the raw adjacency of rank one *)

Module RankOne.

Lemma trace_raw3b : Demo.trace Demo.raw3b = 1.
Proof. unfold Demo.trace, Demo.diagonal, Demo.raw3b, vget. simpl. field. Qed.

Lemma M_orig_h3b : ESN.M_orig (AHESN.base Demo.h3b) = Demo.raw3b.
Proof.
  change (ESN.M_orig (AHESN.base Demo.h3b))
    with (scale (1 / Cmod (RtoC (Demo.trace Demo.raw3b))) Demo.raw3b).
  rewrite SpectrumFacts.Cmod_RtoC, trace_raw3b, Rabs_R1.
  replace (1 / 1) with 1 by field.
  apply SpectrumFacts.scale_1.
Qed.

Lemma shaped_raw3b : shaped 3 3 Demo.raw3b.
Proof. split; [reflexivity | repeat constructor]. Qed.

Lemma decay_0_raw3b : AHESN.decay 0 Demo.x2 0 Demo.raw3b = Demo.raw3b.
Proof.
  apply (StepFacts.decay_0 3); [exact shaped_raw3b | reflexivity | reflexivity].
Qed.

Lemma col_norms_raw3b : col_norms 3 Demo.raw3b = [1 / 2; 1; 1].
Proof.
  unfold col_norms, norm2, Demo.raw3b, col, vget. simpl.
  entrywise; apply sqrt_lem_1; lra.
Qed.

(** The matrix after the single normalization step. *)
Lemma norm_step_raw3b :
  AHESN.norm_step 3 0 Demo.x2 0 Demo.raw3b
  = [[8 / 10; 16 / 10; 16 / 10]; [3 / 10; 6 / 10; 6 / 10]; [0; 0; 0]].
Proof.
  rewrite StepFacts.norm_step_rows; rewrite decay_0_raw3b;
    [| exact shaped_raw3b].
  rewrite col_norms_raw3b. unfold Demo.raw3b, vscale. simpl.
  entrywise; field.
Qed.

Lemma column_normalized_raw3b :
  Reading.column_normalized 3 Demo.raw3b
  = [[8 / 10; 8 / 10; 8 / 10]; [6 / 10; 6 / 10; 6 / 10]; [0; 0; 0]].
Proof.
  unfold Reading.column_normalized. rewrite col_norms_raw3b.
  unfold Demo.raw3b. simpl. entrywise; field.
Qed.

(** The matrix [norm_hebb_learn(data2, t2, 0)] stores on [h3b]. *)
Lemma stored_h3b :
  ESN.M (AHESN.base Demo.h3b_adapted)
  = [[8 / 10; 16 / 10; 16 / 10]; [3 / 10; 6 / 10; 6 / 10]; [0; 0; 0]].
Proof.
  change (ESN.M (AHESN.base Demo.h3b_adapted))
    with (scale 1 (AHESN.norm_step 3 0 Demo.x2 0
                     (ESN.M_orig (AHESN.base Demo.h3b)))).
  rewrite M_orig_h3b, norm_step_raw3b. apply SpectrumFacts.scale_1.
Qed.

(** [7/5] is an eigenvalue of the stored matrix. *)
Lemma eigenvalue_stored :
  eigenvalue
    [[8 / 10; 16 / 10; 16 / 10]; [3 / 10; 6 / 10; 6 / 10]; [0; 0; 0]]
    (RtoC (7 / 5)).
Proof.
  exists [(8, 0); (3, 0); (0, 0)]. split; [reflexivity |]. split.
  - exists (8, 0). split; [now left |].
    unfold C0. intro H. injection H as H. lra.
  - simpl. entrywise; apply SpectrumFacts.C_eq; simpl; field.
Qed.



(** The columns of the matrix after the single normalization step do
    not have norm one. *)
Lemma col_norm_stored :
  norm2 (col 1 [[8 / 10; 16 / 10; 16 / 10]; [3 / 10; 6 / 10; 6 / 10];
                [0; 0; 0]]) <> 1.
Proof.
  unfold norm2, col, vget. simpl. intro H.
  assert (H2 : sqrt (16 / 10 * (16 / 10) + (6 / 10 * (6 / 10) + (0 * 0 + 0))) *
               sqrt (16 / 10 * (16 / 10) + (6 / 10 * (6 / 10) + (0 * 0 + 0)))
               = 16 / 10 * (16 / 10) + (6 / 10 * (6 / 10) + (0 * 0 + 0)))
    by (apply sqrt_sqrt; lra).
  rewrite H in H2. lra.
Qed.

End RankOne.

(* ================================================================== *)
(** * The model with the raw adjacency of a single entry *)

Module SingleEntry.

Lemma trace_raw3 : Demo.trace Demo.raw3 = 1.
Proof. unfold Demo.trace, Demo.diagonal, Demo.raw3, vget. simpl. ring. Qed.

Lemma Cmod_trace_raw3 : Cmod (RtoC (Demo.trace Demo.raw3)) = 1.
Proof. rewrite SpectrumFacts.Cmod_RtoC, trace_raw3. apply Rabs_R1. Qed.

(** The eigenvalues of [raw3] are 1 and 0. *)
Lemma eigenvalue_raw3 (mu : C) :
  eigenvalue Demo.raw3 mu -> mu = RtoC 1 \/ mu = RtoC 0.
Proof.
  intros [v (Hl & (z & Hin & Hz) & Hv)].
  destruct v as [| z0 [| z1 [| z2 [| z3 v]]]]; simpl in Hl; try discriminate.
  assert (H0 := f_equal (fun w => nth 0 w C0) Hv).
  assert (H1 := f_equal (fun w => nth 1 w C0) Hv).
  assert (H2 := f_equal (fun w => nth 2 w C0) Hv).
  simpl in H0, H1, H2.
  destruct Hin as [-> | [-> | [-> | []]]].
  - left. apply (SpectrumFacts.Cmul_cancel mu z 1 Hz).
    rewrite <- H0. apply SpectrumFacts.C_eq; simpl; ring.
  - right. apply (SpectrumFacts.Cmul_cancel mu z 0 Hz).
    rewrite <- H1. apply SpectrumFacts.C_eq; simpl; ring.
  - right. apply (SpectrumFacts.Cmul_cancel mu z 0 Hz).
    rewrite <- H2. apply SpectrumFacts.C_eq; simpl; ring.
Qed.

Lemma dominant_raw3 : dominant Demo.raw3 (RtoC (Demo.trace Demo.raw3)).
Proof.
  rewrite trace_raw3. split.
  - exists [(1, 0); (0, 0); (0, 0)]. split; [reflexivity |]. split.
    + exists (1, 0). split; [now left |].
      unfold C0. intro H. injection H as H. lra.
    + simpl. entrywise; apply SpectrumFacts.C_eq; simpl; ring.
  - intros mu Hmu. rewrite !SpectrumFacts.Cmod_RtoC, Rabs_R1.
    destruct (eigenvalue_raw3 mu Hmu) as [-> | ->];
      rewrite SpectrumFacts.Cmod_RtoC.
    + rewrite Rabs_R1. lra.
    + rewrite Rabs_R0. lra.
Qed.

(** The matrices the constructor leaves. *)
Lemma M_orig_h3 (rho eta : R) (epochs : nat) :
  ESN.M_orig (AHESN.base (Demo.h3 rho eta epochs)) = Demo.raw3.
Proof.
  change (ESN.M_orig (AHESN.base (Demo.h3 rho eta epochs)))
    with (scale (1 / Cmod (RtoC (Demo.trace Demo.raw3))) Demo.raw3).
  rewrite Cmod_trace_raw3. replace (1 / 1) with 1 by field.
  apply SpectrumFacts.scale_1.
Qed.

Lemma M_h3 (rho eta : R) (epochs : nat) :
  ESN.M (AHESN.base (Demo.h3 rho eta epochs)) = scale rho Demo.raw3.
Proof.
  change (ESN.M (AHESN.base (Demo.h3 rho eta epochs)))
    with (scale rho (ESN.M_orig (AHESN.base (Demo.h3 rho eta epochs)))).
  now rewrite M_orig_h3.
Qed.

(** The trajectories of the model over three grid points. *)
Lemma trajectory_h3 (rho eta : R) (epochs : nat) (reset : bool) :
  Reading.trajectory_ok 3 3
    (snd (AHESN.listen AHESN.own_fields Demo.E3 Demo.data3 Demo.t3 reset
            (Demo.h3 rho eta epochs))).
Proof.
  destruct reset; (split; [reflexivity | repeat constructor]).
Qed.


End SingleEntry.

(* ================================================================== *)
(** * Intrinsic plasticity with learning rate zero *)

Module NuZero.

Import NpFacts.

Lemma vadd_zero (v w : vec) :
  length w = length v -> all_zero w -> vadd v w = v.
Proof.
  unfold vadd. revert w; induction v as [| a v IH]; intros [| b w] Hl Hz;
    simpl in *; try discriminate; auto.
  inversion Hz as [| ? ? Hb Hw]; subst.
  f_equal; [ring | apply IH; auto].
Qed.

Lemma all_zero_vadd (v w : vec) :
  all_zero v -> all_zero w -> all_zero (vadd v w).
Proof.
  unfold vadd. revert w; induction v as [| a v IH]; intros [| b w] Hv Hw;
    simpl; try constructor.
  - inversion Hv; inversion Hw; subst. ring.
  - inversion Hv; inversion Hw; subst. now apply IH.
Qed.

Lemma length_vzip (f : R -> R -> R) (v w : vec) :
  length (vzip f v w) = Nat.min (length v) (length w).
Proof.
  revert w; induction v as [| a v IH]; intros [| b w]; simpl; auto.
Qed.

Lemma all_zero_vscale_0 (c : R) (v : vec) : c = 0 -> all_zero (vscale c v).
Proof.
  intros ->. unfold all_zero, vscale. apply Forall_forall.
  intros y Hy. apply in_map_iff in Hy. destruct Hy as (h & <- & _). ring.
Qed.

Lemma vget_all_zero (w : vec) (i : nat) : all_zero w -> vget w i = 0.
Proof.
  unfold vget. intro Hz. destruct (Nat.lt_ge_cases i (length w)) as [H | H].
  - unfold all_zero in Hz. rewrite Forall_forall in Hz.
    apply Hz. now apply nth_In.
  - now apply nth_overflow.
Qed.

Lemma all_zero_diag (w z : vec) : all_zero w -> all_zero (mat_vec (diag w) z).
Proof.
  intro Hz. unfold mat_vec, diag. rewrite map_map.
  apply Forall_forall. intros y Hy. apply in_map_iff in Hy.
  destruct Hy as (i & <- & Hi). apply in_seq in Hi.
  rewrite StepFacts.dot_unit_vec by lia.
  rewrite (vget_all_zero w i Hz). ring.
Qed.

Lemma length_diag_vec (w z : vec) : length (mat_vec (diag w) z) = length w.
Proof. unfold mat_vec, diag. now rewrite !length_map, length_seq. Qed.

Lemma length_H (self : IPESN.obj) (x : vec) :
  length (IPESN.H self x) = length x.
Proof. unfold IPESN.H. apply length_map. Qed.

(** With [nu = 0] a pass through the loop body changes neither the gain
    nor the bias. *)
Lemma ip_update_0 (self : IPESN.obj) (x z : list vec) (t : nat)
    (a b : vec) :
  IPESN.nu self = 0 ->
  length (row x t) = length a -> length b = length a ->
  IPESN.ip_update self x z t (a, b) = (a, b).
Proof.
  intros Hnu Hx Hb. unfold IPESN.ip_update. rewrite Hnu.
  assert (Hdb : all_zero (vscale (- 0) (IPESN.H self (row x t))))
    by (apply all_zero_vscale_0; ring).
  assert (Hldb : length (vscale (- 0) (IPESN.H self (row x t))) = length a)
    by (unfold vscale; now rewrite length_map, length_H).
  f_equal.
  - apply vadd_zero.
    + unfold vadd. rewrite length_vzip, length_map, length_diag_vec, Hldb.
      apply Nat.min_id.
    + apply all_zero_vadd.
      * apply Forall_forall. intros y Hy. apply in_map_iff in Hy.
        destruct Hy as (ai & <- & _). unfold Rdiv. ring.
      * now apply all_zero_diag.
  - apply vadd_zero; [congruence | exact Hdb].
Qed.

(** [has_zero] decides whether an entry is zero. *)
Lemma has_zero_false (w : vec) :
  Forall (fun y => y <> 0) w <-> has_zero w = false.
Proof.
  unfold has_zero. induction w as [| y w IH]; simpl.
  - split; [reflexivity | constructor].
  - destruct (Req_EM_T y 0) as [Hy | Hy]; simpl.
    + split; [| discriminate]. intro H. inversion H. contradiction.
    + rewrite <- IH. split.
      * intro H. now inversion H.
      * intro H. now constructor.
Qed.

Lemma has_zero_true (w : vec) : In 0 w -> has_zero w = true.
Proof.
  unfold has_zero. intro H. apply existsb_exists. exists 0.
  split; [exact H |]. destruct (Req_EM_T 0 0); [reflexivity | contradiction].
Qed.

(** On a gain without zero entry the loop body is its arithmetic. *)
Lemma ip_step_nonzero (self : IPESN.obj) (x z : list vec) (t : nat)
    (ab : vec * vec) :
  Forall (fun y => y <> 0) (fst ab) ->
  IPESN.ip_step self x z t ab = Some (IPESN.ip_update self x z t ab).
Proof.
  intro H. unfold IPESN.ip_step. apply has_zero_false in H. now rewrite H.
Qed.

Lemma ip_step_sound (self : IPESN.obj) (x z : list vec) (t : nat)
    (ab ab' : vec * vec) :
  IPESN.ip_step self x z t ab = Some ab' ->
  ab' = IPESN.ip_update self x z t ab.
Proof.
  unfold IPESN.ip_step. destruct (has_zero (fst ab)); [discriminate |].
  intro H. now injection H as <-.
Qed.

(** With a zero entry in the gain, the first pass of the loops already
    leaves the real numbers, whatever [nu] is. *)
Lemma IP_train_zero_gain (E : Env) (data : mat) (t_points : list R)
    (epochs : nat) (rescale : bool) (self : IPESN.obj) :
  In 0 (IPESN.a self) -> (0 < epochs)%nat -> t_points <> [] ->
  IPESN.IP_train E data t_points epochs rescale self = None.
Proof.
  intros Ha He Ht. unfold IPESN.IP_train.
  destruct (IPESN.listen E data t_points rescale self) as [e2 x].
  destruct epochs as [| k]; [lia |].
  destruct t_points as [| t0 ts]; [contradiction |].
  unfold Loop.epochs_opt, range.
  cbn [length Nat.sub seq Loop.for_each_opt].
  unfold IPESN.ip_step at 1. cbn [fst].
  now rewrite (has_zero_true _ Ha).
Qed.

End NuZero.

(* ================================================================== *)
(** * Entries of sums, products and the identity *)

Module EntryFacts.

Lemma vget_vscale (c : R) (v : vec) (i : nat) :
  vget (vscale c v) i = c * vget v i.
Proof.
  unfold vget, vscale. revert i.
  induction v as [| y v IH]; intros [| i]; simpl; try ring. apply IH.
Qed.

Lemma vget_vzip (f : R -> R -> R) (x y : vec) (i : nat) :
  (i < length x)%nat -> (i < length y)%nat ->
  vget (vzip f x y) i = f (vget x i) (vget y i).
Proof.
  unfold vget. revert y i.
  induction x as [| a x IH]; intros [| b y] [| i] Hx Hy; simpl in *;
    try lia; trivial.
  apply IH; lia.
Qed.

Lemma row_mzip (f : R -> R -> R) (A B : mat) (i : nat) :
  (i < length A)%nat -> (i < length B)%nat ->
  row (mzip f A B) i = vzip f (row A i) (row B i).
Proof.
  unfold row. revert B i.
  induction A as [| a A IH]; intros [| b B] [| i] HA HB; simpl in *;
    try lia; trivial.
  apply IH; lia.
Qed.

Lemma row_in (n m : nat) (A : mat) (i : nat) :
  shaped n m A -> (i < n)%nat -> length (row A i) = m.
Proof.
  intros [Hn HA] Hi. rewrite Forall_forall in HA.
  apply HA. apply nth_In. lia.
Qed.

Lemma entry_msub (n m : nat) (A B : mat) (i j : nat) :
  shaped n m A -> shaped n m B -> (i < n)%nat -> (j < m)%nat ->
  Sums.entry (msub A B) i j = Sums.entry A i j - Sums.entry B i j.
Proof.
  intros HA HB Hi Hj. unfold Sums.entry, msub.
  rewrite row_mzip by (destruct HA, HB; lia).
  apply vget_vzip.
  - now rewrite (row_in n m A i).
  - now rewrite (row_in n m B i).
Qed.

Lemma row_scale_at (c : R) (A : mat) (i : nat) :
  row (scale c A) i = vscale c (row A i).
Proof.
  unfold row, scale. revert i.
  induction A as [| r A IH]; intros [| i]; simpl; trivial.
Qed.

Lemma entry_scale (c : R) (A : mat) (i j : nat) :
  Sums.entry (scale c A) i j = c * Sums.entry A i j.
Proof.
  unfold Sums.entry. rewrite row_scale_at. apply vget_vscale.
Qed.

Lemma entry_madd (n m : nat) (A B : mat) (i j : nat) :
  shaped n m A -> shaped n m B -> (i < n)%nat -> (j < m)%nat ->
  Sums.entry (madd A B) i j = Sums.entry A i j + Sums.entry B i j.
Proof.
  intros HA HB Hi Hj. unfold Sums.entry, madd.
  rewrite row_mzip by (destruct HA, HB; lia).
  apply vget_vzip.
  - now rewrite (row_in n m A i).
  - now rewrite (row_in n m B i).
Qed.

Lemma row_matmul (m : nat) (A B : mat) (i : nat) :
  (i < length A)%nat ->
  row (matmul m A B) i = map (fun j => dot (row A i) (col j B)) (seq 0 m).
Proof.
  intro Hi. unfold matmul, row.
  rewrite (nth_indep _ [] (map (fun j => dot [] (col j B)) (seq 0 m)))
    by now rewrite length_map.
  now rewrite (map_nth (fun r => map (fun j => dot r (col j B)) (seq 0 m))).
Qed.

Lemma entry_matmul (m : nat) (A B : mat) (i j : nat) :
  (i < length A)%nat -> (j < m)%nat ->
  Sums.entry (matmul m A B) i j = dot (row A i) (col j B).
Proof.
  intros Hi Hj. unfold Sums.entry. rewrite row_matmul by assumption.
  unfold vget.
  rewrite (nth_indep _ 0 (dot (row A i) (col 0 B)))
    by now rewrite length_map, length_seq.
  rewrite (map_nth (fun j0 => dot (row A i) (col j0 B))).
  now rewrite seq_nth.
Qed.

(** The inner product as a sum over the positions. *)
Lemma dot_total (x y : vec) :
  length y = length x ->
  dot x y
  = Sums.total (fun k => vget x k * vget y k) (seq 0 (length x)).
Proof.
  unfold Sums.total, vget. revert y.
  induction x as [| a x IH]; intros [| b y] H; simpl in *;
    try discriminate; trivial.
  rewrite IH by lia. f_equal. rewrite <- seq_shift, map_map. reflexivity.
Qed.

Lemma entry_identity (n i j : nat) :
  (i < n)%nat -> (j < n)%nat ->
  Sums.entry (identity n) i j = if (i =? j)%nat then 1 else 0.
Proof.
  intros Hi Hj. unfold Sums.entry, identity, row.
  rewrite (nth_indep _ [] (unit_vec n 0 1))
    by now rewrite length_map, length_seq.
  rewrite (map_nth (fun i0 => unit_vec n i0 1)), seq_nth by assumption.
  unfold unit_vec. simpl.
  destruct (Nat.eqb_spec i j) as [-> | Hij].
  - apply NpFacts.vget_set_nth_eq. unfold zeros. now rewrite repeat_length.
  - rewrite NpFacts.vget_set_nth_neq by (intro; apply Hij; congruence).
    apply NpFacts.vget_zeros.
Qed.

End EntryFacts.

(* ================================================================== *)
(** * Shapes of products *)

Lemma shaped_matmul (m : nat) (A B : mat) :
  shaped (length A) m (matmul m A B).
Proof.
  unfold matmul. split.
  - apply length_map.
  - apply Forall_forall. intros r Hr. apply in_map_iff in Hr.
    destruct Hr as (r' & <- & _). now rewrite length_map, length_seq.
Qed.

Lemma length_matmul (m : nat) (A B : mat) : length (matmul m A B) = length A.
Proof. unfold matmul. apply length_map. Qed.

Lemma length_transpose (m : nat) (A : mat) : length (transpose m A) = m.
Proof. unfold transpose. now rewrite length_map, length_seq. Qed.

Lemma shaped_identity (n : nat) : shaped n n (identity n).
Proof.
  unfold identity. split.
  - now rewrite length_map, length_seq.
  - apply Forall_forall. intros r Hr. apply in_map_iff in Hr.
    destruct Hr as (i & <- & _). unfold unit_vec, zeros.
    now rewrite NpFacts.length_set_nth, repeat_length.
Qed.

(* ================================================================== *)
(** * The driving interpolant *)

Module DriveFacts.

(** [train] stores an interpolant only when the object has none. *)
Lemma train_u (F : ESN.fields) (E : Env) (data : mat) (t : list R)
    (t_listen : nat) (self : ESN.obj) :
  ESN.u (snd (ESN.train F E data t t_listen self))
  = match ESN.u self with
    | None => Some (ESN.spline E self data t)
    | Some f => Some f
    end.
Proof.
  unfold ESN.train.
  set (s1 := match ESN.u self with
             | None => ESN.with_u (ESN.spline E self data t) self
             | Some _ => self
             end).
  assert (Hs1 : ESN.u s1 = match ESN.u self with
                           | None => Some (ESN.spline E self data t)
                           | Some f => Some f
                           end).
  { unfold s1. destruct (ESN.u self) eqn:Hu; [exact Hu | reflexivity]. }
  destruct (length t <? t_listen)%nat; [exact Hs1 |].
  destruct (ESN.np_matmul _ _ _ _ _); [exact Hs1 |].
  destruct (linalg_inv E _); [exact Hs1 |].
  destruct (odeint E _ _ _); exact Hs1.
Qed.

(** [train] keeps the input dimension. *)
Lemma train_d (F : ESN.fields) (E : Env) (data : mat) (t : list R)
    (t_listen : nat) (self : ESN.obj) :
  ESN.d (snd (ESN.train F E data t t_listen self)) = ESN.d self.
Proof.
  unfold ESN.train.
  set (s1 := match ESN.u self with
             | None => ESN.with_u (ESN.spline E self data t) self
             | Some _ => self
             end).
  assert (Hs1 : ESN.d s1 = ESN.d self)
    by (unfold s1; destruct (ESN.u self); reflexivity).
  destruct (length t <? t_listen)%nat; [exact Hs1 |].
  destruct (ESN.np_matmul _ _ _ _ _); [exact Hs1 |].
  destruct (linalg_inv E _); [exact Hs1 |].
  destruct (odeint E _ _ _); exact Hs1.
Qed.

(** [predict] with data always stores a new interpolant. *)
Lemma predict_u_fresh (F : ESN.fields) (E : Env) (t_predict : list R)
    (data : mat) (t : list R) (self : ESN.obj) :
  ESN.u (snd (ESN.predict F E t_predict (Some (data, t)) self))
  = Some (ESN.spline E self data t).
Proof.
  unfold ESN.predict. cbn beta iota.
  destruct (odeint E _ _ _); [reflexivity |].
  simpl. destruct (ESN.W_out self); reflexivity.
Qed.

(** [predict] without data keeps the interpolant. *)
Lemma predict_u_none (F : ESN.fields) (E : Env) (t_predict : list R)
    (self : ESN.obj) :
  ESN.u (snd (ESN.predict F E t_predict None self)) = ESN.u self.
Proof.
  unfold ESN.predict.
  destruct (ESN.r_T self), (ESN.W_out self); reflexivity.
Qed.

End DriveFacts.

(* ================================================================== *)
(** * The ridge matrix of the three-unit model *)

Module RidgeFacts.

(** On the ridge matrix of a design matrix with one non-zero column and
    [beta = 1], which is the identity plus a matrix of rank one, the
    stand-in returns the inverse. *)
Lemma rank_one_answer (v0 v1 v2 v3 v4 v5 : R) :
  let X := [[0; v0]; [0; v1]; [0; v2]; [0; v3]; [0; v4]; [0; v5]] in
  let G := madd (matmul 6 X (transpose 2 X)) (scale 1 (identity 6)) in
  is_inverse 6 G
    (msub (identity 6)
       (scale (1 / (1 + (v0 * v0 + v1 * v1 + v2 * v2 + v3 * v3 + v4 * v4
                         + v5 * v5)))
          (msub G (identity 6)))) /\
  Ridge.rank_one_inv G
  = inr (msub (identity 6)
           (scale (1 / (1 + (v0 * v0 + v1 * v1 + v2 * v2 + v3 * v3 + v4 * v4
                             + v5 * v5)))
              (msub G (identity 6)))).
Proof.
  intros X G.
  set (s := v0 * v0 + v1 * v1 + v2 * v2 + v3 * v3 + v4 * v4 + v5 * v5).
  assert (Hs : 1 + s <> 0) by (apply Rgt_not_eq; unfold s; nra).
  assert (HG : G = [[v0 * v0 + 1; v0 * v1; v0 * v2; v0 * v3; v0 * v4; v0 * v5];
                    [v1 * v0; v1 * v1 + 1; v1 * v2; v1 * v3; v1 * v4; v1 * v5];
                    [v2 * v0; v2 * v1; v2 * v2 + 1; v2 * v3; v2 * v4; v2 * v5];
                    [v3 * v0; v3 * v1; v3 * v2; v3 * v3 + 1; v3 * v4; v3 * v5];
                    [v4 * v0; v4 * v1; v4 * v2; v4 * v3; v4 * v4 + 1; v4 * v5];
                    [v5 * v0; v5 * v1; v5 * v2; v5 * v3; v5 * v4; v5 * v5 + 1]]).
  { unfold G, X, madd, matmul, transpose, identity, unit_vec, scale, vscale,
      col, vget. simpl. entrywise; ring. }
  rewrite HG. clear HG G X.
  split.
  - split; [split; [reflexivity | repeat constructor] |].
    split.
    + unfold matmul, msub, identity, unit_vec, scale, vscale, col, vget.
      simpl. entrywise; unfold s in *; field; exact Hs.
    + unfold matmul, msub, identity, unit_vec, scale, vscale, col, vget.
      simpl. entrywise; unfold s in *; field; exact Hs.
  - unfold Ridge.rank_one_inv.
    assert (Htr : Demo.trace
              (msub
                 [[v0 * v0 + 1; v0 * v1; v0 * v2; v0 * v3; v0 * v4; v0 * v5];
                  [v1 * v0; v1 * v1 + 1; v1 * v2; v1 * v3; v1 * v4; v1 * v5];
                  [v2 * v0; v2 * v1; v2 * v2 + 1; v2 * v3; v2 * v4; v2 * v5];
                  [v3 * v0; v3 * v1; v3 * v2; v3 * v3 + 1; v3 * v4; v3 * v5];
                  [v4 * v0; v4 * v1; v4 * v2; v4 * v3; v4 * v4 + 1; v4 * v5];
                  [v5 * v0; v5 * v1; v5 * v2; v5 * v3; v5 * v4; v5 * v5 + 1]]
                 (identity 6)) = s).
    { unfold Demo.trace, Demo.diagonal, msub, identity, unit_vec, vget, s.
      simpl. ring. }
    cbn [length]. rewrite Htr.
    destruct (Req_EM_T (1 + s) 0) as [H0 | _]; [contradiction |].
    reflexivity.
Qed.

(** The design matrix of [train(data2, t2, 0)] on [s3r]: column 0 is
    zero and column 1 is the feature map of the second state. *)
Lemma design_s3r :
  ESN.design_matrix
    (ESN.with_u (ESN.spline Ridge.E3r Ridge.s3r Demo.data2 Demo.t2) Ridge.s3r)
    Ridge.traj2r 2 0
  = [[0; vget (row Ridge.traj2r 1) 0];
     [0; vget (row Ridge.traj2r 1) 1];
     [0; vget (row Ridge.traj2r 1) 2];
     [0; vget (row Ridge.traj2r 1) 0 ^ 2];
     [0; vget (row Ridge.traj2r 1) 1 ^ 2];
     [0; vget (row Ridge.traj2r 1) 2 ^ 2]].
Proof. reflexivity. Qed.


Lemma tanh_step (a b : R) :
  a = b -> 0 + (1 - 0) * (1 * (- 0 + tanh a)) = tanh b.
Proof. intros ->. ring. Qed.

(** The second state of the listening trajectory. *)
Lemma state_s3r :
  row Ridge.traj2r 1 = [tanh (1 / 2); tanh (1 / 2); tanh (1 / 2)].
Proof.
  unfold Ridge.traj2r. cbn -[tanh].
  destruct (Rle_dec 0 0) as [_ | H]; [| exfalso; lra].
  entrywise; apply tanh_step; unfold Rdiv; ring.
Qed.

Lemma tanh_half_pos : 0 < tanh (1 / 2).
Proof.
  unfold tanh, sinh, cosh.
  pose proof (exp_pos (1 / 2)) as H1.
  pose proof (exp_pos (- (1 / 2))) as H2.
  assert (H3 : exp (- (1 / 2)) < exp (1 / 2)) by (apply exp_increasing; lra).
  apply Rdiv_lt_0_compat; lra.
Qed.

Lemma is_zero_0 : Demo.is_zero 0 = true.
Proof.
  unfold Demo.is_zero. destruct (Req_EM_T 0 0); [reflexivity | contradiction].
Qed.

Lemma zero_singular : ~ invertible 6 (zeros2 6 6).
Proof.
  intros [B (_ & H & _)].
  apply (f_equal (fun A => Sums.entry A 0 0)) in H.
  rewrite EntryFacts.entry_matmul in H by (simpl; lia).
  rewrite EntryFacts.entry_identity in H by lia.
  change (row (zeros2 6 6) 0) with (zeros 6) in H.
  rewrite StepFacts.dot_zeros in H. simpl in H. lra.
Qed.

(** With [t_listen = T - 1] and [beta = 0] the ridge matrix is zero. *)
Lemma ridge_beta0 :
  madd (matmul 6
          (ESN.design_matrix
             (ESN.with_u (ESN.spline Demo.E3 Ridge.s3_beta0 Demo.data2 Demo.t2)
                Ridge.s3_beta0)
             Demo.traj2 2 1)
          (transpose 1
             (ESN.design_matrix
                (ESN.with_u
                   (ESN.spline Demo.E3 Ridge.s3_beta0 Demo.data2 Demo.t2)
                   Ridge.s3_beta0)
                Demo.traj2 2 1)))
       (scale 0 (identity 6))
  = zeros2 6 6.
Proof.
  unfold ESN.design_matrix, madd, matmul, transpose, identity, unit_vec,
    scale, vscale, col, vget. simpl. entrywise; ring.
Qed.

End RidgeFacts.

(* ================================================================== *)
(** * The spectral radius after an assignment of rho *)

(** The raw random matrix of a configuration. *)
Lemma adj_matrix_eq (E : Env) (N : nat) (p : R) (seed : Z) (lam : C) (A : mat) :
  eigs E (sp_random E N N p (random_seed E seed)) = inr lam ->
  ESN.adj_matrix E N p seed = inr A ->
  A = scale (1 / Cmod lam) (sp_random E N N p (random_seed E seed)).
Proof.
  unfold ESN.adj_matrix. intros ->. simpl. intros H.
  injection H as <-. reflexivity.
Qed.

(** C1, as the code has it.  Let the stored raw adjacency be what
    [adj_matrix] made of the configuration, with an eigensolver that
    returned a dominant eigenvalue of non-zero modulus.  Right after any
    assignment [self.rho = rho'] the reservoir matrix has spectral radius
    [|rho'|]; this is [rho'] itself exactly when [rho'] is not negative. *)
Theorem set_rho_spectral_radius (E : Env) (s : ESN.obj) (lam : C) (rho' : R) :
  eigs E (sp_random E (ESN.N s) (ESN.N s) (ESN.p s)
                    (random_seed E (ESN.seed s))) = inr lam ->
  dominant (sp_random E (ESN.N s) (ESN.N s) (ESN.p s)
                      (random_seed E (ESN.seed s))) lam ->
  Cmod lam <> 0 ->
  ESN.adj_matrix E (ESN.N s) (ESN.p s) (ESN.seed s) = inr (ESN.M_orig s) ->
  spectral_radius (ESN.M (ESN.set_rho rho' s)) (Rabs rho') /\
  (0 <= rho' -> spectral_radius (ESN.M (ESN.set_rho rho' s)) rho').
Proof.
  intros Heig Hdom Hnz Hadj.
  assert (Hrad : spectral_radius (ESN.M (ESN.set_rho rho' s)) (Rabs rho')).
  { simpl. rewrite (adj_matrix_eq _ _ _ _ _ _ Heig Hadj).
    apply SpectrumFacts.dominant_spectral_radius in Hdom.
    apply (SpectrumFacts.spectral_radius_scale (1 / Cmod lam)) in Hdom.
    assert (Hpos : 0 < Cmod lam).
    { destruct (SpectrumFacts.Cmod_nonneg lam) as [H | H]; [exact H |].
      now contradiction Hnz. }
    replace (Rabs (1 / Cmod lam) * Cmod lam) with 1 in Hdom.
    - apply (SpectrumFacts.spectral_radius_scale rho') in Hdom.
      now rewrite Rmult_1_r in Hdom.
    - rewrite Rabs_right.
      + field. lra.
      + apply Rle_ge. apply Rlt_le. apply Rdiv_lt_0_compat; lra. }
  split; [exact Hrad |].
  intro Hge. now rewrite Rabs_right in Hrad by now apply Rle_ge.
Qed.

(** The theorem at the three-unit model with [rho' = 2]. *)
Lemma set_rho_spectral_radius_witness :
  spectral_radius (ESN.M (ESN.set_rho 2 Demo.s3)) (Rabs 2) /\
  (0 <= 2 -> spectral_radius (ESN.M (ESN.set_rho 2 Demo.s3)) 2).
Proof.
  apply (set_rho_spectral_radius Demo.E3 Demo.s3
           (RtoC (Demo.trace Demo.raw3)) 2).
  - reflexivity.
  - exact SingleEntry.dominant_raw3.
  - rewrite SingleEntry.Cmod_trace_raw3. lra.
  - reflexivity.
Defined.

(** C1 as it is written fails for a negative rho: at the three-unit
    model every hypothesis of the claim holds, and after
    [self.rho = -1] the spectral radius of the reservoir matrix is not
    [-1]. *)
Lemma set_rho_negative_counterexample :
  eigs Demo.E3 (sp_random Demo.E3 3 3 (1 / 9) (random_seed Demo.E3 1))
    = inr (RtoC (Demo.trace Demo.raw3)) /\
  dominant (sp_random Demo.E3 3 3 (1 / 9) (random_seed Demo.E3 1))
           (RtoC (Demo.trace Demo.raw3)) /\
  Cmod (RtoC (Demo.trace Demo.raw3)) <> 0 /\
  ESN.init Demo.E3 3 (1 / 9) 1 (9 / 10) 1 1 1 1 = inr Demo.s3 /\
  ~ spectral_radius (ESN.M (ESN.set_rho (-1) Demo.s3)) (-1).
Proof.
  split; [reflexivity |].
  split; [exact SingleEntry.dominant_raw3 |].
  split; [rewrite SingleEntry.Cmod_trace_raw3; lra |].
  split; [reflexivity |].
  intro H. apply SpectrumFacts.spectral_radius_nonneg in H. lra.
Qed.

(* ================================================================== *)
(** * The design and target matrices of [train] *)

(** C2, as the code has it.  For every [i] from [t_listen] to [T-2] the
    loop stores the feature map of the trajectory state at index [i+1] in
    column [i+1-t_listen] of the design matrix, and the same column of
    the target matrix is the data row at index [i+1]: features and
    targets are paired at the same time index. *)
Theorem design_target_alignment (s : ESN.obj) (traj : list vec) (data : mat)
    (T t_listen i : nat) :
  length data = T ->
  Forall (fun r => length r = ncols data) data ->
  length traj = T ->
  Forall (fun r => length r = ESN.N s) traj ->
  (t_listen <= i)%nat -> (i + 2 <= T)%nat ->
  col (ESN.design_index t_listen i) (ESN.design_matrix s traj T t_listen)
    = ESN.q s (row traj (i + 1)) /\
  col (ESN.design_index t_listen i) (ESN.target_matrix data t_listen)
    = row data (i + 1).
Proof.
  intros Hd Hrect Ht Hrows Hlo Hhi. split.
  - now apply TrainFacts.design_col.
  - rewrite TrainFacts.target_col; trivial.
    + f_equal. unfold ESN.design_index. lia.
    + unfold ESN.design_index. lia.
Qed.

(** The theorem inside [train(data2, t2, 0)] on the three-unit model. *)
Lemma design_target_alignment_witness :
  col (ESN.design_index 0 0)
      (ESN.design_matrix Demo.s3_listening Demo.traj2 2 0)
    = ESN.q Demo.s3_listening (row Demo.traj2 1) /\
  col (ESN.design_index 0 0) (ESN.target_matrix Demo.data2 0)
    = row Demo.data2 1.
Proof.
  apply (design_target_alignment Demo.s3_listening Demo.traj2 Demo.data2
           2 0 0).
  - reflexivity.
  - repeat constructor.
  - reflexivity.
  - repeat constructor.
  - lia.
  - lia.
Defined.

(** C2 as it is written fails: inside [train(data2, t2, 0)] the column
    that holds the feature map of state 1 is paired with data row 1,
    which is [[2]], and not with data row 0, which is [[1]]. *)
Lemma one_step_ahead_counterexample :
  ~ (forall i : nat, (0 <= i)%nat -> (i + 2 <= 2)%nat ->
       col (ESN.design_index 0 i)
           (ESN.design_matrix Demo.s3_listening Demo.traj2 2 0)
         = ESN.q Demo.s3_listening (row Demo.traj2 (i + 1)) /\
       col (ESN.design_index 0 i) (ESN.target_matrix Demo.data2 0)
         = row Demo.data2 i).
Proof.
  intro H. destruct (H 0%nat) as [_ HY]; try lia.
  simpl in HY. unfold vget in HY. simpl in HY.
  injection HY as HY. lra.
Qed.

(** C10.  In a call of [train] with [t_listen < T-1] the loop assigns
    exactly the columns [1 .. T-1-t_listen] of the design matrix, whose
    shape is [(2N, T-t_listen)]; column 0 keeps the zeros it was created
    with, whatever the trajectory, and column 0 of the target matrix is
    the data row at index [t_listen]. *)
Theorem design_column_zero (s : ESN.obj) (traj : list vec) (data : mat)
    (T t_listen : nat) :
  (t_listen < T - 1)%nat ->
  length data = T ->
  Forall (fun r => length r = ncols data) data ->
  map (ESN.design_index t_listen) (range t_listen (T - 1))
    = seq 1 (T - 1 - t_listen) /\
  shaped (2 * ESN.N s) (T - t_listen)
         (ESN.design_matrix s traj T t_listen) /\
  col 0 (ESN.design_matrix s traj T t_listen) = zeros (2 * ESN.N s) /\
  col 0 (ESN.target_matrix data t_listen) = row data t_listen.
Proof.
  intros Hlt Hd Hrect.
  split; [apply TrainFacts.design_indices |].
  split; [apply TrainFacts.design_shaped |].
  split; [apply TrainFacts.design_col_0 |].
  rewrite TrainFacts.target_col; trivial.
  - f_equal. lia.
  - lia.
Qed.

(** The theorem inside [train(data2, t2, 0)] on the three-unit model. *)
Lemma design_column_zero_witness :
  map (ESN.design_index 0) (range 0 (2 - 1)) = seq 1 (2 - 1 - 0) /\
  shaped (2 * ESN.N Demo.s3_listening) (2 - 0)
         (ESN.design_matrix Demo.s3_listening Demo.traj2 2 0) /\
  col 0 (ESN.design_matrix Demo.s3_listening Demo.traj2 2 0)
    = zeros (2 * ESN.N Demo.s3_listening) /\
  col 0 (ESN.target_matrix Demo.data2 0) = row Demo.data2 0.
Proof.
  apply (design_column_zero Demo.s3_listening Demo.traj2 Demo.data2 2 0).
  - simpl. lia.
  - reflexivity.
  - repeat constructor.
Defined.

(* ================================================================== *)
(** * The readout weights of [train] *)

(** C3.  Let [X] and [Y] be the design and target matrices that
    [train(data, t, t_listen)] assembles, let [G] be the matrix
    [X X^T + beta I], whose entry [(i, j)] is the sum over the columns
    [k] of [X[i,k] * X[j,k]], plus [beta] on the diagonal, and let
    [np.linalg.inv] answer on [G] as it promises.  Data and grid have
    equal lengths and the listening trajectory has at least one state.
    If [G] is invertible the call returns the trajectory and stores
    [W_out = Y X^T B] for the inverse [B] of [G].  If [G] is not
    invertible the call raises [LinAlgError] and the readout weights are
    the ones the object had before. *)
Theorem train_ridge_regression (F : ESN.fields) (E : Env) (data : mat)
    (t : list R) (t_listen : nat) (self : ESN.obj) :
  let s1 := match ESN.u self with
            | None => ESN.with_u (ESN.spline E self data t) self
            | Some _ => self
            end in
  let N := ESN.N self in
  let T := length t in
  let LR_traj := odeint E (ESN.listening F s1) (zeros N) t in
  let X := ESN.design_matrix s1 LR_traj T t_listen in
  let Y := ESN.target_matrix data t_listen in
  let X_T := transpose (T - t_listen) X in
  let G := madd (matmul (2 * N) X X_T)
                (scale (ESN.beta self) (identity (2 * N))) in
  (t_listen <= T)%nat ->
  length data = T ->
  LR_traj <> [] ->
  inv_answer (2 * N) G (linalg_inv E G) ->
  (forall i j, (i < 2 * N)%nat -> (j < 2 * N)%nat ->
     Sums.entry G i j
     = Sums.total (fun k => Sums.entry X i k * Sums.entry X j k)
         (seq 0 (T - t_listen))
       + (if (i =? j)%nat then ESN.beta self else 0)) /\
  (invertible (2 * N) G ->
   exists B,
     is_inverse (2 * N) G B /\
     fst (ESN.train F E data t t_listen self) = inr LR_traj /\
     ESN.W_out (snd (ESN.train F E data t t_listen self))
     = Some (matmul (2 * N) (matmul (2 * N) Y X_T) B)) /\
  (~ invertible (2 * N) G ->
   fst (ESN.train F E data t t_listen self) = inl LinAlgError /\
   ESN.W_out (snd (ESN.train F E data t t_listen self)) = ESN.W_out self).
Proof.
  intros s1 N T LR_traj X Y X_T G HT Hdata Hne Hinv.
  assert (Hs1 : ESN.N s1 = N /\ ESN.beta s1 = ESN.beta self /\
                ESN.W_out s1 = ESN.W_out self).
  { unfold s1. destruct (ESN.u self); repeat split; reflexivity. }
  destruct Hs1 as (HN & Hbeta & Hw).
  assert (HX : shaped (2 * N) (T - t_listen) X).
  { unfold X. rewrite <- HN. apply TrainFacts.design_shaped. }
  split; [| split].
  - intros i j Hi Hj. unfold G.
    rewrite (EntryFacts.entry_madd (2 * N) (2 * N)); trivial.
    + rewrite EntryFacts.entry_scale, EntryFacts.entry_identity by assumption.
      rewrite EntryFacts.entry_matmul by (destruct HX; lia || assumption).
      unfold X_T. rewrite NpFacts.col_transpose
        by (apply (EntryFacts.row_in (2 * N)); assumption).
      rewrite EntryFacts.dot_total
        by (rewrite !(EntryFacts.row_in (2 * N) (T - t_listen)); trivial).
      rewrite (EntryFacts.row_in (2 * N) (T - t_listen)) by assumption.
      unfold Sums.entry. destruct (i =? j)%nat; ring.
    + pose proof (shaped_matmul (2 * N) X X_T) as H.
      destruct HX as [HXn _]. now rewrite HXn in H.
    + apply EtaZero.shaped_scale. apply shaped_identity.
  - intro Hinvt.
    assert (HG : ESN.ridge_matrix s1 X T t_listen = G).
    { unfold ESN.ridge_matrix, G, X_T. now rewrite HN, Hbeta. }
    unfold ESN.train. fold s1. rewrite HN. fold N T LR_traj X Y X_T.
    rewrite HG.
    replace (T <? t_listen)%nat with false
      by (symmetry; apply Nat.ltb_ge; exact HT).
    unfold ESN.np_matmul. rewrite Hdata, Nat.eqb_refl.
    unfold inv_answer in Hinv.
    destruct (linalg_inv E G) as [e | B].
    + destruct Hinv as [_ Hsing]. contradiction.
    + exists B. split; [exact Hinv |].
      destruct LR_traj as [| r0 rest]; [contradiction |].
      split; reflexivity.
  - intro Hsing.
    assert (HG : ESN.ridge_matrix s1 X T t_listen = G).
    { unfold ESN.ridge_matrix, G, X_T. now rewrite HN, Hbeta. }
    unfold ESN.train. fold s1. rewrite HN. fold N T LR_traj X Y X_T.
    rewrite HG.
    replace (T <? t_listen)%nat with false
      by (symmetry; apply Nat.ltb_ge; exact HT).
    unfold ESN.np_matmul. rewrite Hdata, Nat.eqb_refl.
    unfold inv_answer in Hinv.
    destruct (linalg_inv E G) as [e | B].
    + destruct Hinv as [-> _]. split; [reflexivity | exact Hw].
    + exfalso. apply Hsing. now exists B.
Qed.

(** With [t_listen = T - 1] the design matrix is a single column of
    zeros, and with [beta = 1] the ridge matrix is the identity. *)
Lemma ridge_identity :
  ESN.ridge_matrix Demo.s3_listening
    (ESN.design_matrix Demo.s3_listening Demo.traj2 2 1) 2 1
  = identity 6.
Proof.
  unfold ESN.ridge_matrix, ESN.design_matrix, madd, matmul, transpose,
    identity, unit_vec, scale, vscale, col, vget.
  simpl. entrywise; ring.
Qed.

(** The theorem at [train(data2, t2, 0)] on the three-unit model in
    [E3r]: the second column of [X] is the feature map of the state
    [tanh(1/2)] of every unit, so [G] is the identity plus a matrix of
    rank one and has an inverse.  And at [train(data2, t2, 1)] on the
    model with [beta = 0]: [G] is the zero matrix and the call raises
    [LinAlgError]. *)
Lemma train_ridge_regression_witness :
  (exists B,
     is_inverse 6
       (madd (matmul 6
                (ESN.design_matrix
                   (ESN.with_u (ESN.spline Ridge.E3r Ridge.s3r Demo.data2
                                  Demo.t2) Ridge.s3r)
                   Ridge.traj2r 2 0)
                (transpose 2
                   (ESN.design_matrix
                      (ESN.with_u (ESN.spline Ridge.E3r Ridge.s3r Demo.data2
                                     Demo.t2) Ridge.s3r)
                      Ridge.traj2r 2 0)))
             (scale 1 (identity 6))) B /\
     fst (ESN.train ESN.own_fields Ridge.E3r Demo.data2 Demo.t2 0 Ridge.s3r)
     = inr Ridge.traj2r /\
     ESN.W_out
       (snd (ESN.train ESN.own_fields Ridge.E3r Demo.data2 Demo.t2 0
               Ridge.s3r))
     = Some (matmul 6
               (matmul 6 (ESN.target_matrix Demo.data2 0)
                  (transpose 2
                     (ESN.design_matrix
                        (ESN.with_u (ESN.spline Ridge.E3r Ridge.s3r
                                       Demo.data2 Demo.t2) Ridge.s3r)
                        Ridge.traj2r 2 0)))
               B)) /\
  (Sums.entry
     (ESN.design_matrix
        (ESN.with_u (ESN.spline Ridge.E3r Ridge.s3r Demo.data2 Demo.t2)
           Ridge.s3r)
        Ridge.traj2r 2 0) 0 1 = tanh (1 / 2) /\
   0 < tanh (1 / 2)) /\
  fst (ESN.train ESN.own_fields Demo.E3 Demo.data2 Demo.t2 1 Ridge.s3_beta0)
  = inl LinAlgError.
Proof.
  split; [| split].
  2: { split; [| exact RidgeFacts.tanh_half_pos].
       rewrite RidgeFacts.design_s3r, RidgeFacts.state_s3r. reflexivity. }
  - destruct (RidgeFacts.rank_one_answer
                (vget (row Ridge.traj2r 1) 0) (vget (row Ridge.traj2r 1) 1)
                (vget (row Ridge.traj2r 1) 2)
                (vget (row Ridge.traj2r 1) 0 ^ 2)
                (vget (row Ridge.traj2r 1) 1 ^ 2)
                (vget (row Ridge.traj2r 1) 2 ^ 2)) as [Hinv Hans].
    cbv zeta in Hinv, Hans. rewrite <- RidgeFacts.design_s3r in Hinv, Hans.
    set (Gd := madd (matmul 6 _ _) (scale 1 (identity 6))) in Hinv, Hans.
    destruct (train_ridge_regression ESN.own_fields Ridge.E3r Demo.data2
                Demo.t2 0 Ridge.s3r) as (_ & Hret & _).
    + simpl. lia.
    + reflexivity.
    + discriminate.
    + change (inv_answer 6 Gd (Ridge.rank_one_inv Gd)).
      rewrite Hans. exact Hinv.
    + apply Hret. change (invertible 6 Gd). eexists. exact Hinv.
  - pose (Gz :=
            madd (matmul 6
                    (ESN.design_matrix
                       (ESN.with_u
                          (ESN.spline Demo.E3 Ridge.s3_beta0 Demo.data2
                             Demo.t2) Ridge.s3_beta0)
                       Demo.traj2 2 1)
                    (transpose 1
                       (ESN.design_matrix
                          (ESN.with_u
                             (ESN.spline Demo.E3 Ridge.s3_beta0 Demo.data2
                                Demo.t2) Ridge.s3_beta0)
                          Demo.traj2 2 1)))
                 (scale 0 (identity 6))).
    assert (Hz : Gz = zeros2 6 6) by exact RidgeFacts.ridge_beta0.
    destruct (train_ridge_regression ESN.own_fields Demo.E3 Demo.data2
                Demo.t2 1 Ridge.s3_beta0) as (_ & _ & Hsing).
    + simpl. lia.
    + reflexivity.
    + discriminate.
    + change (inv_answer 6 Gz (Demo.diag_inv Gz)).
      rewrite Hz. unfold Demo.diag_inv.
      change (Demo.diagonal (zeros2 6 6)) with [0; 0; 0; 0; 0; 0].
      cbn [existsb]. rewrite RidgeFacts.is_zero_0. cbn [orb inv_answer raise].
      split; [reflexivity | exact RidgeFacts.zero_singular].
    + apply Hsing. change (~ invertible 6 Gz). rewrite Hz.
      exact RidgeFacts.zero_singular.
Defined.

(* ================================================================== *)
(** * The raw input matrix *)

(** C4 at a failing input.  Three units, two input channels, and a
    random source whose column draw is 0 for every unit:
    [input_matrix] returns a matrix of shape [(3, 1)], not [(3, 2)]. *)
Theorem input_matrix_width_below_d :
  exists W : mat,
    ESN.input_matrix Demo.E3 3 2 1 = inr W /\
    shaped 3 1 W /\ ~ shaped 3 2 W.
Proof.
  eexists. split; [reflexivity |]. split.
  - split; [reflexivity | repeat constructor].
  - intros [_ H]. inversion H as [| ? ? Hlen _]. discriminate Hlen.
Qed.

(* ================================================================== *)
(** * The renormalization modes of [hebb_learn_vector] *)

(** C5, as the code has it.  Let the eigensolver answer every call,
    with [ev A] on [A].  With [scale_M] other than 1 and 2 the
    eigensolver is never called and the decayed matrix is stored as it
    is.  With [scale_M == 1] it is called exactly once, on the decayed
    matrix after all epochs, and that matrix is stored multiplied by
    [rho / |ev|].  With [scale_M == 2] it is called after every single
    decay step, [epochs * len(steps)] times in all, and the working
    matrix is renormalized after each step. *)
Theorem hebb_learn_vector_modes (F : ESN.fields) (E : Env) (ev : mat -> C)
    (data : mat) (t : list R) (t_listen : nat) (reset_M : bool)
    (scale_M : nat) (self : AHESN.obj) :
  (forall A, eigs E A = inr (ev A)) ->
  let b2 := fst (AHESN.listen F E data t reset_M self) in
  let x := snd (AHESN.listen F E data t reset_M self) in
  let steps := range t_listen (length data - 1) in
  let plain := Loop.sweep (AHESN.decay (AHESN.eta self) x)
                 (AHESN.epochs self) steps (ESN.M b2) in
  let w := Loop.sweep
             (Reading.rescaled_step ev (ESN.rho b2) (AHESN.eta self) x)
             (AHESN.epochs self) steps (ESN.M b2, []) in
  let out := AHESN.hebb_learn_vector F E data t t_listen reset_M scale_M
               self in
  (scale_M <> 1%nat -> scale_M <> 2%nat ->
   out = (inr [], AHESN.with_base (ESN.with_M plain b2) self)) /\
  (scale_M = 1%nat ->
   out = (inr [plain],
          AHESN.with_base
            (ESN.with_M (scale (ESN.rho b2 / Cmod (ev plain)) plain) b2)
            self)) /\
  (scale_M = 2%nat ->
   out = (inr (snd w), AHESN.with_base (ESN.with_M (fst w) b2) self) /\
   length (snd w) = (AHESN.epochs self * length steps)%nat).
Proof.
  intros Hev b2 x steps plain w out.
  assert (Hplain : forall k, k <> 2%nat ->
            Loop.epochs_of
              (AHESN.vector_step E (ESN.rho b2) (AHESN.eta self) k x)
              (AHESN.epochs self) steps (ESN.M b2, [])
            = inr (plain, [])).
  { intros k Hk.
    rewrite (LoopFacts.epochs_pure (S := AHESN.work) _
               (fun t w' =>
                  (AHESN.decay (AHESN.eta self) x t (fst w'), snd w'))).
    - f_equal. unfold plain, Loop.sweep.
      generalize (seq 0 (AHESN.epochs self)) as es. intro es.
      generalize (ESN.M b2) as M0.
      induction es as [| e es IHe]; intro M0; simpl; [reflexivity |].
      assert (Hin : forall M1,
                fold_left (fun w' t' =>
                   (AHESN.decay (AHESN.eta self) x t' (fst w'), snd w'))
                  steps (M1, @nil mat)
                = (fold_left (fun M' t' =>
                     AHESN.decay (AHESN.eta self) x t' M') steps M1, [])).
      { generalize steps as l. induction l as [| t' l IHl]; intro M1;
          simpl; [reflexivity | apply IHl]. }
      rewrite Hin. apply IHe.
    - intros t' [M' calls]. unfold AHESN.vector_step.
      apply Nat.eqb_neq in Hk. rewrite Hk. reflexivity. }
  assert (Hresc :
            Loop.epochs_of
              (AHESN.vector_step E (ESN.rho b2) (AHESN.eta self) 2 x)
              (AHESN.epochs self) steps (ESN.M b2, [])
            = inr w).
  { apply LoopFacts.epochs_pure.
    intros t' [M' calls]. unfold AHESN.vector_step, AHESN.renormalize.
    simpl. rewrite Hev. reflexivity. }
  unfold out, AHESN.hebb_learn_vector.
  destruct (AHESN.listen F E data t reset_M self) as [b2' x'] eqn:Hl.
  simpl in b2, x. subst b2 x. fold steps.
  split; [| split].
  - intros H1 H2. rewrite (Hplain scale_M H2).
    apply Nat.eqb_neq in H1. rewrite H1. reflexivity.
  - intros ->. rewrite (Hplain 1%nat) by discriminate.
    simpl. rewrite Hev. reflexivity.
  - intros ->. split.
    + rewrite Hresc. simpl. destruct w as [Mw cw]. reflexivity.
    + unfold w.
      apply (LoopFacts.sweep_log (A := mat) (B := mat)
               (Reading.rescaled_step ev (ESN.rho b2') (AHESN.eta self) x')
               (AHESN.epochs self) steps (ESN.M b2', [])).
      intros t' w'. unfold Reading.rescaled_step. simpl.
      rewrite length_app. simpl. lia.
Qed.

(** The theorem at [hebb_learn_vector(data3, t3, 0, True, 2)] on the
    three-unit model, whose eigensolver always answers. *)
Lemma hebb_learn_vector_modes_witness :
  exists calls : list mat,
    fst (AHESN.hebb_learn_vector AHESN.own_fields Demo.E3 Demo.data3 Demo.t3
           0 true 2 (Demo.h3 (9 / 10) 0 1)) = inr calls /\
    length calls = 2%nat.
Proof.
  destruct (hebb_learn_vector_modes AHESN.own_fields Demo.E3 Demo.ev
              Demo.data3 Demo.t3 0 true 2 (Demo.h3 (9 / 10) 0 1))
    as (_ & _ & H2).
  - intro A. reflexivity.
  - destruct (H2 eq_refl) as [Hout Hlen].
    eexists. split.
    + rewrite Hout. reflexivity.
    + exact Hlen.
Defined.

(** C5 as it is written fails for mode 2: one epoch over three samples
    has two decay steps, and [hebb_learn_vector(data3, t3, 0, True, 2)]
    calls the eigensolver twice, once after each step, not once for the
    epoch. *)
Lemma renormalize_per_epoch_counterexample :
  AHESN.epochs (Demo.h3 (9 / 10) 0 1) = 1%nat /\
  exists calls : list mat,
    fst (AHESN.hebb_learn_vector AHESN.own_fields Demo.E3 Demo.data3 Demo.t3
           0 true 2 (Demo.h3 (9 / 10) 0 1)) = inr calls /\
    length calls = 2%nat /\
    length calls <> AHESN.epochs (Demo.h3 (9 / 10) 0 1).
Proof.
  split; [reflexivity |].
  eexists. split; [reflexivity |]. split; [reflexivity |].
  simpl. lia.
Qed.

(* ================================================================== *)
(** * Normalized Hebbian adaptation *)

(** C6 at a failing input.  [norm_hebb_learn] takes the norms of the
    columns ([axis=0]) but multiplies by [diag(1 / norms)] from the
    left, which divides row [i] by the norm of column [i] and
    normalizes nothing.  On the three-unit model of rank one, with
    [rho = 1] and learning rate 0, whose raw adjacency has trace one
    and is its own normalization, the single step of
    [norm_hebb_learn(data2, t2, 0)] leaves a working matrix that is not
    the column-normalized one and whose second column does not have
    norm one; the matrix stored at the end is that matrix, and it has
    the eigenvalue [7/5], so its spectral radius is not [rho]. *)
Theorem norm_hebb_learn_scales_rows :
  ESN.rho (AHESN.base Demo.h3b) = 1 /\
  AHESN.norm_step 3 0 Demo.x2 0 (ESN.M_orig (AHESN.base Demo.h3b))
  = [[8 / 10; 16 / 10; 16 / 10]; [3 / 10; 6 / 10; 6 / 10]; [0; 0; 0]] /\
  Reading.column_normalized 3
    (AHESN.decay 0 Demo.x2 0 (ESN.M_orig (AHESN.base Demo.h3b)))
  = [[8 / 10; 8 / 10; 8 / 10]; [6 / 10; 6 / 10; 6 / 10]; [0; 0; 0]] /\
  norm2 (col 1 (AHESN.norm_step 3 0 Demo.x2 0
                  (ESN.M_orig (AHESN.base Demo.h3b)))) <> 1 /\
  ESN.M (AHESN.base
           (AHESN.norm_hebb_learn AHESN.own_fields Demo.E3b Demo.data2
              Demo.t2 0 true Demo.h3b))
  = [[8 / 10; 16 / 10; 16 / 10]; [3 / 10; 6 / 10; 6 / 10]; [0; 0; 0]] /\
  ~ spectral_radius
      (ESN.M (AHESN.base
                (AHESN.norm_hebb_learn AHESN.own_fields Demo.E3b Demo.data2
                   Demo.t2 0 true Demo.h3b)))
      (ESN.rho (AHESN.base Demo.h3b)).
Proof.
  split; [reflexivity |]. split; [| split; [| split; [| split]]].
  - rewrite RankOne.M_orig_h3b. apply RankOne.norm_step_raw3b.
  - rewrite RankOne.M_orig_h3b, RankOne.decay_0_raw3b.
    apply RankOne.column_normalized_raw3b.
  - rewrite RankOne.M_orig_h3b, RankOne.norm_step_raw3b.
    exact RankOne.col_norm_stored.
  - fold Demo.h3b_adapted. apply RankOne.stored_h3b.
  - fold Demo.h3b_adapted. rewrite RankOne.stored_h3b.
    change (ESN.rho (AHESN.base Demo.h3b)) with 1.
    intros [_ Hmax].
    specialize (Hmax _ RankOne.eigenvalue_stored).
    rewrite SpectrumFacts.Cmod_RtoC, Rabs_right in Hmax; lra.
Qed.

(* ================================================================== *)
(** * Anti-Hebbian adaptation with learning rate zero *)




(* ================================================================== *)
(** * Intrinsic plasticity with learning rate zero *)

(** C8, as the code has it.  Let [nu = 0] and the target spread be
    non-zero, let no entry of the gain be zero, let gain and bias have
    one entry per unit, and let the integrator return one state of
    dimension [N] per grid point.  Then [IP_train] completes within the
    real numbers and leaves the gain vector [a] and the bias vector [b]
    unchanged, for any number of epochs. *)
Theorem IP_train_nu_zero (E : Env) (data : mat) (t_points : list R)
    (epochs : nat) (rescale : bool) (self : IPESN.obj) :
  let N := ESN.N (IPESN.esn self) in
  IPESN.nu self = 0 ->
  IPESN.sd self <> 0 ->
  Forall (fun ai => ai <> 0) (IPESN.a self) ->
  length (IPESN.a self) = N ->
  length (IPESN.b self) = N ->
  Reading.trajectory_ok N (length t_points)
    (snd (IPESN.listen E data t_points rescale self)) ->
  exists out,
    IPESN.IP_train E data t_points epochs rescale self = Some out /\
    IPESN.a out = IPESN.a self /\
    IPESN.b out = IPESN.b self.
Proof.
  intros N Hnu Hsd Hnz Ha Hb Hx. unfold IPESN.IP_train.
  destruct (IPESN.listen E data t_points rescale self) as [e2 x].
  simpl in Hx.
  set (z := map _ (seq 0 (length t_points))).
  assert (Hstep : forall t, In t (range 0 (length t_points)) ->
            IPESN.ip_update self x z t (IPESN.a self, IPESN.b self)
            = (IPESN.a self, IPESN.b self)).
  { intros t Ht. apply in_seq in Ht.
    apply NuZero.ip_update_0; trivial.
    - rewrite Ha. apply (EtaZero.row_length N (length t_points)); trivial.
      lia.
    - congruence. }
  rewrite (LoopFacts.epochs_opt_some
             (fun ab => ab = (IPESN.a self, IPESN.b self))
             (IPESN.ip_step self x z) (IPESN.ip_update self x z)).
  - rewrite LoopFacts.sweep_fixed by exact Hstep.
    eexists. split; [reflexivity |]. split; reflexivity.
  - intros t ab Ht ->. split.
    + now apply NuZero.ip_step_nonzero.
    + now apply Hstep.
  - reflexivity.
Qed.

(** The theorem at the three-unit model with [nu = 0], four epochs over
    [data3] and [t3]. *)
Lemma IP_train_nu_zero_witness :
  exists out,
    IPESN.IP_train Demo.E3 Demo.data3 Demo.t3 4 true (Demo.ip3 0) = Some out /\
    IPESN.a out = IPESN.a (Demo.ip3 0) /\
    IPESN.b out = IPESN.b (Demo.ip3 0).
Proof.
  apply (IP_train_nu_zero Demo.E3 Demo.data3 Demo.t3 4 true (Demo.ip3 0)).
  - reflexivity.
  - simpl. lra.
  - repeat constructor; simpl; lra.
  - reflexivity.
  - reflexivity.
  - split; [reflexivity | repeat constructor].
Defined.

(** C8 as it is written fails at a gain with a zero entry, which is a
    finite gain.  On the three-unit model with [nu = 0], non-zero
    target spread and the gain [[0, 1, 1]], the first pass of
    [IP_train(data3, t3, 1)] computes [nu / a = 0 / 0] for the first
    unit and adds it to the gain: the gain is not unchanged. *)
Lemma IP_train_zero_gain_counterexample :
  IPESN.nu ZeroGain.ip0 = 0 /\
  IPESN.sd ZeroGain.ip0 <> 0 /\
  length (IPESN.a ZeroGain.ip0) = ESN.N (IPESN.esn ZeroGain.ip0) /\
  length (IPESN.b ZeroGain.ip0) = ESN.N (IPESN.esn ZeroGain.ip0) /\
  IPESN.IP_train Demo.E3 Demo.data3 Demo.t3 1 true ZeroGain.ip0 = None /\
  ~ (exists out,
       IPESN.IP_train Demo.E3 Demo.data3 Demo.t3 1 true ZeroGain.ip0
       = Some out /\
       IPESN.a out = IPESN.a ZeroGain.ip0).
Proof.
  assert (H : IPESN.IP_train Demo.E3 Demo.data3 Demo.t3 1 true ZeroGain.ip0
              = None).
  { apply NuZero.IP_train_zero_gain.
    - now left.
    - lia.
    - discriminate. }
  split; [reflexivity |]. split; [simpl; lra |].
  split; [reflexivity |]. split; [reflexivity |].
  split; [exact H |].
  intros [out [Hs _]]. rewrite H in Hs. discriminate Hs.
Qed.

(* ================================================================== *)
(** * The driving interpolant *)

(** C9, as the code has it.  [predict] with data stores the interpolant
    of that data and grid, and [predict] without data keeps the stored
    one.  [train] stores the interpolant of its data and grid only when
    the object has none; an object that has one keeps it, although data
    is passed.  The adaptation procedures always store a new one. *)
Theorem interpolant_policy (F : ESN.fields) (E : Env) (self : ESN.obj) :
  (forall data t t_listen,
     ESN.u (snd (ESN.train F E data t t_listen self))
     = match ESN.u self with
       | None => Some (ESN.spline E self data t)
       | Some f => Some f
       end) /\
  (forall t_predict data t,
     ESN.u (snd (ESN.predict F E t_predict (Some (data, t)) self))
     = Some (ESN.spline E self data t)) /\
  (forall t_predict,
     ESN.u (snd (ESN.predict F E t_predict None self)) = ESN.u self) /\
  (forall data t reset eta epochs,
     ESN.u (fst (AHESN.listen F E data t reset (AHESN.mk self eta epochs)))
     = Some (ESN.spline E self data t)).
Proof.
  split; [| split; [| split]].
  - intros. apply DriveFacts.train_u.
  - intros. apply DriveFacts.predict_u_fresh.
  - intros. apply DriveFacts.predict_u_none.
  - intros data t reset eta epochs. destruct reset; reflexivity.
Qed.

(** C9 as it is written fails for [train]: the three-unit model keeps, in
    a second call [train(data5, t2, 0)], the interpolant of [data2] that
    its first call [train(data2, t2, 0)] stored; at time 0 the stored
    interpolant gives [[1]] and the interpolant of [data5] gives
    [[5]]. *)
Lemma train_reuses_interpolant_counterexample :
  ESN.u Demo.s3_after = Some (ESN.spline Demo.E3 Demo.s3 Demo.data2 Demo.t2) /\
  ESN.u (snd (ESN.train ESN.own_fields Demo.E3 Demo.data5 Demo.t2 0
                Demo.s3_after))
  <> Some (ESN.spline Demo.E3 Demo.s3_after Demo.data5 Demo.t2).
Proof.
  assert (Hu : ESN.u Demo.s3_after
               = Some (ESN.spline Demo.E3 Demo.s3 Demo.data2 Demo.t2)).
  { unfold Demo.s3_after. rewrite DriveFacts.train_u. reflexivity. }
  split; [exact Hu |].
  rewrite DriveFacts.train_u, Hu.
  intro H. injection H as H.
  apply (f_equal (fun f => vget (f 0) 0)) in H.
  unfold ESN.spline, Demo.s3_after in H. rewrite DriveFacts.train_d in H.
  unfold vget in H. simpl in H.
  unfold Demo.step_splev, Demo.step_interp, vget in H. simpl in H.
  destruct (Rle_dec 0 0); lra.
Qed.

(* ================================================================== *)
(** * Further properties of [train] and [predict] *)

(** On a grid for which the integrator returns at least one state (on
    an empty trajectory the source fails at [LR_traj[-1]], after it has
    stored [W_out]), [train] changes neither the configuration nor any
    matrix of the reservoir, and a call that raises leaves the readout
    weights and the stored final state as they were. *)
Theorem train_keeps (F : ESN.fields) (E : Env) (data : mat) (t : list R)
    (t_listen : nat) (self : ESN.obj) :
  (forall f r0, odeint E f r0 t <> []) ->
  Keep.config self (snd (ESN.train F E data t t_listen self)) /\
  Keep.matrices self (snd (ESN.train F E data t t_listen self)) /\
  (forall e, fst (ESN.train F E data t t_listen self) = inl e ->
             Keep.trained self (snd (ESN.train F E data t t_listen self))).
Proof.
  intros Hne. unfold ESN.train.
  set (s1 := match ESN.u self with
             | None => ESN.with_u (ESN.spline E self data t) self
             | Some _ => self
             end).
  assert (H1 : Keep.config self s1 /\ Keep.matrices self s1 /\
               Keep.trained self s1).
  { unfold s1, Keep.config, Keep.matrices, Keep.trained.
    destruct (ESN.u self); simpl; repeat split; reflexivity. }
  destruct H1 as (Hc & Hm & Ht).
  destruct (length t <? t_listen)%nat;
    [split; [exact Hc | split; [exact Hm | intros; exact Ht]] |].
  destruct (ESN.np_matmul _ _ _ _ _);
    [split; [exact Hc | split; [exact Hm | intros; exact Ht]] |].
  destruct (linalg_inv E _);
    [split; [exact Hc | split; [exact Hm | intros; exact Ht]] |].
  destruct (odeint E (ESN.listening F s1) (zeros (ESN.N s1)) t) as [| r0 rest]
    eqn:Htraj; [exfalso; exact (Hne _ _ Htraj) |].
  split; [| split].
  - exact Hc.
  - exact Hm.
  - intros e He. discriminate He.
Qed.

(** The theorem at [train(data2, t2, 5)] on the three-unit model, a
    call that raises. *)
Lemma train_keeps_witness :
  Keep.config Demo.s3
    (snd (ESN.train ESN.own_fields Demo.E3 Demo.data2 Demo.t2 5 Demo.s3)) /\
  Keep.matrices Demo.s3
    (snd (ESN.train ESN.own_fields Demo.E3 Demo.data2 Demo.t2 5 Demo.s3)) /\
  Keep.trained Demo.s3
    (snd (ESN.train ESN.own_fields Demo.E3 Demo.data2 Demo.t2 5 Demo.s3)).
Proof.
  destruct (train_keeps ESN.own_fields Demo.E3 Demo.data2 Demo.t2 5 Demo.s3)
    as (Hc & Hm & Ht).
  - intros f r0. discriminate.
  - split; [exact Hc |]. split; [exact Hm |].
    apply (Ht ValueError). reflexivity.
Defined.

(** On an object that has an interpolant, and so fits none, and on a
    grid of at least one point, [train] raises [ValueError] from
    [np.zeros] (a negative dimension) when
    [t_listen] exceeds the number of grid points, and from the product
    of [Y] and the transposed design matrix when [t_listen] is within
    the grid but the data and the grid leave different numbers of
    samples after the washout. *)
Theorem train_value_errors (F : ESN.fields) (E : Env) (data : mat)
    (t : list R) (t_listen : nat) (self : ESN.obj) :
  ESN.u self <> None ->
  t <> [] ->
  ((length t < t_listen)%nat ->
   fst (ESN.train F E data t t_listen self) = inl ValueError) /\
  ((t_listen <= length t)%nat ->
   (length data - t_listen <> length t - t_listen)%nat ->
   fst (ESN.train F E data t t_listen self) = inl ValueError).
Proof.
  intros _ _. unfold ESN.train. split.
  - intros H. apply Nat.ltb_lt in H. now rewrite H.
  - intros H1 H2. apply Nat.ltb_ge in H1. rewrite H1.
    unfold ESN.np_matmul. apply Nat.eqb_neq in H2. now rewrite H2.
Qed.

(** The object inside [train] once the interpolant is there. *)
Lemma listening_object (E : Env) (data : mat) (t : list R) (self : ESN.obj) :
  let s1 := match ESN.u self with
            | None => ESN.with_u (ESN.spline E self data t) self
            | Some _ => self
            end in
  ESN.N s1 = ESN.N self /\ (exists f, ESN.u s1 = Some f).
Proof.
  destruct (ESN.u self) as [f |] eqn:Hu; simpl; split; trivial.
  - now exists f.
  - now exists (ESN.spline E self data t).
Qed.

(** What a call of [train] that returns has stored. *)
Lemma train_outcome (F : ESN.fields) (E : Env) (data : mat) (t : list R)
    (t_listen : nat) (self : ESN.obj) (traj : list vec) :
  fst (ESN.train F E data t t_listen self) = inr traj ->
  ESN.r_T (snd (ESN.train F E data t t_listen self)) = Some (last traj []) /\
  (exists W,
     ESN.W_out (snd (ESN.train F E data t t_listen self)) = Some W /\
     shaped (ncols data) (2 * ESN.N self) W) /\
  (exists f, ESN.u (snd (ESN.train F E data t t_listen self)) = Some f) /\
  (exists s1,
     ESN.u s1 = ESN.u (snd (ESN.train F E data t t_listen self)) /\
     Keep.config self s1 /\ Keep.matrices self s1 /\
     traj = odeint E (ESN.listening F s1) (zeros (ESN.N self)) t).
Proof.
  pose proof (listening_object E data t self) as Hobj.
  unfold ESN.train.
  set (s1 := match ESN.u self with
             | None => ESN.with_u (ESN.spline E self data t) self
             | Some _ => self
             end) in *.
  destruct Hobj as [HN [f Hf]].
  assert (Hk : Keep.config self s1 /\ Keep.matrices self s1).
  { unfold s1, Keep.config, Keep.matrices.
    destruct (ESN.u self); simpl; repeat split; reflexivity. }
  destruct (length t <? t_listen)%nat; [discriminate |].
  destruct (ESN.np_matmul _ _ _ _ _) as [e | M_1] eqn:HM1; [discriminate |].
  destruct (linalg_inv E _) as [e | M_2]; [discriminate |].
  cbv zeta.
  destruct (odeint E (ESN.listening F s1) (zeros (ESN.N s1)) t) as [| r0 rest]
    eqn:Htraj; [discriminate |].
  rewrite <- Htraj.
  simpl. intro H. injection H as <-.
  split; [reflexivity |]. split; [| split].
  - eexists. split; [reflexivity |].
    unfold ESN.np_matmul in HM1.
    destruct (_ =? _)%nat; [| discriminate]. injection HM1 as <-.
    rewrite HN.
    match goal with
    | |- shaped _ _ (matmul ?m (matmul ?m' ?A ?B) ?C) =>
        pose proof (shaped_matmul m (matmul m' A B) C) as Hs
    end.
    rewrite length_matmul in Hs.
    unfold ESN.target_matrix in Hs at 1. rewrite length_transpose in Hs.
    exact Hs.
  - exists f. exact Hf.
  - exists s1. rewrite HN. destruct Hk as [Hc Hm].
    split; [reflexivity | split; [exact Hc | split; [exact Hm | reflexivity]]].
Qed.

(** A call of [train] that returns, with a trajectory of at least one
    state, hands back the listening trajectory it integrated, stores
    the last state of that trajectory as [r_T], and stores readout
    weights of shape [(d, 2N)], where [d] is the width of the data. *)
Theorem train_success (F : ESN.fields) (E : Env) (data : mat) (t : list R)
    (t_listen : nat) (self : ESN.obj) (traj : list vec) :
  fst (ESN.train F E data t t_listen self) = inr traj ->
  traj <> [] ->
  ESN.r_T (snd (ESN.train F E data t t_listen self)) = Some (last traj []) /\
  (exists W,
     ESN.W_out (snd (ESN.train F E data t t_listen self)) = Some W /\
     shaped (ncols data) (2 * ESN.N self) W) /\
  (exists f, ESN.u (snd (ESN.train F E data t t_listen self)) = Some f) /\
  (exists s1,
     ESN.u s1 = ESN.u (snd (ESN.train F E data t t_listen self)) /\
     Keep.config self s1 /\ Keep.matrices self s1 /\
     traj = odeint E (ESN.listening F s1) (zeros (ESN.N self)) t).
Proof.
  intros Hret _. now apply train_outcome.
Qed.

(** How a call of [train] runs when the shapes fit and the inverse is
    returned. *)
Lemma train_run (F : ESN.fields) (E : Env) (data : mat) (t : list R)
    (t_listen : nat) (self : ESN.obj) (B : mat) :
  let s1 := match ESN.u self with
            | None => ESN.with_u (ESN.spline E self data t) self
            | Some _ => self
            end in
  let traj := odeint E (ESN.listening F s1) (zeros (ESN.N s1)) t in
  let X := ESN.design_matrix s1 traj (length t) t_listen in
  (t_listen <= length t)%nat ->
  (length data - t_listen = length t - t_listen)%nat ->
  traj <> [] ->
  linalg_inv E (ESN.ridge_matrix s1 X (length t) t_listen) = inr B ->
  ESN.train F E data t t_listen self
  = (inr traj,
     ESN.with_trained
       (matmul (2 * ESN.N s1)
          (matmul (2 * ESN.N s1) (ESN.target_matrix data t_listen)
             (transpose (length t - t_listen) X)) B)
       (last traj []) s1).
Proof.
  intros s1 traj X HT Hd Hne HB. unfold ESN.train.
  fold s1. fold traj. fold X.
  apply Nat.ltb_ge in HT. rewrite HT.
  unfold ESN.np_matmul. rewrite Hd, Nat.eqb_refl, HB. cbv beta iota zeta.
  destruct traj as [| r0 rest]; [contradiction | reflexivity].
Qed.

Lemma diag_inv_identity_eq :
  Demo.diag_inv (identity 6)
  = inr (diag [1 / 1; 1 / 1; 1 / 1; 1 / 1; 1 / 1; 1 / 1]).
Proof.
  unfold Demo.diag_inv.
  change (Demo.diagonal (identity 6)) with [1; 1; 1; 1; 1; 1].
  cbn [existsb]. rewrite DemoFacts.is_zero_1. reflexivity.
Qed.

(** [train(data2, t2, 1)] returns on the three-unit model. *)
Lemma train_s3_returns :
  fst (ESN.train ESN.own_fields Demo.E3 Demo.data2 Demo.t2 1 Demo.s3)
  = inr Demo.traj2.
Proof.
  rewrite (train_run ESN.own_fields Demo.E3 Demo.data2 Demo.t2 1 Demo.s3
             (diag [1 / 1; 1 / 1; 1 / 1; 1 / 1; 1 / 1; 1 / 1])).
  - reflexivity.
  - simpl. lia.
  - reflexivity.
  - discriminate.
  - change (Demo.diag_inv
              (ESN.ridge_matrix Demo.s3_listening
                 (ESN.design_matrix Demo.s3_listening Demo.traj2 2 1) 2 1)
            = inr (diag [1 / 1; 1 / 1; 1 / 1; 1 / 1; 1 / 1; 1 / 1])).
    rewrite ridge_identity. exact diag_inv_identity_eq.
Qed.

(** The theorem at [train(data2, t2, 1)] on the three-unit model. *)
Lemma train_success_witness :
  ESN.r_T (snd (ESN.train ESN.own_fields Demo.E3 Demo.data2 Demo.t2 1 Demo.s3))
  = Some (last Demo.traj2 []) /\
  exists W,
    ESN.W_out
      (snd (ESN.train ESN.own_fields Demo.E3 Demo.data2 Demo.t2 1 Demo.s3))
    = Some W /\
    shaped 1 6 W.
Proof.
  destruct (train_success ESN.own_fields Demo.E3 Demo.data2 Demo.t2 1 Demo.s3
              Demo.traj2 train_s3_returns) as (Hr & HW & _).
  - discriminate.
  - split; [exact Hr | exact HW].
Defined.

(** On the three-unit model after [train(data2, t2, 1)], when it has
    an interpolant, [train(data2, t2, 5)] and [train(data3, t2, 0)]
    raise [ValueError]. *)
Lemma train_value_errors_witness :
  fst (ESN.train ESN.own_fields Demo.E3 Demo.data2 Demo.t2 5
         (snd (ESN.train ESN.own_fields Demo.E3 Demo.data2 Demo.t2 1
                 Demo.s3)))
  = inl ValueError /\
  fst (ESN.train ESN.own_fields Demo.E3 Demo.data3 Demo.t2 0
         (snd (ESN.train ESN.own_fields Demo.E3 Demo.data2 Demo.t2 1
                 Demo.s3)))
  = inl ValueError.
Proof.
  split.
  - apply (proj1 (train_value_errors ESN.own_fields Demo.E3 Demo.data2
                    Demo.t2 5
                    (snd (ESN.train ESN.own_fields Demo.E3 Demo.data2 Demo.t2
                            1 Demo.s3))
                    ltac:(rewrite DriveFacts.train_u; discriminate)
                    ltac:(discriminate))).
    simpl. lia.
  - apply (proj2 (train_value_errors ESN.own_fields Demo.E3 Demo.data3
                    Demo.t2 0
                    (snd (ESN.train ESN.own_fields Demo.E3 Demo.data2 Demo.t2
                            1 Demo.s3))
                    ltac:(rewrite DriveFacts.train_u; discriminate)
                    ltac:(discriminate))).
    + simpl. lia.
    + simpl. lia.
Defined.

(** [predict] on a model without readout weights raises, with or
    without data, on any grid of at least one point; the configuration,
    the matrices, the readout weights and the stored state stay as they
    were. *)
Theorem predict_untrained (F : ESN.fields) (E : Env) (t_predict : list R)
    (fresh : option (mat * list R)) (self : ESN.obj) :
  ESN.W_out self = None ->
  t_predict <> [] ->
  (exists e, fst (ESN.predict F E t_predict fresh self) = inl e) /\
  Keep.config self (snd (ESN.predict F E t_predict fresh self)) /\
  Keep.matrices self (snd (ESN.predict F E t_predict fresh self)) /\
  Keep.trained self (snd (ESN.predict F E t_predict fresh self)).
Proof.
  unfold ESN.predict, Keep.config, Keep.matrices, Keep.trained.
  intros HW _.
  destruct fresh as [[data t] |].
  - cbv beta iota zeta.
    destruct (odeint E _ _ _) as [| r0 rest]; simpl; rewrite ?HW; simpl;
      (split; [now eexists |]); repeat split; auto.
  - destruct (ESN.r_T self) eqn:Hr; rewrite HW; simpl;
      (split; [now eexists |]); repeat split; auto.
Qed.

(** The theorem on the freshly constructed three-unit model. *)
Lemma predict_untrained_witness :
  (exists e,
     fst (ESN.predict ESN.own_fields Demo.E3 Demo.t2 None Demo.s3) = inl e) /\
  (exists e,
     fst (ESN.predict ESN.own_fields Demo.E3 Demo.t2
            (Some (Demo.data2, Demo.t2)) Demo.s3) = inl e).
Proof.
  split.
  - apply (predict_untrained ESN.own_fields Demo.E3 Demo.t2 None Demo.s3).
    + reflexivity.
    + discriminate.
  - apply (predict_untrained ESN.own_fields Demo.E3 Demo.t2
             (Some (Demo.data2, Demo.t2)) Demo.s3).
    + reflexivity.
    + discriminate.
Defined.

(** After a call of [train] that returned a trajectory of at least one
    state, [predict] without data
    integrates the predicting field from the last state of the training
    trajectory, returns one readout vector of dimension [d] (the width of
    the training data) per state of the predicting trajectory, and
    leaves the object as it is. *)
Theorem predict_after_train (F : ESN.fields) (E : Env) (data : mat)
    (t : list R) (t_listen : nat) (self : ESN.obj) (traj : list vec)
    (t_predict : list R) :
  fst (ESN.train F E data t t_listen self) = inr traj ->
  traj <> [] ->
  exists W,
    ESN.W_out (snd (ESN.train F E data t t_listen self)) = Some W /\
    ESN.predict F E t_predict None (snd (ESN.train F E data t t_listen self))
    = (inr (map (fun x =>
                   mat_vec W
                     (ESN.q (snd (ESN.train F E data t t_listen self)) x))
                (odeint E
                   (ESN.predicting F (snd (ESN.train F E data t t_listen self)))
                   (last traj []) t_predict)),
       snd (ESN.train F E data t t_listen self)) /\
    Forall (fun y => length y = ncols data)
      (map (fun x =>
              mat_vec W (ESN.q (snd (ESN.train F E data t t_listen self)) x))
           (odeint E
              (ESN.predicting F (snd (ESN.train F E data t t_listen self)))
              (last traj []) t_predict)).
Proof.
  intros Hret _.
  destruct (train_outcome F E data t t_listen self traj Hret)
    as (Hr & (W & HW & [HWn _]) & _).
  exists W. split; [exact HW |]. split.
  - unfold ESN.predict at 1. rewrite Hr, HW.
    unfold ESN.readout. rewrite HW. reflexivity.
  - apply Forall_forall. intros y Hy. apply in_map_iff in Hy.
    destruct Hy as (x & <- & _). unfold mat_vec. now rewrite length_map.
Qed.

(** The theorem after [train(data2, t2, 1)] on the three-unit model. *)
Lemma predict_after_train_witness :
  exists out : list vec,
    fst (ESN.predict ESN.own_fields Demo.E3 Demo.t3 None
           (snd (ESN.train ESN.own_fields Demo.E3 Demo.data2 Demo.t2 1
                   Demo.s3)))
    = inr out /\
    Forall (fun y => length y = 1%nat) out.
Proof.
  destruct (predict_after_train ESN.own_fields Demo.E3 Demo.data2 Demo.t2 1
              Demo.s3 Demo.traj2 Demo.t3 train_s3_returns)
    as (W & _ & Hp & Hd).
  - discriminate.
  - eexists. split.
    + rewrite Hp. reflexivity.
    + exact Hd.
Defined.

(** [predict] never changes the configuration, the matrices, the
    readout weights or the stored final state; without data it changes
    nothing at all.  So predictions do not chain: whatever an earlier
    [predict] did, a [predict] without data starts again from the state
    stored by [train] and returns what it would have returned before. *)
Theorem predict_keeps (E : Env) (t_predict t_predict' : list R)
    (fresh : option (mat * list R)) (self : ESN.obj) :
  Keep.config self (snd (ESN.predict ESN.own_fields E t_predict fresh self)) /\
  Keep.matrices self
    (snd (ESN.predict ESN.own_fields E t_predict fresh self)) /\
  Keep.trained self
    (snd (ESN.predict ESN.own_fields E t_predict fresh self)) /\
  snd (ESN.predict ESN.own_fields E t_predict None self) = self /\
  fst (ESN.predict ESN.own_fields E t_predict' None
         (snd (ESN.predict ESN.own_fields E t_predict fresh self)))
  = fst (ESN.predict ESN.own_fields E t_predict' None self).
Proof.
  unfold ESN.predict, Keep.config, Keep.matrices, Keep.trained.
  destruct fresh as [[data t] |]; cbv beta iota zeta;
    try (destruct (odeint E (ESN.listening _ _) _ t) as [| r0 rest]);
    destruct (ESN.r_T self) as [r |] eqn:Hr;
    destruct (ESN.W_out self) as [W |] eqn:HW;
    simpl; rewrite ?Hr, ?HW; simpl; repeat split;
    rewrite ?Hr, ?HW; try reflexivity; try congruence.
Qed.

(* ================================================================== *)
(** * Further properties of the constructors *)

(** A constructor that returns leaves an untrained object: no readout
    weights, no interpolant, no stored state; its scaled matrices are
    [rho] and [sigma] times the raw ones, which are what [adj_matrix]
    and [input_matrix] returned; and [predict] on it raises, on any
    grid of at least one point. *)
Theorem init_fresh (E : Env) (N : nat) (p : R) (d : nat)
    (rho sigma gamma beta : R) (seed : Z) (s : ESN.obj) :
  ESN.init E N p d rho sigma gamma beta seed = inr s ->
  (ESN.N s = N /\ ESN.d s = d /\ ESN.p s = p /\ ESN.seed s = seed /\
   ESN.rho s = rho /\ ESN.sigma s = sigma /\ ESN.gamma s = gamma /\
   ESN.beta s = beta) /\
  (ESN.W_out s = None /\ ESN.u s = None /\ ESN.r_T s = None) /\
  (ESN.M s = scale rho (ESN.M_orig s) /\
   ESN.W_in s = scale sigma (ESN.W_in_orig s)) /\
  (ESN.adj_matrix E N p seed = inr (ESN.M_orig s) /\
   ESN.input_matrix E N d seed = inr (ESN.W_in_orig s)) /\
  (forall F t_predict fresh,
     t_predict <> [] ->
     exists e, fst (ESN.predict F E t_predict fresh s) = inl e).
Proof.
  unfold ESN.init, bind.
  destruct (ESN.input_matrix E N d seed) as [e | W]; [discriminate |].
  destruct (ESN.adj_matrix E N p seed) as [e | A]; [discriminate |].
  unfold ret. intro H. injection H as <-. simpl.
  repeat split.
  intros F t_predict [[data t] |] _; [| now eexists].
  unfold ESN.predict. cbv beta iota zeta.
  destruct (odeint E _ _ _); now eexists.
Qed.

(** The theorem at the three-unit model. *)
Lemma init_fresh_witness :
  ESN.W_out Demo.s3 = None /\
  ESN.M Demo.s3 = scale (9 / 10) (ESN.M_orig Demo.s3) /\
  exists e,
    fst (ESN.predict ESN.own_fields Demo.E3 Demo.t2 None Demo.s3) = inl e.
Proof.
  destruct (init_fresh Demo.E3 3 (1 / 9) 1 (9 / 10) 1 1 1 1 Demo.s3 eq_refl)
    as (_ & (HW & _) & (HM & _) & _ & Hp).
  split; [exact HW |]. split; [exact HM |]. apply Hp. discriminate.
Defined.

(** A model with no units cannot be constructed: whatever the random
    source returns, every constructor raises [ValueError], because
    [coo_matrix] gets no row index to infer a shape from. *)
Theorem init_no_units (E : Env) (p : R) (d : nat)
    (rho sigma gamma beta nu mu sd eta : R) (epochs : nat) (seed : Z) :
  ESN.init E 0 p d rho sigma gamma beta seed = inl ValueError /\
  AHESN.init E 0 p d rho sigma gamma beta eta epochs seed = inl ValueError /\
  IPESN.init E 0 p d rho sigma gamma beta nu mu sd eta epochs seed
  = inl ValueError.
Proof.
  assert (H : ESN.input_matrix E 0 d seed = inl ValueError).
  { unfold ESN.input_matrix.
    destruct (randint_rvs E 0 d 0 (random_seed E seed)) as [cols g'].
    destruct (uniform_rvs E (-1) 2 0 g') as [values g''].
    unfold Coo.coo_matrix.
    destruct values as [| v values], cols as [| c cols]; reflexivity. }
  assert (H0 : ESN.init E 0 p d rho sigma gamma beta seed = inl ValueError).
  { unfold ESN.init, bind. now rewrite H. }
  unfold IPESN.init, AHESN.init, bind. rewrite H0. repeat split.
Qed.

(** When the eigensolver does not converge on the random matrix, every
    constructor raises its exception and no object is built. *)
Theorem init_eigs_failure (E : Env) (N : nat) (p : R) (d : nat)
    (rho sigma gamma beta nu mu sd eta : R) (epochs : nat) (seed : Z)
    (W : mat) (e : exn) :
  ESN.input_matrix E N d seed = inr W ->
  eigs E (sp_random E N N p (random_seed E seed)) = inl e ->
  ESN.init E N p d rho sigma gamma beta seed = inl e /\
  AHESN.init E N p d rho sigma gamma beta eta epochs seed = inl e /\
  IPESN.init E N p d rho sigma gamma beta nu mu sd eta epochs seed = inl e.
Proof.
  intros HW He.
  assert (H0 : ESN.init E N p d rho sigma gamma beta seed = inl e).
  { unfold ESN.init, ESN.adj_matrix, bind. now rewrite HW, He. }
  unfold IPESN.init, AHESN.init, bind. rewrite H0. repeat split.
Qed.

(** The theorem in the environment whose eigensolver never
    converges. *)
Lemma init_eigs_failure_witness :
  ESN.init Stall.E_never 3 (1 / 9) 1 (9 / 10) 1 1 1 1
  = inl ArpackNoConvergence.
Proof.
  destruct (init_eigs_failure Stall.E_never 3 (1 / 9) 1 (9 / 10) 1 1 1
              0 0 1 0 0 1
              (ESN.W_in_orig Demo.s3) ArpackNoConvergence eq_refl eq_refl)
    as [H _].
  exact H.
Defined.

(* ================================================================== *)
(** * Further properties of the intrinsic-plasticity model *)

Module GainFacts.

Lemma all_zero_zeros (n : nat) : all_zero (zeros n).
Proof.
  unfold all_zero, zeros. apply Forall_forall. intros y Hy.
  now apply repeat_spec in Hy.
Qed.

Lemma length_zeros (n : nat) : length (zeros n) = n.
Proof. apply repeat_length. Qed.

Lemma length_mat_vec (A : mat) (v : vec) : length (mat_vec A v) = length A.
Proof. apply length_map. Qed.

(** [np.diag(v) @ A] for a matrix that need not be square. *)
Lemma matmul_diag_rect (n m : nat) (v : vec) (A : mat) :
  length v = n -> shaped n m A -> matmul m (diag v) A = row_scale v A.
Proof.
  intros Hv [Hn HA]. rewrite (StepFacts.row_scale_seq n) by assumption.
  unfold matmul, diag. rewrite map_map, Hv.
  apply map_ext_in. intros i Hi. apply in_seq in Hi.
  transitivity (map (fun j => vget v i * vget (row A i) j) (seq 0 m)).
  - apply map_ext. intro j. rewrite StepFacts.dot_unit_vec by lia.
    now rewrite NpFacts.vget_col.
  - assert (Hr : length (row A i) = m).
    { rewrite Forall_forall in HA. apply HA. apply nth_In. lia. }
    symmetry. unfold vscale.
    transitivity (map (Rmult (vget v i))
                      (map (fun j => vget (row A i) j) (seq 0 m))).
    + rewrite <- Hr. now rewrite NpFacts.map_vget_seq.
    + apply map_map.
Qed.

Lemma row_scale_ones (A : mat) : row_scale (repeat 1 (length A)) A = A.
Proof.
  induction A as [| r A IH]; simpl; [reflexivity |].
  rewrite IH. f_equal. unfold vscale.
  rewrite <- (map_id r) at 2. apply map_ext. intro y. ring.
Qed.

(** A pass through the loop body of [IP_train] keeps the lengths of the
    gain and the bias. *)
Lemma ip_update_lengths (self : IPESN.obj) (x z : list vec) (t n : nat)
    (ab : vec * vec) :
  length (row x t) = n -> length (fst ab) = n -> length (snd ab) = n ->
  length (fst (IPESN.ip_update self x z t ab)) = n /\
  length (snd (IPESN.ip_update self x z t ab)) = n.
Proof.
  destruct ab as [a b]. simpl. intros Hx Ha Hb.
  unfold vadd, vscale.
  rewrite !NuZero.length_vzip, !length_map, NuZero.length_diag_vec,
    !length_map, NuZero.length_H, Hx, Ha, Hb.
  split; lia.
Qed.

(** A property that every pass keeps holds after the loops. *)
Lemma sweep_invariant {S : Type} (P : S -> Prop) (body : nat -> S -> S)
    (epochs : nat) (steps : list nat) (s : S) :
  (forall t s', In t steps -> P s' -> P (body t s')) ->
  P s -> P (Loop.sweep body epochs steps s).
Proof.
  intros Hbody. unfold Loop.sweep.
  assert (Hin : forall s', P s' ->
            P (fold_left (fun s'' t => body t s'') steps s')).
  { assert (Hsub : forall l, incl l steps -> forall s', P s' ->
              P (fold_left (fun s'' t => body t s'') l s')).
    { induction l as [| t l IH]; intros Hl s' Hs'; simpl; [exact Hs' |].
      apply IH.
      - intros t' Ht'. apply Hl. now right.
      - apply Hbody; [apply Hl; now left | exact Hs']. }
    apply Hsub. apply incl_refl. }
  generalize (seq 0 epochs) as es. intro es. revert s.
  induction es as [| e es IH]; intros s Hs; simpl; [exact Hs |].
  apply IH. now apply Hin.
Qed.

(** A call of [IP_train] that stays within the real numbers leaves the
    object built from the gain and the bias after the loops over the
    arithmetic of the body. *)
Lemma IP_train_some (E : Env) (data : mat) (t_points : list R)
    (epochs : nat) (rescale : bool) (self out : IPESN.obj) :
  IPESN.IP_train E data t_points epochs rescale self = Some out ->
  let e2 := fst (IPESN.listen E data t_points rescale self) in
  let x := snd (IPESN.listen E data t_points rescale self) in
  let z := map (fun t => vadd (mat_vec (ESN.M e2) (row x t))
                              (mat_vec (ESN.W_in e2)
                                       (ESN.drive e2 (nth t t_points 0))))
               (seq 0 (length t_points)) in
  let ab := Loop.sweep (IPESN.ip_update self x z) epochs
              (range 0 (length t_points)) (IPESN.a self, IPESN.b self) in
  out
  = IPESN.mk
      (AHESN.with_base
         (ESN.with_W_in
            (scale (ESN.sigma e2)
               (matmul (ncols (ESN.W_in e2)) (diag (fst ab)) (ESN.W_in e2)))
            (ESN.with_M
               (scale (ESN.rho e2)
                  (matmul (ESN.N e2) (diag (fst ab)) (ESN.M e2)))
               e2))
         (IPESN.base self))
      (IPESN.nu self) (IPESN.mu self) (IPESN.sd self) (fst ab) (snd ab).
Proof.
  unfold IPESN.IP_train.
  destruct (IPESN.listen E data t_points rescale self) as [e2 x].
  cbn [fst snd].
  set (z := map _ (seq 0 (length t_points))).
  destruct (Loop.epochs_opt _ _ _ _) as [[a' b'] |] eqn:Hl; [| discriminate].
  apply (LoopFacts.epochs_opt_sound _ (IPESN.ip_update self x z)) in Hl.
  - intro H. injection H as <-. cbv zeta. now rewrite <- Hl.
  - intros t s1 s2. apply NuZero.ip_step_sound.
Qed.

(** [IP_train] stays within the real numbers when the gain has no zero
    entry and [nu = 0]. *)
Lemma IP_train_idle (E : Env) (data : mat) (t_points : list R)
    (epochs : nat) (rescale : bool) (self : IPESN.obj) :
  IPESN.nu self = 0 ->
  Forall (fun ai => ai <> 0) (IPESN.a self) ->
  length (IPESN.a self) = ESN.N (IPESN.esn self) ->
  length (IPESN.b self) = ESN.N (IPESN.esn self) ->
  Reading.trajectory_ok (ESN.N (IPESN.esn self)) (length t_points)
    (snd (IPESN.listen E data t_points rescale self)) ->
  exists out, IPESN.IP_train E data t_points epochs rescale self = Some out.
Proof.
  intros Hnu Hnz Ha Hb Hx. unfold IPESN.IP_train.
  destruct (IPESN.listen E data t_points rescale self) as [e2 x].
  simpl in Hx.
  set (z := map _ (seq 0 (length t_points))).
  rewrite (LoopFacts.epochs_opt_some
             (fun ab => ab = (IPESN.a self, IPESN.b self))
             (IPESN.ip_step self x z) (IPESN.ip_update self x z)).
  - destruct (Loop.sweep _ _ _ _) as [a' b']. now eexists.
  - intros t ab Ht ->. split.
    + now apply NuZero.ip_step_nonzero.
    + apply in_seq in Ht. apply NuZero.ip_update_0; trivial.
      * rewrite Ha.
        apply (EtaZero.row_length _ (length t_points)); trivial. lia.
      * congruence.
  - reflexivity.
Qed.

(** What [IP_train] stores, in terms of the gain it ends with. *)
Lemma IP_train_form (E : Env) (data : mat) (t_points : list R)
    (epochs : nat) (rescale : bool) (self out : IPESN.obj) :
  let N := ESN.N (IPESN.esn self) in
  let e2 := fst (IPESN.listen E data t_points rescale self) in
  IPESN.IP_train E data t_points epochs rescale self = Some out ->
  length (IPESN.a self) = N -> length (IPESN.b self) = N ->
  Reading.trajectory_ok N (length t_points)
    (snd (IPESN.listen E data t_points rescale self)) ->
  shaped N N (ESN.M e2) ->
  shaped N (ncols (ESN.W_in e2)) (ESN.W_in e2) ->
  length (IPESN.a out) = N /\ length (IPESN.b out) = N /\
  ESN.M (IPESN.esn out)
  = scale (ESN.rho (IPESN.esn self)) (row_scale (IPESN.a out) (ESN.M e2)) /\
  ESN.W_in (IPESN.esn out)
  = scale (ESN.sigma (IPESN.esn self))
      (row_scale (IPESN.a out) (ESN.W_in e2)).
Proof.
  intros N e2 Hout Ha Hb Hx HM HW.
  assert (HN2 : ESN.N e2 = N /\ ESN.rho e2 = ESN.rho (IPESN.esn self) /\
                ESN.sigma e2 = ESN.sigma (IPESN.esn self)).
  { unfold e2, N, IPESN.listen. destruct rescale; simpl; auto. }
  destruct HN2 as (HN2 & Hrho & Hsig).
  apply IP_train_some in Hout. cbv zeta in Hout. fold e2 in Hout.
  set (x := snd (IPESN.listen E data t_points rescale self)) in *.
  set (z := map _ (seq 0 (length t_points))) in Hout.
  pose proof (sweep_invariant
                (fun ab : vec * vec => length (fst ab) = N /\ length (snd ab) = N)
                (IPESN.ip_update self x z) epochs (range 0 (length t_points))
                (IPESN.a self, IPESN.b self)) as Hinv.
  destruct (Loop.sweep (IPESN.ip_update self x z) epochs
              (range 0 (length t_points)) (IPESN.a self, IPESN.b self))
    as [a' b'].
  destruct Hinv as [Ha' Hb'].
  - intros t s' Ht [H1 H2]. apply in_seq in Ht.
    apply ip_update_lengths; trivial.
    apply (EtaZero.row_length N (length t_points)); trivial. lia.
  - split; assumption.
  - subst out. simpl in Ha', Hb'. cbn [IPESN.a IPESN.b IPESN.esn IPESN.base
      AHESN.base AHESN.with_base ESN.M ESN.W_in ESN.with_M ESN.with_W_in
      fst snd].
    rewrite HN2, Hrho, Hsig.
    rewrite (matmul_diag_rect N N) by assumption.
    rewrite (matmul_diag_rect N (ncols (ESN.W_in e2))) by assumption.
    repeat split; assumption.
Qed.

Lemma row_scale_scale (c : R) (v : vec) (A : mat) :
  row_scale v (scale c A) = scale c (row_scale v A).
Proof.
  revert A. induction v as [| y v IH]; intros [| r A]; simpl; trivial.
  rewrite IH. f_equal. unfold vscale. rewrite !map_map.
  apply map_ext. intro z. ring.
Qed.

Lemma ncols_scale (c : R) (A : mat) : ncols (scale c A) = ncols A.
Proof.
  destruct A as [| r A]; [reflexivity |].
  unfold ncols, scale. simpl. unfold vscale. apply length_map.
Qed.

Lemma zero_bias_pointwise (self : IPESN.obj) (s : ESN.obj) (n : nat)
    (r : vec) (t : R) :
  IPESN.b self = zeros n -> length (ESN.M s) = n ->
  length (ESN.W_in s) = n ->
  IPESN.f_LR self s r t = ESN.f_LR s r t /\
  IPESN.f_PR self s r t = ESN.f_PR s r t.
Proof.
  intros Hb HM HW.
  assert (H : forall v,
            vadd (vadd (mat_vec (ESN.M s) r) (mat_vec (ESN.W_in s) v))
                 (IPESN.b self)
            = vadd (mat_vec (ESN.M s) r) (mat_vec (ESN.W_in s) v)).
  { intro v. rewrite Hb. apply NuZero.vadd_zero.
    - unfold vadd. rewrite NuZero.length_vzip, !length_mat_vec,
        length_zeros, HM, HW. lia.
    - apply all_zero_zeros. }
  unfold IPESN.f_LR, IPESN.f_PR, ESN.f_LR, ESN.f_PR, ESN.field.
  now rewrite !H.
Qed.

End GainFacts.

(** As long as the bias is zero, as the constructor leaves it, the
    intrinsic-plasticity model integrates the same listening and
    predicting fields as the base model, so [train] and [predict] run
    on it exactly as they run on the base model. *)
Theorem zero_bias_fields (self : IPESN.obj) (s : ESN.obj) :
  IPESN.b self = zeros (ESN.N s) ->
  length (ESN.M s) = ESN.N s ->
  length (ESN.W_in s) = ESN.N s ->
  (forall r t, IPESN.f_LR self s r t = ESN.f_LR s r t) /\
  (forall r t, IPESN.f_PR self s r t = ESN.f_PR s r t) /\
  (forall E data t t_listen,
     ESN.train (IPESN.own_fields self) E data t t_listen s
     = ESN.train ESN.own_fields E data t t_listen s) /\
  (forall E t_predict fresh,
     ESN.predict (IPESN.own_fields self) E t_predict fresh s
     = ESN.predict ESN.own_fields E t_predict fresh s).
Proof.
  intros Hb HM HW.
  assert (HF : forall s', ESN.N s' = ESN.N s -> ESN.M s' = ESN.M s ->
             ESN.W_in s' = ESN.W_in s ->
             IPESN.f_LR self s' = ESN.f_LR s' /\
             IPESN.f_PR self s' = ESN.f_PR s').
  { intros s' HN' HM' HW'.
    split; extensionality r; extensionality t;
      apply (GainFacts.zero_bias_pointwise self s' (ESN.N s) r t);
      congruence. }
  split; [| split; [| split]].
  - intros r t.
    now apply (GainFacts.zero_bias_pointwise self s (ESN.N s) r t).
  - intros r t.
    now apply (GainFacts.zero_bias_pointwise self s (ESN.N s) r t).
  - intros E data t t_listen. unfold ESN.train.
    set (s1 := match ESN.u s with
               | None => ESN.with_u (ESN.spline E s data t) s
               | Some _ => s
               end).
    assert (H1 : ESN.N s1 = ESN.N s /\ ESN.M s1 = ESN.M s /\
                 ESN.W_in s1 = ESN.W_in s)
      by (unfold s1; destruct (ESN.u s); repeat split; reflexivity).
    destruct H1 as (H1 & H2 & H3).
    change (ESN.listening (IPESN.own_fields self) s1)
      with (IPESN.f_LR self s1).
    change (ESN.listening ESN.own_fields s1) with (ESN.f_LR s1).
    now rewrite (proj1 (HF s1 H1 H2 H3)).
  - intros E t_predict fresh. unfold ESN.predict.
    change (ESN.predicting (IPESN.own_fields self) s)
      with (IPESN.f_PR self s).
    change (ESN.predicting ESN.own_fields s) with (ESN.f_PR s).
    rewrite (proj2 (HF s eq_refl eq_refl eq_refl)).
    destruct fresh as [[data t] |]; [| reflexivity].
    set (s1 := ESN.with_u (ESN.spline E s data t) s).
    change (ESN.listening (IPESN.own_fields self) s1)
      with (IPESN.f_LR self s1).
    change (ESN.listening ESN.own_fields s1) with (ESN.f_LR s1).
    change (ESN.predicting (IPESN.own_fields self) s1)
      with (IPESN.f_PR self s1).
    change (ESN.predicting ESN.own_fields s1) with (ESN.f_PR s1).
    destruct (HF s1 eq_refl eq_refl eq_refl) as [-> ->]. reflexivity.
Qed.

(** The theorem at the three-unit intrinsic-plasticity model. *)
Lemma zero_bias_fields_witness :
  IPESN.f_LR (Demo.ip3 0) (IPESN.esn (Demo.ip3 0)) [0; 0; 0] 0
  = ESN.f_LR (IPESN.esn (Demo.ip3 0)) [0; 0; 0] 0 /\
  ESN.train (IPESN.own_fields (Demo.ip3 0)) Demo.E3 Demo.data2 Demo.t2 1
    (IPESN.esn (Demo.ip3 0))
  = ESN.train ESN.own_fields Demo.E3 Demo.data2 Demo.t2 1
      (IPESN.esn (Demo.ip3 0)).
Proof.
  destruct (zero_bias_fields (Demo.ip3 0) (IPESN.esn (Demo.ip3 0)))
    as (HL & _ & HT & _).
  - reflexivity.
  - reflexivity.
  - reflexivity.
  - split; [apply HL | apply HT].
Defined.

(** [IP_train] folds the gain into the rows: when a call that stayed
    within the real numbers ends, row [i] of the reservoir matrix is
    [rho * a_i] times row [i] of the matrix the call integrated with,
    and row [i] of the input matrix is [sigma * a_i] times its row [i];
    gain and bias keep one entry per unit. *)
Theorem IP_train_folds_gain (E : Env) (data : mat) (t_points : list R)
    (epochs : nat) (rescale : bool) (self out : IPESN.obj) :
  let N := ESN.N (IPESN.esn self) in
  let e2 := fst (IPESN.listen E data t_points rescale self) in
  IPESN.IP_train E data t_points epochs rescale self = Some out ->
  length (IPESN.a self) = N -> length (IPESN.b self) = N ->
  Reading.trajectory_ok N (length t_points)
    (snd (IPESN.listen E data t_points rescale self)) ->
  shaped N N (ESN.M e2) ->
  shaped N (ncols (ESN.W_in e2)) (ESN.W_in e2) ->
  length (IPESN.a out) = N /\ length (IPESN.b out) = N /\
  ESN.M (IPESN.esn out)
  = scale (ESN.rho (IPESN.esn self)) (row_scale (IPESN.a out) (ESN.M e2)) /\
  ESN.W_in (IPESN.esn out)
  = scale (ESN.sigma (IPESN.esn self))
      (row_scale (IPESN.a out) (ESN.W_in e2)).
Proof.
  intros N e2. apply GainFacts.IP_train_form.
Qed.

(** The theorem at the three-unit model, four epochs over [data3] and
    [t3] with the reset. *)
Lemma IP_train_folds_gain_witness :
  exists out,
    IPESN.IP_train Demo.E3 Demo.data3 Demo.t3 4 true (Demo.ip3 0) = Some out /\
    length (IPESN.a out) = 3%nat /\ length (IPESN.b out) = 3%nat /\
    ESN.M (IPESN.esn out)
    = scale (9 / 10)
        (row_scale (IPESN.a out)
           (ESN.M (fst (IPESN.listen Demo.E3 Demo.data3 Demo.t3 true
                          (Demo.ip3 0))))) /\
    ESN.W_in (IPESN.esn out)
    = scale 1
        (row_scale (IPESN.a out)
           (ESN.W_in (fst (IPESN.listen Demo.E3 Demo.data3 Demo.t3 true
                             (Demo.ip3 0))))).
Proof.
  destruct (GainFacts.IP_train_idle Demo.E3 Demo.data3 Demo.t3 4 true
              (Demo.ip3 0)) as [out Hout].
  - reflexivity.
  - repeat constructor; simpl; lra.
  - reflexivity.
  - reflexivity.
  - split; [reflexivity | repeat constructor].
  - exists out. split; [exact Hout |].
    apply (IP_train_folds_gain Demo.E3 Demo.data3 Demo.t3 4 true (Demo.ip3 0)
             out Hout).
    + reflexivity.
    + reflexivity.
    + split; [reflexivity | repeat constructor].
    + split; [reflexivity | repeat constructor].
    + split; [reflexivity | repeat constructor].
Defined.

(** With [rescale=True] the factors enter twice: the call first resets
    the matrices to [rho * M_orig] and [sigma * W_in_orig] and ends by
    multiplying with [rho] and [sigma] again, so row [i] of the stored
    reservoir matrix is [rho^2 * a_i] times row [i] of [M_orig], and
    row [i] of the stored input matrix [sigma^2 * a_i] times row [i] of
    [W_in_orig]. *)
Theorem IP_train_rescale_twice (E : Env) (data : mat) (t_points : list R)
    (epochs : nat) (self out : IPESN.obj) :
  let s := IPESN.esn self in
  let N := ESN.N s in
  IPESN.IP_train E data t_points epochs true self = Some out ->
  length (IPESN.a self) = N -> length (IPESN.b self) = N ->
  Reading.trajectory_ok N (length t_points)
    (snd (IPESN.listen E data t_points true self)) ->
  shaped N N (ESN.M_orig s) ->
  shaped N (ncols (ESN.W_in_orig s)) (ESN.W_in_orig s) ->
  ESN.M (IPESN.esn out)
  = scale (ESN.rho s * ESN.rho s) (row_scale (IPESN.a out) (ESN.M_orig s)) /\
  ESN.W_in (IPESN.esn out)
  = scale (ESN.sigma s * ESN.sigma s)
      (row_scale (IPESN.a out) (ESN.W_in_orig s)).
Proof.
  intros s N Hout Ha Hb Hx HM HW.
  destruct (GainFacts.IP_train_form E data t_points epochs true self out)
    as (_ & _ & HM' & HW'); trivial.
  - cbn [IPESN.listen fst ESN.with_u ESN.set_sigma ESN.set_rho ESN.M].
    now apply EtaZero.shaped_scale.
  - cbn [IPESN.listen fst ESN.with_u ESN.set_sigma ESN.set_rho ESN.W_in].
    rewrite GainFacts.ncols_scale. now apply EtaZero.shaped_scale.
  - rewrite HM', HW'.
    cbn [IPESN.listen fst ESN.with_u ESN.set_sigma ESN.set_rho ESN.M
         ESN.W_in].
    fold s. rewrite !GainFacts.row_scale_scale, !SpectrumFacts.scale_scale.
    split; reflexivity.
Qed.

(** The theorem at the three-unit model: with [rho = 9/10] the stored
    matrix carries the factor [81/100]. *)
Lemma IP_train_rescale_twice_witness :
  exists out,
    IPESN.IP_train Demo.E3 Demo.data3 Demo.t3 4 true (Demo.ip3 0) = Some out /\
    ESN.M (IPESN.esn out)
    = scale (9 / 10 * (9 / 10))
        (row_scale (IPESN.a out) (ESN.M_orig (IPESN.esn (Demo.ip3 0)))) /\
    ESN.W_in (IPESN.esn out)
    = scale (1 * 1)
        (row_scale (IPESN.a out) (ESN.W_in_orig (IPESN.esn (Demo.ip3 0)))).
Proof.
  destruct (GainFacts.IP_train_idle Demo.E3 Demo.data3 Demo.t3 4 true
              (Demo.ip3 0)) as [out Hout].
  - reflexivity.
  - repeat constructor; simpl; lra.
  - reflexivity.
  - reflexivity.
  - split; [reflexivity | repeat constructor].
  - exists out. split; [exact Hout |].
    apply (IP_train_rescale_twice Demo.E3 Demo.data3 Demo.t3 4 (Demo.ip3 0)
             out Hout).
    + reflexivity.
    + reflexivity.
    + split; [reflexivity | repeat constructor].
    + split; [reflexivity | repeat constructor].
    + split; [reflexivity | repeat constructor].
Defined.

(* ================================================================== *)
(** * What the adaptation loops add up to *)

Module SumFacts.

Lemma total_scale (c : R) (g : nat -> R) (l : list nat) :
  Sums.total (fun t => c * g t) l = c * Sums.total g l.
Proof.
  unfold Sums.total. induction l as [| t l IH]; simpl; [ring |].
  rewrite IH. ring.
Qed.

(** A loop body that adds [f t] to an observed quantity adds, over all
    epochs, [epochs] times the sum of [f] over the steps. *)
Lemma sweep_additive {S : Type} (P : S -> Prop) (obs : S -> R)
    (f : nat -> R) (body : nat -> S -> S) (epochs : nat)
    (steps : list nat) (s : S) :
  (forall t s', In t steps -> P s' ->
     P (body t s') /\ obs (body t s') = obs s' + f t) ->
  P s ->
  obs (Loop.sweep body epochs steps s)
  = obs s + INR epochs * Sums.total f steps.
Proof.
  intros Hbody Hs. unfold Loop.sweep.
  assert (Hsub : forall l, incl l steps -> forall s', P s' ->
            P (fold_left (fun s'' t => body t s'') l s') /\
            obs (fold_left (fun s'' t => body t s'') l s')
            = obs s' + Sums.total f l).
  { induction l as [| t l IH]; intros Hl s' Hs'; simpl.
    - split; [exact Hs' |]. unfold Sums.total. simpl. ring.
    - destruct (Hbody t s') as [HP Ho]; [apply Hl; now left | exact Hs' |].
      destruct (IH (fun t' Ht' => Hl t' (or_intror Ht')) _ HP) as [HP' Ho'].
      split; [exact HP' |]. rewrite Ho', Ho. unfold Sums.total. simpl. ring. }
  assert (Hout : forall es s', P s' ->
            P (fold_left (fun s'' (_ : nat) =>
                            fold_left (fun s3 t => body t s3) steps s'')
                         es s') /\
            obs (fold_left (fun s'' (_ : nat) =>
                              fold_left (fun s3 t => body t s3) steps s'')
                           es s')
            = obs s' + INR (length es) * Sums.total f steps).
  { induction es as [| e es IH]; intros s' Hs'.
    - simpl. split; [exact Hs' | ring].
    - destruct (Hsub steps (incl_refl _) s' Hs') as [HP Ho].
      destruct (IH _ HP) as [HP' Ho'].
      cbn [fold_left]. split; [exact HP' |].
      rewrite Ho', Ho. change (length (e :: es)) with (Datatypes.S (length es)).
      rewrite S_INR. ring. }
  destruct (Hout (seq 0 epochs) s Hs) as [_ Ho].
  now rewrite length_seq in Ho.
Qed.

Lemma entry_outer (a b : vec) (i j : nat) :
  Sums.entry (outer a b) i j = vget a i * vget b j.
Proof.
  unfold Sums.entry, outer, row, vget at 2. revert i.
  induction a as [| y a IH]; intros [| i]; simpl.
  - unfold vget. destruct j; simpl; ring.
  - unfold vget. destruct j; simpl; ring.
  - apply EntryFacts.vget_vscale.
  - apply IH.
Qed.

Lemma entry_hebb_X (N : nat) (x : list vec) (t i j : nat) :
  (i < N)%nat ->
  Sums.entry (AHESN.hebb_X N x t) i j
  = vget (row x (t + 1)) i * vget (row x t) j.
Proof.
  intro Hi. unfold Sums.entry, AHESN.hebb_X, row at 1.
  rewrite (nth_indep _ [] (vscale (vget (row x (t + 1)) 0) (row x t)))
    by now rewrite length_map, length_seq.
  rewrite (map_nth (fun i0 => vscale (vget (row x (t + 1)) i0) (row x t))).
  rewrite seq_nth by assumption. apply EntryFacts.vget_vscale.
Qed.

Lemma shaped_msub (n m : nat) (A B : mat) :
  shaped n m A -> shaped n m B -> shaped n m (msub A B).
Proof.
  unfold msub. intros [Hn HA] [Hn' HB]. subst n. revert B Hn' HB.
  induction A as [| r A IH]; intros [| y B] Hn' HB; simpl in *;
    try discriminate.
  - split; [reflexivity | constructor].
  - inversion HA as [| ? ? Hr HA']; subst.
    inversion HB as [| ? ? Hy HB']; subst.
    destruct (IH HA' B) as [H1 H2]; [lia | exact HB' |].
    split; [simpl; now rewrite H1 |].
    constructor; [| exact H2].
    rewrite NuZero.length_vzip, Hy. lia.
Qed.

Section Decay.

Variables (N T t_listen : nat) (x : list vec) (data : mat) (eta : R).
Hypothesis x_ok : Reading.trajectory_ok N T x.
Hypothesis data_T : length data = T.

Local Abbreviation steps := (range t_listen (length data - 1)).

(** One rank-one update, entry by entry. *)
Lemma decay_entry (t i j : nat) (M : mat) :
  In t steps -> shaped N N M -> (i < N)%nat -> (j < N)%nat ->
  shaped N N (AHESN.decay eta x t M) /\
  Sums.entry (AHESN.decay eta x t M) i j
  = Sums.entry M i j
    + - eta * (vget (row x (t + 1)) i * vget (row x t) j).
Proof.
  intros Ht HM Hi Hj.
  destruct (EtaZero.step_rows N T t_listen x data x_ok data_T t Ht)
    as [H1 H0].
  assert (HX : shaped N N (scale eta (outer (row x (t + 1)) (row x t)))).
  { apply EtaZero.shaped_scale.
    pose proof (StepFacts.shaped_outer (row x (t + 1)) (row x t)) as H.
    now rewrite H1, H0 in H. }
  unfold AHESN.decay. split.
  - now apply shaped_msub.
  - rewrite (EntryFacts.entry_msub N N) by assumption.
    rewrite EntryFacts.entry_scale, entry_outer. ring.
Qed.

Lemma dense_entry (t i j : nat) (M : mat) :
  In t steps -> shaped N N M -> (i < N)%nat -> (j < N)%nat ->
  shaped N N (msub M (scale eta (AHESN.hebb_X N x t))) /\
  Sums.entry (msub M (scale eta (AHESN.hebb_X N x t))) i j
  = Sums.entry M i j
    + - eta * (vget (row x (t + 1)) i * vget (row x t) j).
Proof.
  intros Ht HM Hi Hj.
  destruct (EtaZero.step_rows N T t_listen x data x_ok data_T t Ht)
    as [H1 H0].
  assert (HX : shaped N N (scale eta (AHESN.hebb_X N x t))).
  { apply EtaZero.shaped_scale.
    pose proof (StepFacts.shaped_hebb_X N x t) as H.
    now rewrite H0 in H. }
  split.
  - now apply shaped_msub.
  - rewrite (EntryFacts.entry_msub N N) by assumption.
    rewrite EntryFacts.entry_scale, entry_hebb_X by assumption. ring.
Qed.

Lemma decay_loop (epochs i j : nat) (M : mat) :
  shaped N N M -> (i < N)%nat -> (j < N)%nat ->
  Sums.entry (Loop.sweep (AHESN.decay eta x) epochs steps M) i j
  = Sums.entry M i j - INR epochs * eta * Sums.lag_sum x steps i j.
Proof.
  intros HM Hi Hj.
  rewrite (sweep_additive (shaped N N) (fun A => Sums.entry A i j)
             (fun t => - eta * (vget (row x (t + 1)) i * vget (row x t) j))).
  - rewrite total_scale. unfold Sums.lag_sum. ring.
  - intros t M' Ht HM'. now apply decay_entry.
  - exact HM.
Qed.

Lemma dense_loop (epochs i j : nat) (M : mat) :
  shaped N N M -> (i < N)%nat -> (j < N)%nat ->
  Sums.entry
    (Loop.sweep (fun t M' => msub M' (scale eta (AHESN.hebb_X N x t)))
       epochs steps M) i j
  = Sums.entry M i j - INR epochs * eta * Sums.lag_sum x steps i j.
Proof.
  intros HM Hi Hj.
  rewrite (sweep_additive (shaped N N) (fun A => Sums.entry A i j)
             (fun t => - eta * (vget (row x (t + 1)) i * vget (row x t) j))).
  - rewrite total_scale. unfold Sums.lag_sum. ring.
  - intros t M' Ht HM'. now apply dense_entry.
  - exact HM.
Qed.

End Decay.

(** Without the per-step renormalization the loops of
    [hebb_learn_vector] never raise and never call the eigensolver. *)
Lemma vector_loop_plain (E : Env) (rho eta : R) (k : nat) (x : list vec)
    (epochs : nat) (steps : list nat) (M : mat) :
  k <> 2%nat ->
  Loop.epochs_of (AHESN.vector_step E rho eta k x) epochs steps (M, [])
  = inr (Loop.sweep (AHESN.decay eta x) epochs steps M, []).
Proof.
  intro Hk.
  rewrite (LoopFacts.epochs_pure (S := AHESN.work) _
             (fun t w' => (AHESN.decay eta x t (fst w'), snd w'))).
  - f_equal. unfold Loop.sweep.
    generalize (seq 0 epochs) as es. intro es. revert M.
    induction es as [| e es IHe]; intro M; simpl; [reflexivity |].
    assert (Hin : forall M1,
              fold_left (fun w' t' => (AHESN.decay eta x t' (fst w'), snd w'))
                steps (M1, @nil mat)
              = (fold_left (fun M' t' => AHESN.decay eta x t' M') steps M1,
                 [])).
    { generalize steps as l. induction l as [| t' l IHl]; intro M1;
        simpl; [reflexivity | apply IHl]. }
    rewrite Hin. apply IHe.
  - intros t' [M' calls]. unfold AHESN.vector_step.
    apply Nat.eqb_neq in Hk. rewrite Hk. reflexivity.
Qed.

End SumFacts.

(** What the anti-Hebbian loops add up to.  The trajectory is computed
    once, before the loops, so every epoch subtracts the same matrix:
    with [C_ij] the sum of [x[t+1, i] * x[t, j]] over the steps
    [t_listen <= t < len(data) - 1], [hebb_learn] stores
    [rho * (M_orig[i, j] - epochs * eta * C_ij)], starting from the
    unscaled matrix and scaling at the end, while [hebb_learn_vector]
    without renormalization stores [M[i, j] - epochs * eta * C_ij],
    starting from the scaled matrix the call integrated with. *)
Theorem hebb_closed_form (F : ESN.fields) (E : Env) (data : mat)
    (t : list R) (t_listen : nat) (self : AHESN.obj) (i j : nat) :
  let b0 := AHESN.base self in
  let N := ESN.N b0 in
  let steps := range t_listen (length data - 1) in
  shaped N N (ESN.M_orig b0) ->
  shaped N N (ESN.M b0) ->
  length data = length t ->
  (forall reset,
     Reading.trajectory_ok N (length t)
       (snd (AHESN.listen F E data t reset self))) ->
  (i < N)%nat -> (j < N)%nat ->
  (forall rescale,
     Sums.entry
       (ESN.M (AHESN.base
                 (AHESN.hebb_learn F E data t t_listen rescale self))) i j
     = ESN.rho b0
       * (Sums.entry (ESN.M_orig b0) i j
          - INR (AHESN.epochs self) * AHESN.eta self
            * Sums.lag_sum (snd (AHESN.listen F E data t rescale self))
                steps i j)) /\
  (forall reset_M scale_M,
     scale_M <> 1%nat -> scale_M <> 2%nat ->
     Sums.entry
       (ESN.M (AHESN.base
                 (snd (AHESN.hebb_learn_vector F E data t t_listen reset_M
                         scale_M self)))) i j
     = Sums.entry (ESN.M (fst (AHESN.listen F E data t reset_M self))) i j
       - INR (AHESN.epochs self) * AHESN.eta self
         * Sums.lag_sum (snd (AHESN.listen F E data t reset_M self))
             steps i j).
Proof.
  intros b0 N steps Hor HM Hdata Hx Hi Hj. split.
  - intro rescale.
    destruct (EtaZero.listen_fields F E data t rescale self)
      as (HN & Hrho & Horig & _).
    specialize (Hx rescale). unfold AHESN.hebb_learn.
    destruct (AHESN.listen F E data t rescale self) as [b2 x].
    simpl in HN, Hrho, Horig, Hx |- *.
    rewrite EntryFacts.entry_scale, HN, Hrho, Horig.
    f_equal.
    apply (SumFacts.dense_loop N (length t)); trivial.
  - intros reset_M scale_M H1 H2.
    destruct (EtaZero.listen_fields F E data t reset_M self)
      as (HN & Hrho & Horig & HM2).
    specialize (Hx reset_M). unfold AHESN.hebb_learn_vector.
    destruct (AHESN.listen F E data t reset_M self) as [b2 x].
    simpl in HN, Hrho, Horig, HM2, Hx |- *.
    rewrite SumFacts.vector_loop_plain by assumption.
    apply Nat.eqb_neq in H1. rewrite H1. simpl.
    apply (SumFacts.decay_loop N (length t)); trivial.
    rewrite HM2. destruct reset_M; [| exact HM].
    now apply EtaZero.shaped_scale.
Qed.

(** The theorem at the three-unit model with [rho = 9/10], learning rate
    1/2 and two epochs, on [data3] over [t3], at the entry (0, 0). *)
Lemma hebb_closed_form_witness :
  Sums.entry
    (ESN.M (AHESN.base
              (AHESN.hebb_learn AHESN.own_fields Demo.E3 Demo.data3 Demo.t3 0
                 true (Demo.h3 (9 / 10) (1 / 2) 2)))) 0 0
  = ESN.rho (AHESN.base (Demo.h3 (9 / 10) (1 / 2) 2))
    * (Sums.entry (ESN.M_orig (AHESN.base (Demo.h3 (9 / 10) (1 / 2) 2))) 0 0
       - INR 2 * (1 / 2)
         * Sums.lag_sum
             (snd (AHESN.listen AHESN.own_fields Demo.E3 Demo.data3 Demo.t3
                     true (Demo.h3 (9 / 10) (1 / 2) 2)))
             (range 0 (length Demo.data3 - 1)) 0 0).
Proof.
  destruct (hebb_closed_form AHESN.own_fields Demo.E3 Demo.data3 Demo.t3 0
              (Demo.h3 (9 / 10) (1 / 2) 2) 0 0) as [Hdense _].
  - split; [reflexivity | repeat constructor].
  - split; [reflexivity | repeat constructor].
  - reflexivity.
  - intro reset. apply SingleEntry.trajectory_h3.
  - simpl. lia.
  - simpl. lia.
  - apply Hdense.
Defined.

(** The bias after a call of [IP_train] that stayed within the real
    numbers.  The trajectory is computed once, before the loops, and
    the bias update does not read the gain, so unit [i] ends with
    [b_i - epochs * nu * sum_t H(x[t])_i], the sum over all grid
    points. *)
Theorem IP_bias_closed_form (E : Env) (data : mat) (t_points : list R)
    (epochs : nat) (rescale : bool) (self out : IPESN.obj) (i : nat) :
  let N := ESN.N (IPESN.esn self) in
  let x := snd (IPESN.listen E data t_points rescale self) in
  IPESN.IP_train E data t_points epochs rescale self = Some out ->
  length (IPESN.a self) = N -> length (IPESN.b self) = N ->
  Reading.trajectory_ok N (length t_points) x ->
  (i < N)%nat ->
  vget (IPESN.b out) i
  = vget (IPESN.b self) i
    - INR epochs * IPESN.nu self
      * Sums.total (fun t => vget (IPESN.H self (row x t)) i)
          (range 0 (length t_points)).
Proof.
  intros N x Hout Ha Hb Hx Hi.
  apply GainFacts.IP_train_some in Hout. cbv zeta in Hout. fold x in Hout.
  set (z := map _ (seq 0 (length t_points))) in Hout.
  pose proof (SumFacts.sweep_additive
                (fun ab : vec * vec =>
                   length (fst ab) = N /\ length (snd ab) = N)
                (fun ab => vget (snd ab) i)
                (fun t => - IPESN.nu self * vget (IPESN.H self (row x t)) i)
                (IPESN.ip_update self x z) epochs (range 0 (length t_points))
                (IPESN.a self, IPESN.b self)) as Hsum.
  subst out. cbn [IPESN.b].
  cbn [snd] in Hsum. rewrite Hsum.
  - rewrite SumFacts.total_scale. ring.
  - intros t [a1 b1] Ht [H1 H2]. apply in_seq in Ht.
    assert (Hr : length (row x t) = N)
      by (apply (EtaZero.row_length N (length t_points)); trivial; lia).
    split.
    + apply (GainFacts.ip_update_lengths self x z t N (a1, b1)); trivial.
    + simpl in H1, H2 |- *. unfold vadd.
      rewrite EntryFacts.vget_vzip.
      * now rewrite EntryFacts.vget_vscale.
      * lia.
      * unfold vscale. rewrite length_map, NuZero.length_H. lia.
  - split; assumption.
Qed.

(** On the three-unit model with [nu = 1/10] the first pass over
    [data2] and [t2] starts from the zero state, where [H] vanishes,
    and leaves the gain [11/10] for every unit; so the call with one
    epoch stays within the real numbers. *)
Lemma ip3_tenth_returns :
  exists out,
    IPESN.IP_train Demo.E3 Demo.data2 Demo.t2 1 true (Demo.ip3 (1 / 10))
    = Some out.
Proof.
  unfold IPESN.IP_train.
  destruct (IPESN.listen Demo.E3 Demo.data2 Demo.t2 true (Demo.ip3 (1 / 10)))
    as [e2 x] eqn:Hl.
  set (z := map _ (seq 0 (length Demo.t2))).
  assert (Hx0 : row x 0 = [0; 0; 0]).
  { apply (f_equal snd) in Hl. simpl in Hl. subst x. reflexivity. }
  assert (Hz : length (row z 0) = 3%nat).
  { apply (f_equal fst) in Hl. simpl in Hl. subst e2. reflexivity. }
  unfold Loop.epochs_opt, range.
  cbn [length Demo.t2 Nat.sub seq Loop.for_each_opt].
  rewrite NuZero.ip_step_nonzero by (repeat constructor; simpl; lra).
  assert (Ha1 : fst (IPESN.ip_update (Demo.ip3 (1 / 10)) x z 0
                       (IPESN.a (Demo.ip3 (1 / 10)),
                        IPESN.b (Demo.ip3 (1 / 10))))
                = [11 / 10; 11 / 10; 11 / 10]).
  { unfold IPESN.ip_update. rewrite Hx0. cbn [fst].
    destruct (row z 0) as [| z0 [| z1 [| z2 [| z3 zs]]]];
      try discriminate Hz.
    unfold IPESN.H, vadd, vscale, mat_vec, diag, unit_vec, vget.
    simpl. entrywise; field. }
  rewrite NuZero.ip_step_nonzero
    by (rewrite Ha1; repeat constructor; lra).
  destruct (IPESN.ip_update _ _ _ 1 _) as [a' b']. now eexists.
Qed.

(** The theorem at the three-unit model with [nu = 1/10], one epoch
    over [data2] and [t2], at unit 0. *)
Lemma IP_bias_closed_form_witness :
  exists out,
    IPESN.IP_train Demo.E3 Demo.data2 Demo.t2 1 true (Demo.ip3 (1 / 10))
    = Some out /\
    vget (IPESN.b out) 0
    = vget (IPESN.b (Demo.ip3 (1 / 10))) 0
      - INR 1 * IPESN.nu (Demo.ip3 (1 / 10))
        * Sums.total
            (fun t =>
               vget (IPESN.H (Demo.ip3 (1 / 10))
                       (row (snd (IPESN.listen Demo.E3 Demo.data2 Demo.t2
                                    true (Demo.ip3 (1 / 10)))) t)) 0)
            (range 0 (length Demo.t2)).
Proof.
  destruct ip3_tenth_returns as [out Hout].
  exists out. split; [exact Hout |].
  apply (IP_bias_closed_form Demo.E3 Demo.data2 Demo.t2 1 true
           (Demo.ip3 (1 / 10)) out 0 Hout).
  - reflexivity.
  - reflexivity.
  - split; [reflexivity | repeat constructor].
  - simpl. lia.
Defined.

(* ================================================================== *)
(** * [hebb_learn_vector] when the eigensolver gives up *)

Module StallFacts.

Lemma eigs_stall_raw3 :
  eigs Stall.E_stall Demo.raw3 = inr (RtoC (Demo.trace Demo.raw3)).
Proof.
  change (eigs Stall.E_stall Demo.raw3) with (Stall.trace_or_stall Demo.raw3).
  unfold Stall.trace_or_stall.
  destruct (Req_EM_T (Demo.trace Demo.raw3) 0) as [H | H]; [| reflexivity].
  rewrite SingleEntry.trace_raw3 in H. lra.
Qed.

(** The constructor builds in [E_stall] the object it builds in [E3]. *)
Lemma h0_eq : Stall.h0 = Demo.h3 0 0 1.
Proof.
  unfold Stall.h0, Demo.h3, Demo.ahesn_of, AHESN.init, ESN.init,
    ESN.adj_matrix.
  change (sp_random Stall.E_stall 3 3 (1 / 9) (random_seed Stall.E_stall 1))
    with Demo.raw3.
  rewrite eigs_stall_raw3. reflexivity.
Qed.

Lemma trajectory_h0 (reset : bool) :
  Reading.trajectory_ok 3 3
    (snd (AHESN.listen AHESN.own_fields Stall.E_stall Demo.data3 Demo.t3
            reset Stall.h0)).
Proof.
  rewrite h0_eq. destruct reset; (split; [reflexivity | repeat constructor]).
Qed.

Lemma M_h0 (reset : bool) :
  ESN.M (fst (AHESN.listen AHESN.own_fields Stall.E_stall Demo.data3 Demo.t3
                reset Stall.h0))
  = scale 0 Demo.raw3.
Proof.
  rewrite h0_eq.
  destruct (EtaZero.listen_fields AHESN.own_fields Stall.E_stall Demo.data3
              Demo.t3 reset (Demo.h3 0 0 1)) as (_ & _ & _ & HM).
  rewrite HM.
  destruct reset.
  - now rewrite SingleEntry.M_orig_h3.
  - apply SingleEntry.M_h3.
Qed.

Lemma stall_zero : eigs Stall.E_stall (scale 0 Demo.raw3)
                   = inl ArpackNoConvergence.
Proof.
  change (eigs Stall.E_stall (scale 0 Demo.raw3))
    with (Stall.trace_or_stall (scale 0 Demo.raw3)).
  unfold Stall.trace_or_stall.
  destruct (Req_EM_T (Demo.trace (scale 0 Demo.raw3)) 0) as [H | H];
    [reflexivity |].
  exfalso. apply H.
  unfold Demo.trace, Demo.diagonal, Demo.raw3, vget. simpl. ring.
Qed.

(** With learning rate 0 a decay step leaves the zero matrix of [h0]. *)
Lemma decay_h0 (reset : bool) (t : nat) :
  (t < 2)%nat ->
  AHESN.decay 0
    (snd (AHESN.listen AHESN.own_fields Stall.E_stall Demo.data3 Demo.t3
            reset Stall.h0)) t (scale 0 Demo.raw3)
  = scale 0 Demo.raw3.
Proof.
  intro Ht.
  apply (EtaZero.decay_0_step 3 3 0 _ Demo.data3 (trajectory_h0 reset)
           eq_refl).
  - split; [reflexivity | repeat constructor].
  - apply in_seq. simpl. lia.
Qed.

Lemma plain_h0 (reset : bool) :
  Loop.sweep
    (AHESN.decay 0
       (snd (AHESN.listen AHESN.own_fields Stall.E_stall Demo.data3 Demo.t3
               reset Stall.h0)))
    1 (range 0 (length Demo.data3 - 1)) (scale 0 Demo.raw3)
  = scale 0 Demo.raw3.
Proof.
  apply LoopFacts.sweep_fixed. intros t Ht. apply in_seq in Ht.
  apply decay_h0. simpl in Ht. lia.
Qed.

End StallFacts.

(** When the eigensolver raises inside [hebb_learn_vector], on the
    decayed matrix after the loops ([scale_M == 1]) or on the matrix
    after the first decay step ([scale_M == 2]), the call raises the
    same exception and the decay is lost, but the object is not as it
    was: it has the new interpolant, and its reservoir matrix is
    [rho * M_orig] if [reset_M] was set. *)
Theorem hebb_learn_vector_eigs_failure (F : ESN.fields) (E : Env)
    (data : mat) (t : list R) (t_listen : nat) (reset_M : bool)
    (scale_M : nat) (self : AHESN.obj) (e : exn) :
  let b0 := AHESN.base self in
  let b2 := fst (AHESN.listen F E data t reset_M self) in
  let x := snd (AHESN.listen F E data t reset_M self) in
  let steps := range t_listen (length data - 1) in
  let plain := Loop.sweep (AHESN.decay (AHESN.eta self) x)
                 (AHESN.epochs self) steps (ESN.M b2) in
  let out := AHESN.hebb_learn_vector F E data t t_listen reset_M scale_M
               self in
  (scale_M = 1%nat /\ eigs E plain = inl e) \/
  (scale_M = 2%nat /\ (0 < AHESN.epochs self)%nat /\
   (t_listen < length data - 1)%nat /\
   eigs E (AHESN.decay (AHESN.eta self) x t_listen (ESN.M b2)) = inl e) ->
  fst out = inl e /\
  ESN.M (AHESN.base (snd out))
  = (if reset_M then scale (ESN.rho b0) (ESN.M_orig b0) else ESN.M b0) /\
  ESN.u (AHESN.base (snd out)) = Some (ESN.spline E b0 data t) /\
  Keep.config b0 (AHESN.base (snd out)) /\
  Keep.trained b0 (AHESN.base (snd out)).
Proof.
  intros b0 b2 x steps plain out H.
  assert (Hout : out = (inl e, AHESN.with_base b2 self)).
  { unfold out, AHESN.hebb_learn_vector. subst plain steps x b2.
    destruct (AHESN.listen F E data t reset_M self) as [b2 x].
    simpl in H |- *.
    destruct H as [[-> Heig] | (-> & Hep & Hst & Heig)].
    - rewrite SumFacts.vector_loop_plain by discriminate.
      cbn [Nat.eqb AHESN.renormalize]. now rewrite Heig.
    - unfold range, Loop.epochs_of.
      destruct (AHESN.epochs self) as [| k]; [lia |].
      destruct (length data - 1 - t_listen)%nat as [| m] eqn:Hm; [lia |].
      cbn [seq Loop.for_each AHESN.vector_step Nat.eqb AHESN.renormalize].
      now rewrite Heig. }
  rewrite Hout. subst b2. unfold Keep.config, Keep.trained.
  destruct reset_M; simpl; repeat split; reflexivity.
Qed.

(** The theorem at the three-unit model with [rho = 0] (a zero
    reservoir matrix) in the environment whose eigensolver gives up on a
    matrix of trace zero, with one renormalization at the end and with
    one after every step. *)
Lemma hebb_learn_vector_eigs_failure_witness :
  fst (AHESN.hebb_learn_vector AHESN.own_fields Stall.E_stall Demo.data3
         Demo.t3 0 true 1 Stall.h0) = inl ArpackNoConvergence /\
  fst (AHESN.hebb_learn_vector AHESN.own_fields Stall.E_stall Demo.data3
         Demo.t3 0 true 2 Stall.h0) = inl ArpackNoConvergence.
Proof.
  assert (Heta : AHESN.eta Stall.h0 = 0)
    by (rewrite StallFacts.h0_eq; reflexivity).
  assert (Hep : AHESN.epochs Stall.h0 = 1%nat)
    by (rewrite StallFacts.h0_eq; reflexivity).
  split.
  - apply (hebb_learn_vector_eigs_failure AHESN.own_fields Stall.E_stall
             Demo.data3 Demo.t3 0 true 1 Stall.h0 ArpackNoConvergence).
    left. split; [reflexivity |].
    rewrite Heta, Hep, StallFacts.M_h0, StallFacts.plain_h0.
    apply StallFacts.stall_zero.
  - apply (hebb_learn_vector_eigs_failure AHESN.own_fields Stall.E_stall
             Demo.data3 Demo.t3 0 true 2 Stall.h0 ArpackNoConvergence).
    right. split; [reflexivity |]. split; [rewrite Hep; lia |].
    split; [simpl; lia |].
    rewrite Heta, StallFacts.M_h0, StallFacts.decay_h0 by lia.
    apply StallFacts.stall_zero.
Defined.

(* ================================================================== *)
(** * Calling [train] and [predict] again *)

Module AgainFacts.

Lemma trained_listening (W : mat) (r : vec) (s : ESN.obj) :
  ESN.listening ESN.own_fields (ESN.with_trained W r s)
  = ESN.listening ESN.own_fields s.
Proof. reflexivity. Qed.

Lemma trained_design (W : mat) (r : vec) (s : ESN.obj) (x : list vec)
    (T t_listen : nat) :
  ESN.design_matrix (ESN.with_trained W r s) x T t_listen
  = ESN.design_matrix s x T t_listen.
Proof. reflexivity. Qed.

Lemma trained_ridge (W : mat) (r : vec) (s : ESN.obj) (X : mat)
    (T t_listen : nat) :
  ESN.ridge_matrix (ESN.with_trained W r s) X T t_listen
  = ESN.ridge_matrix s X T t_listen.
Proof. reflexivity. Qed.

Lemma trained_twice (W W' : mat) (r r' : vec) (s : ESN.obj) :
  ESN.with_trained W' r' (ESN.with_trained W r s) = ESN.with_trained W' r' s.
Proof. reflexivity. Qed.

End AgainFacts.

(** [train] is idempotent: after a call that returned a trajectory of
    at least one state, the same call returns the same trajectory and
    leaves the object as it is.  The second call keeps the interpolant,
    integrates from the zero state again, and reads neither the readout
    weights nor the stored state. *)
Theorem train_twice (E : Env) (data : mat) (t : list R) (t_listen : nat)
    (self : ESN.obj) (traj : list vec) :
  fst (ESN.train ESN.own_fields E data t t_listen self) = inr traj ->
  traj <> [] ->
  ESN.train ESN.own_fields E data t t_listen
    (snd (ESN.train ESN.own_fields E data t t_listen self))
  = (inr traj, snd (ESN.train ESN.own_fields E data t t_listen self)).
Proof.
  destruct (listening_object E data t self) as [HN [f Hf]].
  unfold ESN.train at 1 3 4.
  set (s1 := match ESN.u self with
             | None => ESN.with_u (ESN.spline E self data t) self
             | Some _ => self
             end) in *.
  remember (odeint E (ESN.listening ESN.own_fields s1) (zeros (ESN.N s1)) t)
    as LR eqn:HLR.
  destruct (length t <? t_listen)%nat eqn:HT; [discriminate |].
  destruct (ESN.np_matmul _ _ _ _ _) as [e | M_1] eqn:HM1; [discriminate |].
  destruct (linalg_inv E _) as [e | M_2] eqn:HM2; [discriminate |].
  cbv zeta. destruct LR as [| r0 rest]; [discriminate |].
  cbn [fst snd]. intros H _. injection H as <-.
  set (W := matmul (2 * ESN.N s1) M_1 M_2).
  set (r := last (r0 :: rest) []).
  unfold ESN.train.
  change (ESN.u (ESN.with_trained W r s1)) with (ESN.u s1). rewrite Hf.
  rewrite HT.
  change (ESN.N (ESN.with_trained W r s1)) with (ESN.N s1).
  rewrite AgainFacts.trained_listening, <- HLR, AgainFacts.trained_design,
    AgainFacts.trained_ridge, HM1, HM2.
  cbv zeta. rewrite AgainFacts.trained_twice. reflexivity.
Qed.

(** The theorem at [train(data2, t2, 1)] on the three-unit model. *)
Lemma train_twice_witness :
  ESN.train ESN.own_fields Demo.E3 Demo.data2 Demo.t2 1
    (snd (ESN.train ESN.own_fields Demo.E3 Demo.data2 Demo.t2 1 Demo.s3))
  = (inr Demo.traj2,
     snd (ESN.train ESN.own_fields Demo.E3 Demo.data2 Demo.t2 1 Demo.s3)).
Proof.
  apply (train_twice Demo.E3 Demo.data2 Demo.t2 1 Demo.s3 Demo.traj2).
  - exact train_s3_returns.
  - discriminate.
Defined.

(** On a model that had no interpolant before it was trained,
    [predict] with the training data and grid returns what [predict]
    without data returns: it listens again from the zero state over the
    same grid and so starts the prediction from the state [train]
    stored. *)
Theorem predict_with_training_data (E : Env) (data : mat) (t : list R)
    (t_listen : nat) (self : ESN.obj) (traj : list vec)
    (t_predict : list R) :
  ESN.u self = None ->
  fst (ESN.train ESN.own_fields E data t t_listen self) = inr traj ->
  traj <> [] ->
  fst (ESN.predict ESN.own_fields E t_predict (Some (data, t))
         (snd (ESN.train ESN.own_fields E data t t_listen self)))
  = fst (ESN.predict ESN.own_fields E t_predict None
           (snd (ESN.train ESN.own_fields E data t t_listen self))).
Proof.
  intros Hu. unfold ESN.train. rewrite Hu.
  set (s1 := ESN.with_u (ESN.spline E self data t) self).
  remember (odeint E (ESN.listening ESN.own_fields s1) (zeros (ESN.N s1)) t)
    as LR eqn:HLR.
  destruct (length t <? t_listen)%nat eqn:HT; [discriminate |].
  destruct (ESN.np_matmul _ _ _ _ _) as [e | M_1] eqn:HM1; [discriminate |].
  destruct (linalg_inv E _) as [e | M_2] eqn:HM2; [discriminate |].
  cbv zeta. destruct LR as [| r0 rest]; [discriminate |].
  cbn [fst snd]. intros H _. injection H as <-.
  unfold ESN.predict.
  change (odeint E
            (ESN.listening ESN.own_fields
               (ESN.with_u
                  (ESN.spline E
                     (ESN.with_trained (matmul (2 * ESN.N s1) M_1 M_2)
                        (last (r0 :: rest) []) s1) data t)
                  (ESN.with_trained (matmul (2 * ESN.N s1) M_1 M_2)
                     (last (r0 :: rest) []) s1)))
            (zeros
               (ESN.N
                  (ESN.with_u
                     (ESN.spline E
                        (ESN.with_trained (matmul (2 * ESN.N s1) M_1 M_2)
                           (last (r0 :: rest) []) s1) data t)
                     (ESN.with_trained (matmul (2 * ESN.N s1) M_1 M_2)
                        (last (r0 :: rest) []) s1)))) t)
    with (odeint E (ESN.listening ESN.own_fields s1) (zeros (ESN.N s1)) t).
  rewrite <- HLR. reflexivity.
Qed.

(** The theorem after [train(data2, t2, 1)] on the three-unit model. *)
Lemma predict_with_training_data_witness :
  fst (ESN.predict ESN.own_fields Demo.E3 Demo.t3
         (Some (Demo.data2, Demo.t2))
         (snd (ESN.train ESN.own_fields Demo.E3 Demo.data2 Demo.t2 1
                 Demo.s3)))
  = fst (ESN.predict ESN.own_fields Demo.E3 Demo.t3 None
           (snd (ESN.train ESN.own_fields Demo.E3 Demo.data2 Demo.t2 1
                   Demo.s3))).
Proof.
  apply (predict_with_training_data Demo.E3 Demo.data2 Demo.t2 1 Demo.s3
           Demo.traj2 Demo.t3).
  - reflexivity.
  - exact train_s3_returns.
  - discriminate.
Defined.

(* ================================================================== *)
(** * What the adaptation procedures leave alone *)

Module FrameFacts.

Lemma set_rho_same (s : ESN.obj) :
  ESN.M s = scale (ESN.rho s) (ESN.M_orig s) ->
  ESN.set_rho (ESN.rho s) s = s.
Proof. destruct s. simpl. intros ->. reflexivity. Qed.

Lemma set_sigma_same (s : ESN.obj) :
  ESN.W_in s = scale (ESN.sigma s) (ESN.W_in_orig s) ->
  ESN.set_sigma (ESN.sigma s) s = s.
Proof. destruct s. simpl. intros ->. reflexivity. Qed.

Lemma adapted_with_M (E : Env) (data : mat) (t : list R) (reset : bool)
    (s : ESN.obj) (A : mat) :
  let s1 := if reset then ESN.set_rho (ESN.rho s) s else s in
  Keep.adapted E data t s
    (ESN.with_M A (ESN.with_u (ESN.spline E s1 data t) s1)) /\
  ESN.W_in (ESN.with_M A (ESN.with_u (ESN.spline E s1 data t) s1))
  = ESN.W_in s.
Proof.
  unfold Keep.adapted, Keep.config, Keep.trained.
  destruct reset; simpl; repeat split; reflexivity.
Qed.

Lemma adapted_listening (E : Env) (data : mat) (t : list R) (reset : bool)
    (s : ESN.obj) :
  let s1 := if reset then ESN.set_rho (ESN.rho s) s else s in
  Keep.adapted E data t s (ESN.with_u (ESN.spline E s1 data t) s1) /\
  ESN.W_in (ESN.with_u (ESN.spline E s1 data t) s1) = ESN.W_in s.
Proof.
  unfold Keep.adapted, Keep.config, Keep.trained.
  destruct reset; simpl; repeat split; reflexivity.
Qed.

End FrameFacts.

(** None of the adaptation procedures touches the configuration, the
    raw matrices, the readout weights or the stored final state, and
    each stores the interpolant of its own data.  So a model trained
    before it is adapted keeps its readout weights, and assigning
    [rho] afterwards rebuilds [rho * M_orig], whatever the adaptation
    did to the reservoir matrix.  The three anti-Hebbian procedures
    also leave the input matrix as it is.  For [IP_train] this is about
    a run that stays within the real numbers, the only kind that has a
    resulting object. *)
Theorem adaptation_keeps (F : ESN.fields) (E : Env) (data : mat)
    (t : list R) (t_listen : nat) (flag : bool) (scale_M : nat)
    (self : AHESN.obj) (ip : IPESN.obj) (epochs : nat) :
  let b0 := AHESN.base self in
  let dense := AHESN.base (AHESN.hebb_learn F E data t t_listen flag self) in
  let vector :=
    AHESN.base
      (snd (AHESN.hebb_learn_vector F E data t t_listen flag scale_M self)) in
  let norm :=
    AHESN.base (AHESN.norm_hebb_learn F E data t t_listen flag self) in
  (Keep.adapted E data t b0 dense /\ ESN.W_in dense = ESN.W_in b0) /\
  (Keep.adapted E data t b0 vector /\ ESN.W_in vector = ESN.W_in b0) /\
  (Keep.adapted E data t b0 norm /\ ESN.W_in norm = ESN.W_in b0) /\
  match IPESN.IP_train E data t epochs flag ip with
  | Some out => Keep.adapted E data t (IPESN.esn ip) (IPESN.esn out)
  | None => True
  end.
Proof.
  intros b0 dense vector norm. split; [| split; [| split]].
  - unfold dense, AHESN.hebb_learn, AHESN.listen.
    cbn [AHESN.base AHESN.with_base].
    apply (FrameFacts.adapted_with_M E data t flag b0).
  - unfold vector, AHESN.hebb_learn_vector, AHESN.listen.
    destruct (Loop.epochs_of _ _ _ _) as [e | [M calls]].
    + apply (FrameFacts.adapted_listening E data t flag b0).
    + destruct (scale_M =? 1)%nat.
      * destruct (AHESN.renormalize _ _ _) as [e | [M' calls']].
        -- apply (FrameFacts.adapted_listening E data t flag b0).
        -- apply (FrameFacts.adapted_with_M E data t flag b0).
      * apply (FrameFacts.adapted_with_M E data t flag b0).
  - unfold norm, AHESN.norm_hebb_learn, AHESN.listen.
    cbn [AHESN.base AHESN.with_base].
    apply (FrameFacts.adapted_with_M E data t flag b0).
  - unfold IPESN.IP_train, IPESN.listen.
    cbv beta iota zeta.
    destruct (Loop.epochs_opt _ _ _ _) as [[a' b'] |]; [| exact I].
    unfold Keep.adapted, Keep.config, Keep.trained.
    destruct flag; simpl; repeat split; reflexivity.
Qed.

(** On a model whose reservoir matrix is [rho * M_orig] (a model that
    has not been adapted yet) the reset flag of the anti-Hebbian
    procedures makes no difference; the same holds for [IP_train] when
    the input matrix is [sigma * W_in_orig] as well. *)
Theorem reset_idle_on_fresh (F : ESN.fields) (E : Env) (data : mat)
    (t : list R) (t_listen : nat) (scale_M : nat) (self : AHESN.obj)
    (epochs : nat) :
  let b0 := AHESN.base self in
  ESN.M b0 = scale (ESN.rho b0) (ESN.M_orig b0) ->
  AHESN.hebb_learn F E data t t_listen true self
  = AHESN.hebb_learn F E data t t_listen false self /\
  AHESN.hebb_learn_vector F E data t t_listen true scale_M self
  = AHESN.hebb_learn_vector F E data t t_listen false scale_M self /\
  AHESN.norm_hebb_learn F E data t t_listen true self
  = AHESN.norm_hebb_learn F E data t t_listen false self /\
  (forall ip,
     IPESN.base ip = self ->
     ESN.W_in b0 = scale (ESN.sigma b0) (ESN.W_in_orig b0) ->
     IPESN.IP_train E data t epochs true ip
     = IPESN.IP_train E data t epochs false ip).
Proof.
  intros b0 HM.
  assert (Hl : AHESN.listen F E data t true self
               = AHESN.listen F E data t false self).
  { unfold AHESN.listen. fold b0.
    now rewrite (FrameFacts.set_rho_same b0 HM). }
  split; [| split; [| split]].
  - unfold AHESN.hebb_learn. now rewrite Hl.
  - unfold AHESN.hebb_learn_vector. now rewrite Hl.
  - unfold AHESN.norm_hebb_learn. now rewrite Hl.
  - intros ip Hip HW.
    assert (Hl' : IPESN.listen E data t true ip
                  = IPESN.listen E data t false ip).
    { unfold IPESN.listen, IPESN.esn. rewrite Hip. fold b0.
      rewrite (FrameFacts.set_rho_same b0 HM).
      now rewrite (FrameFacts.set_sigma_same b0 HW). }
    unfold IPESN.IP_train. now rewrite Hl'.
Qed.

(** The theorem at the freshly constructed three-unit model. *)
Lemma reset_idle_on_fresh_witness :
  AHESN.hebb_learn AHESN.own_fields Demo.E3 Demo.data3 Demo.t3 0 true
    (Demo.h3 (9 / 10) (1 / 2) 2)
  = AHESN.hebb_learn AHESN.own_fields Demo.E3 Demo.data3 Demo.t3 0 false
      (Demo.h3 (9 / 10) (1 / 2) 2).
Proof.
  destruct (reset_idle_on_fresh AHESN.own_fields Demo.E3 Demo.data3 Demo.t3
              0 0 (Demo.h3 (9 / 10) (1 / 2) 2) 0) as [H _].
  - reflexivity.
  - exact H.
Defined.

(* ================================================================== *)
(** * The layout of the raw input matrix *)

(** When the random source hands back [N] column indices below [d] and
    [N] values, for [N > 0], [input_matrix] returns: the matrix has [N]
    rows, its width is one more than the largest index drawn, which is
    at most [d], and row [i] holds the value of unit [i] at the column
    drawn for unit [i] and zeros elsewhere. *)
Theorem input_matrix_layout (E : Env) (N d : nat) (seed : Z) :
  let g := random_seed E seed in
  let cols := fst (randint_rvs E 0 d N g) in
  let values := fst (uniform_rvs E (-1) 2 N (snd (randint_rvs E 0 d N g))) in
  (0 < N)%nat -> length cols = N -> length values = N ->
  Forall (fun c => (c < d)%nat) cols ->
  exists W,
    ESN.input_matrix E N d seed = inr W /\
    shaped N (S (list_max cols)) W /\
    (S (list_max cols) <= d)%nat /\
    (forall i, (i < N)%nat ->
       row W i
       = map (fun j => if (nth i cols 0%nat =? j)%nat
                       then nth i values 0 else 0)
             (seq 0 (S (list_max cols)))).
Proof.
  intros g cols values HN Hc Hv Hd.
  assert (Hret : exists W, ESN.input_matrix E N d seed = inr W).
  { unfold ESN.input_matrix. fold g. subst cols values.
    destruct (randint_rvs E 0 d N g) as [cols g']. cbn [fst snd] in *.
    destruct (uniform_rvs E (-1) 2 N g') as [values g'']. cbn [fst snd] in *.
    unfold Coo.coo_matrix. rewrite length_seq, Hc, Hv, Nat.eqb_refl.
    cbn [andb negb].
    destruct values as [| v values]; [simpl in Hv; lia |].
    eexists. reflexivity. }
  destruct Hret as [W HW]. exists W.
  split; [exact HW |]. split; [| split].
  - apply (InputFacts.input_matrix_shape E N d seed W HN HW).
  - assert (Hne : cols <> []) by (intro H0; rewrite H0 in Hc; simpl in Hc; lia).
    apply list_max_lt in Hd; [lia | exact Hne].
  - intros i Hi. apply (InputFacts.input_matrix_rows E N d seed W i HW Hi).
Qed.

(** The theorem at three units and two input channels, every unit
    drawing channel 0: the matrix has one column. *)
Lemma input_matrix_layout_witness :
  exists W,
    ESN.input_matrix Demo.E3 3 2 1 = inr W /\
    shaped 3 1 W /\
    (1 <= 2)%nat /\
    (forall i, (i < 3)%nat ->
       row W i
       = map (fun j => if (nth i [0; 0; 0]%nat 0%nat =? j)%nat
                       then nth i [1 / 2; 1 / 2; 1 / 2] 0 else 0)
             (seq 0 1)).
Proof.
  apply (input_matrix_layout Demo.E3 3 2 1).
  - lia.
  - reflexivity.
  - reflexivity.
  - repeat constructor.
Defined.

(* ================================================================== *)
(** * The error curve of [ReservoirPlot.py] *)

Module PlotFacts.

Lemma comprehension_map {A : Type} (f : nat -> result A) (g : nat -> A)
    (l : list nat) :
  (forall i, In i l -> f i = inr (g i)) ->
  ReservoirPlot.comprehension f l = inr (map g l).
Proof.
  induction l as [| i l IH]; intro H; simpl; [reflexivity |].
  rewrite (H i) by now left. simpl.
  rewrite IH by (intros j Hj; apply H; now right). reflexivity.
Qed.

Lemma comprehension_ext {A : Type} (f g : nat -> result A) (l : list nat) :
  (forall i, f i = g i) ->
  ReservoirPlot.comprehension f l = ReservoirPlot.comprehension g l.
Proof.
  intro H. induction l as [| i l IH]; simpl; [reflexivity |].
  now rewrite H, IH.
Qed.

Lemma comprehension_raises {A : Type} (f : nat -> result A) (g : nat -> A)
    (l1 l2 : list nat) (i : nat) (e : exn) :
  (forall j, In j l1 -> f j = inr (g j)) -> f i = inl e ->
  ReservoirPlot.comprehension f (l1 ++ i :: l2) = inl e.
Proof.
  intros H Hi. induction l1 as [| j l1 IH]; simpl.
  - now rewrite Hi.
  - rewrite (H j) by now left. simpl.
    rewrite IH by (intros k Hk; apply H; now right). reflexivity.
Qed.

Lemma index_in (u : mat) (i : nat) :
  (i < length u)%nat -> ReservoirPlot.index u i = inr (row u i).
Proof.
  intro H. unfold ReservoirPlot.index, row.
  now rewrite (nth_error_nth' u [] H).
Qed.

Lemma index_out (u : mat) (i : nat) :
  (length u <= i)%nat -> ReservoirPlot.index u i = inl IndexError.
Proof.
  intro H. unfold ReservoirPlot.index.
  apply nth_error_None in H. now rewrite H.
Qed.

Lemma error_at_in (u v : mat) (i : nat) :
  (i < length u)%nat -> (i < length v)%nat ->
  length (row u i) = length (row v i) ->
  ReservoirPlot.error_at u v i = inr (norm2 (vsub (row u i) (row v i))).
Proof.
  intros Hu Hv Hw. unfold ReservoirPlot.error_at.
  rewrite (index_in u i Hu), (index_in v i Hv). simpl.
  unfold ReservoirPlot.subtract. rewrite Hw, Nat.eqb_refl. reflexivity.
Qed.

Lemma error_at_out (u v : mat) (i : nat) :
  (length u <= i)%nat \/ (length v <= i)%nat ->
  ReservoirPlot.error_at u v i = inl IndexError.
Proof.
  intro H. unfold ReservoirPlot.error_at.
  destruct (Nat.lt_ge_cases i (length u)) as [Hu | Hu].
  - rewrite (index_in u i Hu). simpl.
    rewrite index_out by (destruct H; [lia | assumption]). reflexivity.
  - now rewrite (index_out u i Hu).
Qed.

Lemma dot_self_vzip (f g : R -> R -> R) (a b : vec) :
  (forall x y, f x y * f x y = g y x * g y x) ->
  dot (vzip f a b) (vzip f a b) = dot (vzip g b a) (vzip g b a).
Proof.
  intro H. revert b. induction a as [| x a IH]; intros [| y b]; simpl;
    trivial. now rewrite H, IH.
Qed.

Lemma dot_self_map (f g : R -> R) (l : vec) :
  (forall x, f x * f x = g x * g x) ->
  dot (map f l) (map f l) = dot (map g l) (map g l).
Proof.
  intro H. induction l as [| x l IH]; simpl; trivial. now rewrite H, IH.
Qed.

Lemma dot_self_nonneg (w : vec) : 0 <= dot w w.
Proof.
  induction w as [| x w IH]; simpl; [lra |]. nra.
Qed.

Lemma vsub_self (r : vec) : dot (vsub r r) (vsub r r) = 0.
Proof.
  unfold vsub. induction r as [| x r IH]; simpl; [reflexivity |].
  rewrite IH. ring.
Qed.

(** The norm of the difference does not depend on the order of the two
    rows, and neither does the refusal to subtract them. *)
Lemma subtract_sym (a b : vec) :
  match ReservoirPlot.subtract a b, ReservoirPlot.subtract b a with
  | inr x, inr y => norm2 x = norm2 y
  | inl e, inl e' => e = e'
  | _, _ => False
  end.
Proof.
  unfold ReservoirPlot.subtract. rewrite (Nat.eqb_sym (length b) (length a)).
  destruct (Nat.eqb_spec (length a) (length b)) as [Hab | Hab].
  - unfold norm2, vsub, ret. f_equal. apply dot_self_vzip. intros; ring.
  - destruct (Nat.eqb_spec (length a) 1) as [Ha | Ha];
      destruct (Nat.eqb_spec (length b) 1) as [Hb | Hb];
      try (exfalso; congruence); unfold ret, raise; trivial.
    + unfold norm2. f_equal. apply dot_self_map. intros; ring.
    + unfold norm2. f_equal. apply dot_self_map. intros; ring.
Qed.

Lemma error_at_sym (u v : mat) (i : nat) :
  ReservoirPlot.error_at u v i = ReservoirPlot.error_at v u i.
Proof.
  unfold ReservoirPlot.error_at, ReservoirPlot.index.
  destruct (nth_error u i) as [a |], (nth_error v i) as [b |]; simpl;
    trivial.
  pose proof (subtract_sym a b) as H.
  destruct (ReservoirPlot.subtract a b), (ReservoirPlot.subtract b a);
    simpl; try contradiction; congruence.
Qed.

End PlotFacts.

(** When both arrays have at least [iters] rows and the rows compared
    have equal lengths, the error curve has one entry for every
    [0 <= i < iters], the Euclidean distance of row [i] of [u] and row
    [i] of [v]; no entry is negative, and the curve is empty for
    [iters <= 0]. *)
Theorem errors_returns (u v : mat) (iters : Z) :
  let n := Z.to_nat iters in
  (n <= length u)%nat -> (n <= length v)%nat ->
  (forall i, (i < n)%nat -> length (row u i) = length (row v i)) ->
  ReservoirPlot.errors u v iters
  = inr (map (fun i => norm2 (vsub (row u i) (row v i))) (seq 0 n)) /\
  Forall (fun e => 0 <= e)
    (map (fun i => norm2 (vsub (row u i) (row v i))) (seq 0 n)) /\
  length (map (fun i => norm2 (vsub (row u i) (row v i))) (seq 0 n)) = n /\
  ((iters <= 0)%Z -> ReservoirPlot.errors u v iters = inr []).
Proof.
  intros n Hu Hv Hw.
  assert (He : ReservoirPlot.errors u v iters
               = inr (map (fun i => norm2 (vsub (row u i) (row v i)))
                          (seq 0 n))).
  { unfold ReservoirPlot.errors, range. rewrite Nat.sub_0_r. fold n.
    apply PlotFacts.comprehension_map. intros i Hi. apply in_seq in Hi.
    apply PlotFacts.error_at_in; [lia | lia | apply Hw; lia]. }
  split; [exact He |]. split; [| split].
  - apply Forall_forall. intros e Hin. apply in_map_iff in Hin.
    destruct Hin as (i & <- & _). unfold norm2. apply sqrt_pos.
  - now rewrite length_map, length_seq.
  - intro Hneg. rewrite He.
    replace n with 0%nat by (unfold n; lia). reflexivity.
Qed.

(** The theorem for two arrays of two rows and [iters = 2]. *)
Lemma errors_returns_witness :
  ReservoirPlot.errors [[1; 2; 3]; [4; 5; 6]] [[1; 2; 4]; [4; 5; 6]] 2
  = inr (map (fun i =>
                norm2 (vsub (row [[1; 2; 3]; [4; 5; 6]] i)
                            (row [[1; 2; 4]; [4; 5; 6]] i)))
             (seq 0 2)).
Proof.
  apply (errors_returns [[1; 2; 3]; [4; 5; 6]] [[1; 2; 4]; [4; 5; 6]] 2).
  - simpl. lia.
  - simpl. lia.
  - intros i Hi. change (Z.to_nat 2) with 2%nat in Hi.
    destruct i as [| [| i]]; [reflexivity | reflexivity | lia].
Defined.

(** When [iters] exceeds the number of rows of [u] or of [v], and the
    rows that both arrays have are of equal lengths, computing the
    error curve raises [IndexError]: [plot_pred] with its default
    [iters=5000] needs 5000 rows in both arrays. *)
Theorem errors_index_error (u v : mat) (iters : Z) :
  let k := Nat.min (length u) (length v) in
  (k < Z.to_nat iters)%nat ->
  (forall i, (i < k)%nat -> length (row u i) = length (row v i)) ->
  ReservoirPlot.errors u v iters = inl IndexError.
Proof.
  intros k Hk Hw. unfold ReservoirPlot.errors, range.
  rewrite Nat.sub_0_r.
  replace (Z.to_nat iters) with (k + S (Z.to_nat iters - k - 1))%nat by lia.
  rewrite seq_app. cbn [seq Nat.add].
  apply (PlotFacts.comprehension_raises _
           (fun i => norm2 (vsub (row u i) (row v i)))).
  - intros j Hj. apply in_seq in Hj.
    apply PlotFacts.error_at_in; [lia | lia | apply Hw; lia].
  - apply PlotFacts.error_at_out. lia.
Qed.

(** The theorem for two arrays of two rows and the default
    [iters = 5000] of [plot_pred]. *)
Lemma errors_index_error_witness :
  ReservoirPlot.errors [[1; 2; 3]; [4; 5; 6]] [[1; 2; 4]; [4; 5; 6]] 5000
  = inl IndexError.
Proof.
  apply (errors_index_error [[1; 2; 3]; [4; 5; 6]] [[1; 2; 4]; [4; 5; 6]]
           5000).
  - change (Nat.min (length [[1; 2; 3]; [4; 5; 6]])
                    (length [[1; 2; 4]; [4; 5; 6]])) with 2%nat.
    lia.
  - intros i Hi.
    change (Nat.min (length [[1; 2; 3]; [4; 5; 6]])
                    (length [[1; 2; 4]; [4; 5; 6]])) with 2%nat in Hi.
    destruct i as [| [| i]]; [reflexivity | reflexivity | lia].
Defined.

(** The error curve does not depend on which of the two arrays is
    passed first: the entries are the same, and so is the exception
    when one is raised. *)
Theorem errors_symmetric (u v : mat) (iters : Z) :
  ReservoirPlot.errors u v iters = ReservoirPlot.errors v u iters.
Proof.
  unfold ReservoirPlot.errors.
  apply PlotFacts.comprehension_ext. intro i. apply PlotFacts.error_at_sym.
Qed.

(** An array compared with itself has the error curve zero, on as many
    rows as it has. *)
Theorem errors_self (u : mat) (iters : Z) :
  (Z.to_nat iters <= length u)%nat ->
  ReservoirPlot.errors u u iters = inr (repeat 0 (Z.to_nat iters)).
Proof.
  intro Hu. unfold ReservoirPlot.errors, range. rewrite Nat.sub_0_r.
  rewrite (PlotFacts.comprehension_map _ (fun _ => 0)).
  - f_equal.
    assert (H : forall n a0, map (fun _ : nat => 0) (seq a0 n) = repeat 0 n).
    { induction n as [| n IH]; intro a0; simpl; [reflexivity |].
      now rewrite IH. }
    apply H.
  - intros i Hi. apply in_seq in Hi.
    rewrite PlotFacts.error_at_in by (trivial; lia).
    unfold norm2. rewrite PlotFacts.vsub_self. now rewrite sqrt_0.
Qed.

(** The theorem for an array of two rows. *)
Lemma errors_self_witness :
  ReservoirPlot.errors [[1; 2; 3]; [4; 5; 6]] [[1; 2; 3]; [4; 5; 6]] 2
  = inr [0; 0].
Proof.
  apply (errors_self [[1; 2; 3]; [4; 5; 6]] 2). simpl. lia.
Defined.
